(** * N-puzzle solver: a shallow embedding of [npuzzle.h] and [main.cpp]

    The C++ program solves square sliding-tile puzzles by best-first graph
    search.  This file embeds its data model and its methods as Rocq
    functions and proves properties of them.

    Conventions of the embedding.
    - [int] values are modelled as [Z].  Tile values, indices and dimensions
      are tiny compared with the range of [int]; the counters [g] and
      [expanded] are modelled without wrap-around.
    - C++ [/] and [%] on [int] truncate towards zero: [Z.quot] and [Z.rem].
    - A [std::vector<int>] is a [list Z]; reading outside of the vector is
      undefined behaviour in C++, the model reads [0] there.
    - [float] costs are modelled as rationals [Q].  The integer valued
      heuristics are exact in [float] below [2^24]; the square root and the
      rounding of the Euclidean heuristic are operations of a class
      [FloatOps].
    - [std::unordered_map<std::string, PuzzleState>] is a
      [gmap string PuzzleState]; [operator[]] on an absent key yields a
      default constructed [PuzzleState()].
    - [std::priority_queue] is an interface ([FrontierQueue]) with the laws
      the C++ standard gives it; a list based instance makes everything
      executable. *)

From Stdlib Require Import ZArith QArith DecimalString Lia.
From Stdlib Require DecimalFacts DecimalPos.
From stdpp Require Import base list gmap strings sets.

Local Open Scope Z_scope.

(** ** [struct PuzzleState] *)

Record PuzzleState : Type := mkPuzzleState {
  state : list Z;       (* puzzle numbers in the order they appear *)
  blankIdx : Z;         (* index of the blank square *)
  g : Z;                (* cost from the initial state *)
  h : Q;                (* heuristic cost *)
  f : Q;                (* total cost g + h *)
  move : Z;             (* 1-UP, 2-DOWN, 3-LEFT, 4-RIGHT *)
  parentKey : string    (* key of the parent state *)
}.

(** [PuzzleState()] *)
Definition PuzzleState_default : PuzzleState :=
  mkPuzzleState [] 0 0 0%Q 0%Q 0 "".

(** [PuzzleState(std::vector<int> state)] *)
Definition PuzzleState_of (st : list Z) : PuzzleState :=
  mkPuzzleState st 0 0 0%Q 0%Q 0 "".

(** [operator==]: two states are equal when their vectors are. *)
Definition PuzzleState_eqb (a b : PuzzleState) : bool :=
  bool_decide (state a = state b).

(** [struct CompareCost]: [p1.f > p2.f]. *)
Definition CompareCost (p1 p2 : PuzzleState) : bool :=
  negb (Qle_bool (f p1) (f p2)).

(** ** Vectors and loops *)

(** [v[i]] *)
Definition vget (v : list Z) (i : Z) : Z := default 0 (v !! Z.to_nat i).

(** [v[i] = x] *)
Definition vset (v : list Z) (i : Z) (x : Z) : list Z := <[Z.to_nat i := x]> v.

(** [std::to_string(int)] *)
Definition to_string (z : Z) : string := NilZero.string_of_int (Z.to_int z).

(** ** Floating point operations used by the Euclidean heuristic *)

Class FloatOps : Type := {
  dsqrt : Z → Q;     (* [sqrt] of an [int], in double precision *)
  fround : Q → Q     (* rounding of a double to [float] *)
}.

Class FloatLaws (F : FloatOps) : Prop := {
  dsqrt_nonneg : ∀ n, (0 <= dsqrt n)%Q;
  fround_nonneg : ∀ q, (0 <= q)%Q → (0 <= fround q)%Q
}.

(** ** The pure methods of [class NPuzzle]

    They read the attributes [len] and [dim] of the instance only. *)

Section Methods.
Context {F : FloatOps}.
Variables (len dim : Z).

(** [NPuzzle::isGoal] *)
Fixpoint isGoal_from (idx : list Z) (current : PuzzleState) : bool :=
  match idx with
  | [] => true
  | i :: idx' =>
      if vget (state current) i =? 0 then isGoal_from idx' current
      else if negb (vget (state current) i =? i + 1) then false
      else isGoal_from idx' current
  end.

Definition isGoal (current : PuzzleState) : bool :=
  isGoal_from (seqZ 0 len) current.

(** [NPuzzle::misplacedTile] *)
Definition misplacedTile (current : PuzzleState) : Z :=
  foldl (λ cost i,
           if vget (state current) i =? 0 then cost
           else if negb (vget (state current) i =? i + 1) then cost + 1
           else cost)
        0 (seqZ 0 len).

(** [NPuzzle::euclideanDist] *)
Definition euclideanDist (current : PuzzleState) : Q :=
  foldl (λ cost i,
           if vget (state current) i =? 0 then cost
           else
             let rowDist := Z.quot i dim - Z.quot (vget (state current) i - 1) dim in
             let colDist := Z.rem i dim - Z.rem (vget (state current) i - 1) dim in
             fround (cost + dsqrt (rowDist * rowDist + colDist * colDist))%Q)
        0%Q (seqZ 0 len).

(** [NPuzzle::manhattanDist] *)
Definition manhattanDist (current : PuzzleState) : Z :=
  foldl (λ cost i,
           if vget (state current) i =? 0 then cost
           else
             let rowDiff := Z.quot (vget (state current) i - 1) dim - Z.quot i dim in
             let colDiff := Z.rem (vget (state current) i - 1) dim - Z.rem i dim in
             cost + (Z.abs rowDiff + Z.abs colDiff))
        0 (seqZ 0 len).

(** The row scan of [manhattanDistLinearConflict]:
    [for (j = i + 1; j < (i / dim) * dim + dim; ++j)]. *)
Definition rowConflicts (current : PuzzleState) (i : Z) (cost : Z) : Z :=
  foldl (λ cost j,
           if vget (state current) j =? 0 then cost
           else if negb (Z.quot (vget (state current) j - 1) dim =? Z.quot i dim) then cost
           else if vget (state current) j <? vget (state current) i then cost + 2
           else cost)
        cost (seqZ (i + 1) (Z.quot i dim * dim + dim - (i + 1))).

(** The column scan: [for (j = i + dim; j < len; j += dim)].  The fuel is
    the number of iterations the loop can make at most. *)
Fixpoint colConflicts_from (fuel : nat) (current : PuzzleState) (i j : Z) (cost : Z) : Z :=
  match fuel with
  | O => cost
  | S fuel' =>
      if j <? len then
        let cost' :=
          if vget (state current) j =? 0 then cost
          else if negb (Z.rem (vget (state current) j - 1) dim =? Z.rem i dim) then cost
          else if vget (state current) j <? vget (state current) i then cost + 2
          else cost in
        colConflicts_from fuel' current i (j + dim) cost'
      else cost
  end.

Definition colConflicts (current : PuzzleState) (i : Z) (cost : Z) : Z :=
  colConflicts_from (Z.to_nat len) current i (i + dim) cost.

(** [NPuzzle::manhattanDistLinearConflict] *)
Definition manhattanDistLinearConflict (current : PuzzleState) : Z :=
  foldl (λ cost i,
           if vget (state current) i =? 0 then cost
           else
             let cost1 :=
               if Z.quot (vget (state current) i - 1) dim =? Z.quot i dim
               then rowConflicts current i cost else cost in
             let cost2 :=
               if Z.rem (vget (state current) i - 1) dim =? Z.rem i dim
               then colConflicts current i cost1 else cost1 in
             let rowDiff := Z.quot (vget (state current) i - 1) dim - Z.quot i dim in
             let colDiff := Z.rem (vget (state current) i - 1) dim - Z.rem i dim in
             cost2 + (Z.abs rowDiff + Z.abs colDiff))
        0 (seqZ 0 len).

(** [NPuzzle::getHeuristicCost] *)
Definition getHeuristicCost (current : PuzzleState) (heuristic : Z) : Q :=
  if heuristic =? 2 then inject_Z (misplacedTile current)
  else if heuristic =? 3 then euclideanDist current
  else if heuristic =? 4 then inject_Z (manhattanDist current)
  else if heuristic =? 5 then inject_Z (manhattanDistLinearConflict current)
  else 0%Q.

(** [NPuzzle::getKey] *)
Definition getKey (current : PuzzleState) : string :=
  foldl (λ key i, key +:+ to_string (vget (state current) i)) "" (seqZ 0 len).

(** [NPuzzle::generateChildren] *)
Definition moveBlank (current : PuzzleState) (delta : Z) (mv : Z) : PuzzleState :=
  let st1 := vset (state current) (blankIdx current)
                  (vget (state current) (blankIdx current + delta)) in
  let st2 := vset st1 (blankIdx current + delta) 0 in
  mkPuzzleState st2 (blankIdx current + delta)
                (g current) (h current) (f current) mv (parentKey current).

Definition generateChildren (current : PuzzleState) : list PuzzleState :=
  let currentRow := Z.quot (blankIdx current) dim in
  let currentCol := Z.rem (blankIdx current) dim in
  (if 0 <? currentRow then [moveBlank current (- dim) 1] else []) ++
  (if currentRow <? dim - 1 then [moveBlank current dim 2] else []) ++
  (if 0 <? currentCol then [moveBlank current (-1) 3] else []) ++
  (if currentCol <? dim - 1 then [moveBlank current 1 4] else []).

(** [NPuzzle::isSolvable], on the start state of the instance. *)
Definition inversionCount (start : PuzzleState) : Z :=
  foldl (λ cnt i,
           if vget (state start) i =? 0 then cnt
           else
             foldl (λ cnt j,
                      if vget (state start) j =? 0 then cnt
                      else if vget (state start) j <? vget (state start) i then cnt + 1
                      else cnt)
                   cnt (seqZ (i + 1) (len - (i + 1))))
        0 (seqZ 0 len).

Definition isSolvable (start : PuzzleState) : bool :=
  let inversionCount := inversionCount start in
  if Z.rem dim 2 =? 1 then
    if Z.rem inversionCount 2 =? 0 then true else false
  else
    if (Z.rem inversionCount 2 =? 1)
       && (Z.rem (dim - Z.quot (blankIdx start) dim) 2 =? 0) then true
    else if (Z.rem inversionCount 2 =? 0)
            && (Z.rem (dim - Z.quot (blankIdx start) dim) 2 =? 1) then true
    else false.
End Methods.

(** ** [class NPuzzle] *)

Record NPuzzle : Type := mkNPuzzle {
  nsz : Z;                 (* size N of the N-puzzle *)
  len : Z;                 (* length of the puzzle vector *)
  dim : Z;                 (* side length of the square *)
  expanded : Z;            (* number of nodes expanded *)
  maxQueue : Z;            (* maximum size of the frontier queue *)
  goalDepth : Z;           (* length of the solution path *)
  solvable : bool;         (* result of the solvability check *)
  start : PuzzleState;     (* initial state *)
  result : list PuzzleState;                   (* the solution path *)
  frontierStates : gmap string PuzzleState;    (* states in the frontier *)
  exploredStates : gmap string PuzzleState     (* states already expanded *)
}.

Definition set_expanded (v : Z) (p : NPuzzle) : NPuzzle :=
  mkNPuzzle (nsz p) (len p) (dim p) v (maxQueue p) (goalDepth p) (solvable p)
            (start p) (result p) (frontierStates p) (exploredStates p).
Definition set_maxQueue (v : Z) (p : NPuzzle) : NPuzzle :=
  mkNPuzzle (nsz p) (len p) (dim p) (expanded p) v (goalDepth p) (solvable p)
            (start p) (result p) (frontierStates p) (exploredStates p).
Definition set_goalDepth (v : Z) (p : NPuzzle) : NPuzzle :=
  mkNPuzzle (nsz p) (len p) (dim p) (expanded p) (maxQueue p) v (solvable p)
            (start p) (result p) (frontierStates p) (exploredStates p).
Definition set_start (v : PuzzleState) (p : NPuzzle) : NPuzzle :=
  mkNPuzzle (nsz p) (len p) (dim p) (expanded p) (maxQueue p) (goalDepth p) (solvable p)
            v (result p) (frontierStates p) (exploredStates p).
Definition set_result (v : list PuzzleState) (p : NPuzzle) : NPuzzle :=
  mkNPuzzle (nsz p) (len p) (dim p) (expanded p) (maxQueue p) (goalDepth p) (solvable p)
            (start p) v (frontierStates p) (exploredStates p).
Definition set_frontierStates (v : gmap string PuzzleState) (p : NPuzzle) : NPuzzle :=
  mkNPuzzle (nsz p) (len p) (dim p) (expanded p) (maxQueue p) (goalDepth p) (solvable p)
            (start p) (result p) v (exploredStates p).
Definition set_exploredStates (v : gmap string PuzzleState) (p : NPuzzle) : NPuzzle :=
  mkNPuzzle (nsz p) (len p) (dim p) (expanded p) (maxQueue p) (goalDepth p) (solvable p)
            (start p) (result p) (frontierStates p) v.

(** [m[k]] on an [unordered_map]: the stored state, or [PuzzleState()]. *)
Definition mapAt (m : gmap string PuzzleState) (k : string) : PuzzleState :=
  default PuzzleState_default (m !! k).

(** [v.empty()] *)
Definition vempty (v : list Z) : bool :=
  match v with [] => true | _ => false end.

(** The loop of the constructor that locates the blank tile. *)
Fixpoint findBlank_from (idx : list Z) (startState : list Z) (dflt : Z) : Z :=
  match idx with
  | [] => dflt
  | i :: idx' =>
      if vget startState i =? 0 then i else findBlank_from idx' startState dflt
  end.

(** [NPuzzle::NPuzzle(std::vector<int> startState)].  [dim = sqrt(len)] is
    the square root truncated to [int]. *)
Definition NPuzzle_init (startState : list Z) : NPuzzle :=
  let start0 := PuzzleState_of startState in
  let size := Z.of_nat (length startState) in
  let start1 :=
    mkPuzzleState (state start0) (findBlank_from (seqZ 0 size) startState (blankIdx start0))
                  (g start0) (h start0) (f start0) (move start0) (parentKey start0) in
  let len := size in
  let dim := Z.sqrt len in
  mkNPuzzle (len - 1) len dim 0 0 0 (isSolvable len dim start1) start1 [] ∅ ∅.

(** ** [std::priority_queue<PuzzleState, vector<PuzzleState>, CompareCost>] *)

Class FrontierQueue (Q : Type) : Type := {
  fq_empty : Q;                              (* a fresh queue *)
  fq_push : PuzzleState → Q → Q;             (* [push] *)
  fq_pop : Q → option (PuzzleState * Q);     (* [top] and [pop]; [None] when [empty()] *)
  fq_size : Q → Z                            (* [size] *)
}.

(** What the C++ standard promises of a priority queue: it holds the pushed
    elements, and [top] is an element that no other element precedes in the
    order of the comparator. *)
Class FrontierQueueLaws (Q : Type) `{FrontierQueue Q} : Type := {
  fq_items : Q → list PuzzleState;
  fq_items_empty : fq_items fq_empty = [];
  fq_items_push : ∀ x q, fq_items (fq_push x q) ≡ₚ x :: fq_items q;
  fq_pop_None : ∀ q, fq_pop q = None ↔ fq_items q = [];
  fq_pop_Some : ∀ q x q', fq_pop q = Some (x, q') → fq_items q ≡ₚ x :: fq_items q';
  fq_size_items : ∀ q, fq_size q = Z.of_nat (length (fq_items q))
}.

Class FrontierQueueMin (Q : Type) `{FrontierQueueLaws Q} : Prop := {
  fq_pop_min : ∀ q x q', fq_pop q = Some (x, q') →
               Forall (λ y, CompareCost x y = false) (fq_items q)
}.

(** ** The search *)

(** The outcome of one iteration of the search loop. *)
Inductive StepResult (Q : Type) : Type :=
  | Finished (r : option NPuzzle)
  | Continue (p : NPuzzle) (q : Q).
Arguments Finished {Q} r.
Arguments Continue {Q} p q.

Section Search.
Context {F : FloatOps} {Q : Type} {FQ : FrontierQueue Q}.

(** [NPuzzle::retracePath]; [None] when the fuel does not suffice to
    reach an empty parent key. *)
Fixpoint retracePath_loop (fuel : nat) (explored : gmap string PuzzleState)
         (parentKey0 : string) (path : list PuzzleState) : option (list PuzzleState) :=
  match fuel with
  | O => None
  | S fuel' =>
      if String.eqb parentKey0 "" then Some path
      else
        let parent := mapAt explored parentKey0 in
        retracePath_loop fuel' explored (parentKey parent) (parent :: path)
  end.

Definition retracePath (fuel : nat) (p : NPuzzle) (current : PuzzleState)
  : option (list PuzzleState) :=
  retracePath_loop fuel (exploredStates p) (parentKey current) [current].

(** The body of the loop over the children of [current]. *)
Definition admitChild (heuristic : Z) (current : PuzzleState) (currentKey : string)
           (acc : NPuzzle * Q) (child : PuzzleState) : NPuzzle * Q :=
  let '(p, q) := acc in
  let childKey := getKey (len p) child in
  if negb (vempty (state (mapAt (frontierStates p) childKey)))
     || negb (vempty (state (mapAt (exploredStates p) childKey)))
  then (p, q)
  else
    let g' := g current + 1 in
    let h' := getHeuristicCost (len p) (dim p) child heuristic in
    let child' :=
      mkPuzzleState (state child) (blankIdx child) g' h' (inject_Z g' + h')%Q
                    (move child) currentKey in
    (set_frontierStates (<[childKey := child']> (frontierStates p)) p,
     fq_push child' q).

(** One iteration of the [while (!frontierQueue.empty())] loop of
    [NPuzzle::solve], for the state [current] taken from the queue: the loop
    is left ([Finished], by [break]) or goes on ([Continue]). *)
Definition solve_step (fuel : nat) (heuristic : Z) (p : NPuzzle)
           (current : PuzzleState) (q1 : Q) : StepResult Q :=
  let currentKey := getKey (len p) current in
  let p1 := set_frontierStates
              (<[currentKey := PuzzleState_default]> (frontierStates p)) p in
  if isGoal (len p) current then
    match retracePath fuel p1 current with
    | Some path =>
        Finished (Some (set_goalDepth (Z.of_nat (length path)) (set_result path p1)))
    | None => Finished None
    end
  else if vempty (state (mapAt (exploredStates p1) currentKey)) then
    let p2 := set_exploredStates
                (<[currentKey := current]> (exploredStates p1))
                (set_expanded (expanded p1 + 1) p1) in
    let children := generateChildren (dim p) current in
    let '(p3, q3) :=
      foldl (admitChild heuristic current currentKey) (p2, q1) children in
    let p4 := if maxQueue p3 <? fq_size q3
              then set_maxQueue (fq_size q3) p3 else p3 in
    Continue p4 q3
  else Continue p1 q1.

(** The loop; [None] when the fuel does not suffice. *)
Fixpoint solve_loop (fuel : nat) (heuristic : Z) (p : NPuzzle) (q : Q)
  : option NPuzzle :=
  match fuel with
  | O => None
  | S fuel' =>
      match fq_pop q with
      | None => Some p
      | Some (current, q1) =>
          match solve_step fuel' heuristic p current q1 with
          | Finished r => r
          | Continue p' q' => solve_loop fuel' heuristic p' q'
          end
      end
  end.

(** [NPuzzle::solve]: the updated instance and the returned path. *)
Definition solve (fuel : nat) (p : NPuzzle) (heuristic : Z)
  : option (NPuzzle * list PuzzleState) :=
  if negb (solvable p) then
    let p' := set_result [] p in Some (p', result p')
  else
    let h0 := getHeuristicCost (len p) (dim p) (start p) heuristic in
    let start' :=
      mkPuzzleState (state (start p)) (blankIdx (start p)) 0 h0 (inject_Z 0 + h0)%Q
                    (move (start p)) (parentKey (start p)) in
    let currentKey := getKey (len p) start' in
    let q := fq_push start' fq_empty in
    let p1 := set_frontierStates (<[currentKey := start']> (frontierStates p))
                                 (set_start start' p) in
    match solve_loop fuel heuristic p1 q with
    | Some p2 => Some (p2, result p2)
    | None => None
    end.
End Search.

(** ** A list based frontier queue

    [push] stores the element in front, [pop] removes the first of the
    elements that no other one precedes. *)

Fixpoint pickMin (best : PuzzleState) (seen rest : list PuzzleState)
  : PuzzleState * list PuzzleState :=
  match rest with
  | [] => (best, rev seen)
  | y :: rest' =>
      if CompareCost best y
      then let '(m, l) := pickMin y [] rest' in (m, rev seen ++ best :: l)
      else pickMin best (y :: seen) rest'
  end.

#[export] Instance listQueue : FrontierQueue (list PuzzleState) := {
  fq_empty := [];
  fq_push x q := x :: q;
  fq_pop q := match q with [] => None | x :: q' => Some (pickMin x [] q') end;
  fq_size q := Z.of_nat (length q)
}.

(** Exact arithmetic in the place of the floating point operations: the
    integer square root and no rounding. *)
#[export] Instance exactFloat : FloatOps := {
  dsqrt n := inject_Z (Z.sqrt n);
  fround q := q
}.

(** ** The default puzzles of [puzzles.h] used below *)

Module DefaultPuzzle.
Definition trivial : list Z := [1; 2; 3; 4; 5; 6; 7; 8; 0].
Definition easy : list Z := [1; 2; 0; 4; 5; 3; 7; 8; 6].
Definition doable : list Z := [0; 1; 2; 4; 5; 3; 7; 8; 6].
Definition impossible : list Z := [1; 2; 3; 4; 5; 6; 8; 7; 0].
Module Fifteen.
Definition trivial : list Z :=
  [1; 2; 3; 4; 5; 6; 7; 8; 9; 10; 11; 12; 13; 14; 15; 0].
End Fifteen.
End DefaultPuzzle.

(** ** Notions of the specification *)

(** The goal arrangement of a puzzle of side [d]: the tiles [1 .. d*d-1] in
    ascending order, followed by the blank. *)
Definition goalGrid (d : Z) : list Z := seqZ 1 (d * d - 1) ++ [0].

(** The move that undoes a move: UP (1) and DOWN (2) undo each other, and
    so do LEFT (3) and RIGHT (4). *)
Definition inverseMove (m : Z) : Z :=
  if m =? 1 then 2 else if m =? 2 then 1
  else if m =? 3 then 4 else if m =? 4 then 3 else 0.

(** A valid state of a puzzle of side [d]: a vector of [d*d] numbers whose
    blank index points at the blank. *)
Definition validState (d : Z) (s : PuzzleState) : Prop :=
  1 <= d ∧ Z.of_nat (length (state s)) = d * d ∧
  0 <= blankIdx s < d * d ∧ vget (state s) (blankIdx s) = 0.

(** The number of elements of [l] that satisfy [p]. *)
Definition countZ {A : Type} (p : A → bool) (l : list A) : Z :=
  Z.of_nat (length (List.filter p l)).

(** An inversion of a grid: a pair of positions [i < j], both holding a
    tile (not the blank), where the tile at [j] is smaller than the tile at
    [i]. *)
Definition isInversion (grid : list Z) (ij : Z * Z) : bool :=
  (ij.1 <? ij.2) && negb (vget grid ij.1 =? 0) && negb (vget grid ij.2 =? 0)
  && (vget grid ij.2 <? vget grid ij.1).

Definition inversions (grid : list Z) : Z :=
  let positions := seqZ 0 (Z.of_nat (length grid)) in
  countZ (isInversion grid) (list_prod positions positions).

(** The parity policy of the solvability check, for a puzzle of side [d]
    whose blank is at [blankIndex]. *)
Definition solvablePolicy (d : Z) (grid : list Z) (blankIndex : Z) : Prop :=
  (Z.Odd d ∧ Z.Even (inversions grid)) ∨
  (Z.Even d ∧
   ((Z.Odd (inversions grid) ∧ Z.Even (d - blankIndex / d)) ∨
    (Z.Even (inversions grid) ∧ Z.Odd (d - blankIndex / d)))).

(** A row conflict: two tiles at positions [i < j] of one row, which is the
    goal row of both, with the larger tile in front.  The goal position of
    the tile [v] is the index [v - 1]. *)
Definition rowConflict (d : Z) (grid : list Z) (ij : Z * Z) : bool :=
  (ij.1 <? ij.2) && (ij.1 / d =? ij.2 / d)
  && negb (vget grid ij.1 =? 0) && negb (vget grid ij.2 =? 0)
  && ((vget grid ij.1 - 1) / d =? ij.1 / d) && ((vget grid ij.2 - 1) / d =? ij.2 / d)
  && (vget grid ij.2 <? vget grid ij.1).

(** A column conflict is the transpose. *)
Definition colConflict (d : Z) (grid : list Z) (ij : Z * Z) : bool :=
  (ij.1 <? ij.2) && (ij.1 mod d =? ij.2 mod d)
  && negb (vget grid ij.1 =? 0) && negb (vget grid ij.2 =? 0)
  && ((vget grid ij.1 - 1) mod d =? ij.1 mod d)
  && ((vget grid ij.2 - 1) mod d =? ij.2 mod d)
  && (vget grid ij.2 <? vget grid ij.1).

(** The state has no linear conflict, in a row or in a column. *)
Definition noLinearConflict (d : Z) (grid : list Z) : Prop :=
  ∀ i j, 0 <= i < d * d → 0 <= j < d * d →
         rowConflict d grid (i, j) = false ∧ colConflict d grid (i, j) = false.

(** The indices visited by [for (j = j0; j < len; j += dim)], at most
    [fuel] of them. *)
Fixpoint strideList (len dim : Z) (fuel : nat) (j : Z) : list Z :=
  match fuel with
  | O => []
  | S fuel' => if j <? len then j :: strideList len dim fuel' (j + dim) else []
  end.

(** ** All runs of the search

    The order among queued states of equal cost is left open by the
    priority queue.  [solve_loop_all] follows the loop of [solve] for every
    choice a lawful queue can make and collects the outcomes. *)

(** The choices of [top]/[pop] on the elements [l]: an element that none
    precedes, and the remaining elements. *)
Definition minChoices (l : list PuzzleState) : list (PuzzleState * list PuzzleState) :=
  omap (λ i, match l !! i with
             | Some x =>
                 if forallb (λ y, negb (CompareCost x y)) l
                 then Some (x, delete i l) else None
             | None => None
             end)
       (seq 0 (length l)).

Fixpoint solve_loop_all {F : FloatOps} (fuel : nat) (heuristic : Z) (p : NPuzzle)
         (l : list PuzzleState) : list (option NPuzzle) :=
  match fuel with
  | O => [None]
  | S fuel' =>
      match l with
      | [] => [Some p]
      | _ :: _ =>
          choice ← minChoices l;
          match solve_step (FQ:=listQueue) fuel' heuristic p choice.1 choice.2 with
          | Finished r => [r]
          | Continue p' l' => solve_loop_all fuel' heuristic p' l'
          end
      end
  end.

(** The search ended with the path whose states have the tile sequences
    [expected], and recorded its length. *)
Definition pathIs (expected : list (list Z)) (r : option NPuzzle) : bool :=
  match r with
  | Some p' =>
      bool_decide (map state (result p') = expected)
      && (goalDepth p' =? Z.of_nat (length expected))
  | None => false
  end.

(** The frontier of [solve] before its loop: the instance with the costs of
    the start state set and the start state registered. *)
Definition solve_start {F : FloatOps} (p : NPuzzle) (heuristic : Z) : NPuzzle * PuzzleState :=
  let h0 := getHeuristicCost (len p) (dim p) (start p) heuristic in
  let start' :=
    mkPuzzleState (state (start p)) (blankIdx (start p)) 0 h0 (inject_Z 0 + h0)%Q
                  (move (start p)) (parentKey (start p)) in
  (set_frontierStates (<[getKey (len p) start' := start']> (frontierStates p))
                      (set_start start' p),
   start').

(** The solution of [DefaultPuzzle.easy]: the blank moves down twice. *)
Definition easyPath : list (list Z) :=
  [ [1; 2; 0; 4; 5; 3; 7; 8; 6];
    [1; 2; 3; 4; 5; 0; 7; 8; 6];
    [1; 2; 3; 4; 5; 6; 7; 8; 0] ].

(** A 15-puzzle grid whose key is the key of the goal grid: the decimal
    digits of 12 3 .. 10 1 11 2 and of 1 2 3 .. 10 11 12 run together to
    the same string. *)
Definition collidingGrid : list Z :=
  [12; 3; 4; 5; 6; 7; 8; 9; 10; 1; 11; 2; 13; 14; 15; 0].

(** The keys under which the explored registry holds a state. *)
Definition exploredKeys (m : gmap string PuzzleState) : gset string :=
  dom (filter (λ kx, state kx.2 ≠ []) m).

(** The keys of all arrangements of the tiles of [grid]. *)
Definition arrangementKeys (len : Z) (grid : list Z) : gset string :=
  list_to_set ((λ l, getKey len (PuzzleState_of l)) <$> permutations grid).

(** The state [x] is linked to the start grid by [k] parent keys through
    the explored registry [m]. *)
Fixpoint parentChain (grid : list Z) (m : gmap string PuzzleState)
         (x : PuzzleState) (k : nat) : Prop :=
  match k with
  | O => parentKey x = "" ∧ state x = grid
  | S k' =>
      parentKey x ≠ "" ∧ state (mapAt m (parentKey x)) ≠ [] ∧
      parentChain grid m (mapAt m (parentKey x)) k'
  end.

(** A path of the search: it starts at the start grid and ends in a state
    that passes the goal test. *)
Definition solutionPath (len : Z) (grid : list Z) (path : list PuzzleState) : Prop :=
  ∃ s0 sg, head path = Some s0 ∧ state s0 = grid ∧
           last path = Some sg ∧ isGoal len sg = true.

(** The floating point operations are exact at zero. *)
Class FloatZero (F : FloatOps) : Prop := {
  dsqrt_zero : dsqrt 0 = 0%Q;
  fround_zero : fround 0%Q = 0%Q
}.

(** The tiles of a grid, without the blank. *)
Definition tilesOf (l : list Z) : list Z := List.filter (λ y, negb (y =? 0)) l.

(** The inversions of a sequence of tiles: for each tile the smaller tiles
    that follow it. *)
Fixpoint invN (l : list Z) : Z :=
  match l with
  | [] => 0
  | x :: r => countZ (λ y, y <? x) r + invN r
  end.

(** One legal move leads from [s] to [t]: a child of [s] has the tiles and
    the blank index of [t]. *)
Definition moveStep (d : Z) (s t : PuzzleState) : Prop :=
  ∃ c, c ∈ generateChildren d s ∧ state c = state t ∧ blankIdx c = blankIdx t.

(** [t] is reached from [s] by a sequence of legal moves. *)
Inductive reachable (d : Z) : PuzzleState → PuzzleState → Prop :=
  | reachable_refl (s t : PuzzleState) :
      state s = state t → blankIdx s = blankIdx t → reachable d s t
  | reachable_step (s t u : PuzzleState) :
      moveStep d s t → reachable d t u → reachable d s u.

(** The state [t] is the result of one legal move from [s], with its move
    tag and its path cost. *)
Definition stepTo (d : Z) (s t : PuzzleState) : Prop :=
  (∃ c, c ∈ generateChildren d s ∧ state c = state t ∧ blankIdx c = blankIdx t
        ∧ move c = move t)
  ∧ g t = g s + 1.

(** Every state of the path results from its predecessor by a legal move. *)
Fixpoint legalPath (d : Z) (path : list PuzzleState) : Prop :=
  match path with
  | [] => True
  | s1 :: rest =>
      match rest with
      | [] => True
      | s2 :: _ => stepTo d s1 s2 ∧ legalPath d rest
      end
  end.

(** A solution: a path of legal moves from the start grid, with cost 0 and
    move tag 0, to a state that passes the goal test. *)
Definition legalSolution (d : Z) (grid : list Z) (path : list PuzzleState) : Prop :=
  ∃ s0 sg, head path = Some s0 ∧ state s0 = grid ∧ g s0 = 0 ∧ move s0 = 0 ∧
           validState d s0 ∧
           last path = Some sg ∧ isGoal (d * d) sg = true ∧
           Z.of_nat (length path) = g sg + 1 ∧
           legalPath d path.

(** The state [x] is linked to the start by [k] legal moves, through the
    parent keys stored in the explored registry [m]. *)
Fixpoint legalChain (d : Z) (grid : list Z) (m : gmap string PuzzleState)
         (x : PuzzleState) (k : nat) : Prop :=
  match k with
  | O => parentKey x = "" ∧ state x = grid ∧ g x = 0 ∧ move x = 0 ∧ validState d x
  | S k' =>
      parentKey x ≠ "" ∧ state (mapAt m (parentKey x)) ≠ [] ∧
      stepTo d (mapAt m (parentKey x)) x ∧
      legalChain d grid m (mapAt m (parentKey x)) k'
  end.

(** The keys of the arrangements of [grid] identify them. *)
Definition keysInjective (len : Z) (grid : list Z) : Prop :=
  ∀ a b : list Z, a ≡ₚ grid → b ≡ₚ grid →
    getKey len (PuzzleState_of a) = getKey len (PuzzleState_of b) → a = b.

(** [u] is reached from [s] by [n] legal moves. *)
Inductive reachableIn (d : Z) : nat → PuzzleState → PuzzleState → Prop :=
  | reachableIn_refl (s t : PuzzleState) :
      state s = state t → blankIdx s = blankIdx t → reachableIn d 0 s t
  | reachableIn_step (n : nat) (s t u : PuzzleState) :
      moveStep d s t → reachableIn d n t u → reachableIn d (S n) s u.

(** ** Console output

    The characters written to [std::cout] are collected in a string; a
    function that prints takes the output so far and returns the extended
    output, or [None] when it throws. *)

(** [std::endl] *)
Definition endl : string := String (Ascii.ascii_of_nat 10) "".

(** [n] spaces. *)
Fixpoint nspaces (n : nat) : string :=
  match n with
  | O => ""
  | S n' => String (Ascii.ascii_of_nat 32) (nspaces n')
  end.

(** [std::string(n, ' ')] for an [int] [n]: a negative [n] converts to a
    size beyond [max_size()], for which the constructor throws
    [std::length_error]. *)
Definition spaces (n : Z) : option string :=
  if n <? 0 then None else Some (nspaces (Z.to_nat n)).

(** The body of the loop of [NPuzzle::displayState]: the number, its
    padding, and the end of the line after the last column. *)
Definition displayCell (defaultPadding dim : Z) (current : PuzzleState)
           (out : string) (i : Z) : option string :=
  let out1 := out +:+ to_string (vget (state current) i) in
  let paddingSize :=
    defaultPadding - Z.of_nat (String.length (to_string (vget (state current) i))) + 1 in
  currentPadding ← spaces paddingSize;
  let out2 := out1 +:+ currentPadding in
  Some (if Z.rem i dim =? dim - 1 then out2 +:+ endl else out2).

(** [NPuzzle::displayState] *)
Definition displayState (p : NPuzzle) (current : PuzzleState) (out : string)
  : option string :=
  let paddingSize := Z.of_nat (String.length (to_string (nsz p))) in
  foldl (λ acc i, acc ≫= λ o, displayCell paddingSize (dim p) current o i)
        (Some out) (seqZ 0 (len p)).

(** The text of a list of strings. *)
Definition concatStrings (l : list string) : string := foldr String.append "" l.

(** A number followed by spaces up to the width [w + 1]. *)
Definition paddedCell (w : nat) (v : Z) : string :=
  to_string v +:+ nspaces (S w - String.length (to_string v)).

(** The grid of a state as text: one line for each row, each number in a
    cell of [w + 1] characters. *)
Definition gridText (w : nat) (d : Z) (s : PuzzleState) : string :=
  concatStrings
    ((λ r, concatStrings ((λ c, paddedCell w (vget (state s) (r * d + c))) <$> seqZ 0 d)
           +:+ endl) <$> seqZ 0 d).

(** The text that [std::cout] writes for a [float]. *)
Class FloatText : Type := {
  float_to_text : Q → string
}.

(** How a call ends: it returns, it throws, or the fuel of the model does
    not suffice. *)
Inductive Run (A : Type) : Type :=
  | Returns (a : A)
  | Throws
  | OutOfFuel.
Arguments Returns {A} a.
Arguments Throws {A}.
Arguments OutOfFuel {A}.

(** The outcome of one iteration of the loop of [NPuzzle::solveVerbose]. *)
Inductive VerboseStep (Q : Type) : Type :=
  | VFinished (r : option (NPuzzle * string))
  | VContinue (p : NPuzzle) (q : Q) (startExpanded : bool) (out : string)
  | VThrown.
Arguments VFinished {Q} r.
Arguments VContinue {Q} p q startExpanded out.
Arguments VThrown {Q}.

Section Verbose.
Context {F : FloatOps} {T : FloatText} {Q : Type} {FQ : FrontierQueue Q}.

(** One iteration of the loop of [NPuzzle::solveVerbose], for the state
    [current] taken from the queue. *)
Definition solveVerbose_step (fuel : nat) (heuristic : Z) (p : NPuzzle)
           (current : PuzzleState) (q1 : Q) (startExpanded : bool) (out : string)
  : VerboseStep Q :=
  let currentKey := getKey (len p) current in
  let p1 := set_frontierStates
              (<[currentKey := PuzzleState_default]> (frontierStates p)) p in
  if isGoal (len p) current then
    match displayState p1 current out with
    | None => VThrown
    | Some out1 =>
        match retracePath fuel p1 current with
        | Some path =>
            let p2 := set_goalDepth (Z.of_nat (length path)) (set_result path p1) in
            let out2 := out1 +:+ endl +:+ "GOAL" +:+ endl +:+ endl in
            let out3 :=
              out2 +:+ "To solve this problem, the search algorithm expanded a total of " in
            let out4 := out3 +:+ to_string (expanded p2) +:+ " nodes." +:+ endl in
            let out5 :=
              out4 +:+ "The maximum number of nodes in the queue at any one time was " in
            let out6 := out5 +:+ to_string (maxQueue p2) +:+ "." +:+ endl in
            let out7 :=
              out6 +:+ "The depth of the goal node was " +:+ to_string (goalDepth p2)
                   +:+ "." +:+ endl in
            VFinished (Some (p2, out7))
        | None => VFinished None
        end
    end
  else if vempty (state (mapAt (exploredStates p1) currentKey)) then
    let shown :=
      if startExpanded then
        let out1 := out +:+ "The best state to expand with g(n) = "
                        +:+ to_string (g current) in
        let out2 := out1 +:+ " and h(n) = " +:+ float_to_text (h current)
                         +:+ " is..." +:+ endl in
        out3 ← displayState p1 current out2;
        Some (out3 +:+ "Expanding this node..." +:+ endl +:+ endl)
      else
        let out1 := out +:+ "Expanding state" +:+ endl in
        out2 ← displayState p1 current out1;
        Some (out2 +:+ endl) in
    match shown with
    | None => VThrown
    | Some out' =>
        let p2 := set_exploredStates
                    (<[currentKey := current]> (exploredStates p1))
                    (set_expanded (expanded p1 + 1) p1) in
        let children := generateChildren (dim p) current in
        let '(p3, q3) :=
          foldl (admitChild heuristic current currentKey) (p2, q1) children in
        let p4 := if maxQueue p3 <? fq_size q3
                  then set_maxQueue (fq_size q3) p3 else p3 in
        VContinue p4 q3 true out'
    end
  else VContinue p1 q1 startExpanded out.

(** The loop of [NPuzzle::solveVerbose]. *)
Fixpoint solveVerbose_loop (fuel : nat) (heuristic : Z) (p : NPuzzle) (q : Q)
         (startExpanded : bool) (out : string) : Run (NPuzzle * string) :=
  match fuel with
  | O => OutOfFuel
  | S fuel' =>
      match fq_pop q with
      | None => Returns (p, out)
      | Some (current, q1) =>
          match solveVerbose_step fuel' heuristic p current q1 startExpanded out with
          | VFinished (Some r) => Returns r
          | VFinished None => OutOfFuel
          | VContinue p' q' startExpanded' out' =>
              solveVerbose_loop fuel' heuristic p' q' startExpanded' out'
          | VThrown => Throws
          end
      end
  end.

(** [NPuzzle::solveVerbose]: the updated instance, the returned path and
    the output. *)
Definition solveVerbose (fuel : nat) (p : NPuzzle) (heuristic : Z) (out : string)
  : Run (NPuzzle * list PuzzleState * string) :=
  if negb (solvable p) then
    let out1 := out +:+ "PUZZLE IS NOT SOLVABLE" +:+ endl in
    let p' := set_result [] p in Returns (p', result p', out1)
  else
    let out1 := out +:+ "SOLVING PUZZLE..." +:+ endl +:+ endl in
    let h0 := getHeuristicCost (len p) (dim p) (start p) heuristic in
    let start' :=
      mkPuzzleState (state (start p)) (blankIdx (start p)) 0 h0 (inject_Z 0 + h0)%Q
                    (move (start p)) (parentKey (start p)) in
    let currentKey := getKey (len p) start' in
    let q := fq_push start' fq_empty in
    let p1 := set_frontierStates (<[currentKey := start']> (frontierStates p))
                                 (set_start start' p) in
    match solveVerbose_loop fuel heuristic p1 q false out1 with
    | Returns (p2, out2) => Returns (p2, result p2, out2)
    | Throws => Throws
    | OutOfFuel => OutOfFuel
    end.
End Verbose.

(** ** The puzzle entered in [main] *)

(** [isspace] in the C locale. *)
Definition isspace (c : Ascii.ascii) : bool :=
  let n := Z.of_nat (Ascii.nat_of_ascii c) in
  (n =? 32) || ((9 <=? n) && (n <=? 13)).

(** The value of a decimal digit. *)
Definition digitValue (c : Ascii.ascii) : option Z :=
  let n := Z.of_nat (Ascii.nat_of_ascii c) in
  if (48 <=? n) && (n <=? 57) then Some (n - 48) else None.

Fixpoint skipSpaces (s : string) : string :=
  match s with
  | String c rest => if isspace c then skipSpaces rest else s
  | EmptyString => EmptyString
  end.

(** The number that the leading digits of [s] continue from [acc]. *)
Fixpoint readDigits (acc : Z) (s : string) : Z :=
  match s with
  | String c rest =>
      match digitValue c with
      | Some v => readDigits (acc * 10 + v) rest
      | None => acc
      end
  | EmptyString => acc
  end.

Definition INT_MIN : Z := - 2 ^ 31.
Definition INT_MAX : Z := 2 ^ 31 - 1.

(** [std::stoi(s)]: leading white space, an optional sign, and the digits
    that follow; [None] when it throws, which is [std::invalid_argument]
    when there is no digit and [std::out_of_range] when the number is no
    [int]. *)
Definition stoi (s : string) : option Z :=
  let s1 := skipSpaces s in
  let '(negative, s2) :=
    match s1 with
    | String c rest =>
        if Ascii.eqb c (Ascii.ascii_of_nat 45) then (true, rest)
        else if Ascii.eqb c (Ascii.ascii_of_nat 43) then (false, rest)
        else (false, s1)
    | EmptyString => (false, s1)
    end in
  match s2 with
  | String c _ =>
      match digitValue c with
      | Some _ =>
          let v := readDigits 0 s2 in
          let r := if negative : bool then - v else v in
          if (INT_MIN <=? r) && (r <=? INT_MAX) then Some r else None
      | None => None
      end
  | EmptyString => None
  end.

(** The loop of [main] over the characters of the line, and the statement
    after it: a space ends a number, which [stoi] converts. *)
Fixpoint parsePuzzle_loop (puzzleInput : string) (puzzle : list Z) (intStr : string)
  : option (list Z) :=
  match puzzleInput with
  | String c rest =>
      if Ascii.eqb c (Ascii.ascii_of_nat 32) then
        v ← stoi intStr;
        parsePuzzle_loop rest (puzzle ++ [v]) ""
      else parsePuzzle_loop rest puzzle (intStr +:+ String c "")
  | EmptyString =>
      v ← stoi intStr;
      Some (puzzle ++ [v])
  end.

Definition parsePuzzle (puzzleInput : string) : option (list Z) :=
  parsePuzzle_loop puzzleInput [] "".

(** The numbers of a grid on one line, with a space between numbers. *)
Fixpoint gridLine (grid : list Z) : string :=
  match grid with
  | [] => ""
  | [v] => to_string v
  | v :: rest => to_string v +:+ String (Ascii.ascii_of_nat 32) (gridLine rest)
  end.

(** No character of [s] is the space. *)
Fixpoint noSpace (s : string) : bool :=
  match s with
  | String c rest => negb (Ascii.eqb c (Ascii.ascii_of_nat 32)) && noSpace rest
  | EmptyString => true
  end.

(** The line that [NPuzzle::displaySolution] prints before the state
    number [i] of the path, for the move tag of the state. *)
Definition moveHeader (out : string) (i : Z) (mv : Z) : string :=
  if mv =? 1 then out +:+ "-- " +:+ to_string i +:+ ": MOVE UP -----" +:+ endl
  else if mv =? 2 then out +:+ "-- " +:+ to_string i +:+ ": MOVE DOWN ---" +:+ endl
  else if mv =? 3 then out +:+ "-- " +:+ to_string i +:+ ": MOVE LEFT ---" +:+ endl
  else if mv =? 4 then out +:+ "-- " +:+ to_string i +:+ ": MOVE RIGHT --" +:+ endl
  else out +:+ "------ START ------" +:+ endl.

(** [NPuzzle::displaySolution] *)
Definition displaySolution (p : NPuzzle) (out : string) : option string :=
  let paddingSize := Z.of_nat (String.length (to_string (nsz p))) in
  let out1 :=
    out +:+ endl +:+ "*************** SOLUTION ****************" +:+ endl +:+ endl in
  let out2 :=
    match result p with
    | [] => out1 +:+ "-- NO SOLUTION --" +:+ endl +:+ endl
    | _ => out1
    end in
  out3 ←
    foldl (λ acc i, acc ≫= λ o,
             let current := default PuzzleState_default (result p !! Z.to_nat i) in
             let o1 := moveHeader o i (move current) in
             o2 ← foldl (λ acc' j, acc' ≫= λ o', displayCell paddingSize (dim p) current o' j)
                        (Some o1) (seqZ 0 (len p));
             Some (o2 +:+ endl))
          (Some out2) (seqZ 0 (Z.of_nat (length (result p))));
  Some (out3 +:+ "*****************************************" +:+ endl +:+ endl).

(** The states of a path as text, numbered from [i]: for each state the
    line of its move, its grid and an empty line. *)
Fixpoint solutionText (w : nat) (d : Z) (i : Z) (path : list PuzzleState) : string :=
  match path with
  | [] => ""
  | s :: rest =>
      moveHeader "" i (move s) +:+ gridText w d s +:+ endl
      +:+ solutionText w d (i + 1) rest
  end.

(** * Properties *)

(** ** Loops and vectors *)

Lemma foldl_preserves {A B} (P : A → Prop) (step : A → B → A) (l : list B) (a : A) :
  P a → (∀ a' b, b ∈ l → P a' → P (step a' b)) → P (foldl step a l).
Proof.
  revert a. induction l as [|b l IH]; intros a Ha Hstep; simpl; [done|].
  apply IH.
  - apply Hstep; [left | done].
  - intros a' b' Hb'. apply Hstep. by right.
Qed.

Lemma foldl_ext_in {A B} (s1 s2 : A → B → A) (l : list B) (a : A) :
  (∀ a' b, b ∈ l → s1 a' b = s2 a' b) → foldl s1 a l = foldl s2 a l.
Proof.
  revert a. induction l as [|b l IH]; intros a Hs; simpl; [done|].
  rewrite Hs by left. apply IH. intros a' b' Hb'. apply Hs. by right.
Qed.

Lemma vget_lookup (v : list Z) (i : Z) (x : Z) :
  v !! Z.to_nat i = Some x → vget v i = x.
Proof. unfold vget. by intros ->. Qed.

Lemma vget_ge (v : list Z) (i : Z) :
  Z.of_nat (length v) <= i → vget v i = 0.
Proof.
  intros Hi. unfold vget. rewrite lookup_ge_None_2; [done | lia].
Qed.

Lemma vget_elem_of (v : list Z) (i : Z) :
  0 <= i < Z.of_nat (length v) → vget v i ∈ v.
Proof.
  intros Hi. unfold vget.
  destruct (lookup_lt_is_Some_2 v (Z.to_nat i)) as [x Hx]; [lia|].
  rewrite Hx. simpl. by eapply list_elem_of_lookup_2.
Qed.

Lemma vget_ext (a b : list Z) :
  length a = length b →
  (∀ i, 0 <= i < Z.of_nat (length a) → vget a i = vget b i) → a = b.
Proof.
  intros Hlen Hget. apply list_eq. intros k.
  destruct (decide (k < length a)%nat) as [Hk|Hk].
  - specialize (Hget (Z.of_nat k) ltac:(lia)). unfold vget in Hget.
    rewrite Nat2Z.id in Hget.
    destruct (lookup_lt_is_Some_2 a k Hk) as [x Hx].
    destruct (lookup_lt_is_Some_2 b k ltac:(lia)) as [y Hy].
    rewrite Hx, Hy in *. simpl in Hget. by subst.
  - rewrite !lookup_ge_None_2; [done|lia|lia].
Qed.

Lemma vget_lookup_Some (v : list Z) (i : Z) :
  0 <= i < Z.of_nat (length v) → v !! Z.to_nat i = Some (vget v i).
Proof.
  intros Hi. unfold vget.
  destruct (lookup_lt_is_Some_2 v (Z.to_nat i)) as [x Hx]; [lia|]. by rewrite Hx.
Qed.

Lemma CompareCost_false (x y : PuzzleState) :
  CompareCost x y = false ↔ (f x <= f y)%Q.
Proof.
  unfold CompareCost. rewrite negb_false_iff. apply Qle_bool_iff.
Qed.

(** ** The list based queue is a lawful priority queue *)

Lemma pickMin_spec (rest : list PuzzleState) :
  ∀ best seen m l,
    pickMin best seen rest = (m, l) →
    Forall (λ z, CompareCost best z = false) seen →
    m :: l ≡ₚ best :: seen ++ rest ∧
    Forall (λ z, CompareCost m z = false) (best :: seen ++ rest).
Proof.
  induction rest as [|y rest IH]; intros best seen m l Hpick Hseen; simpl in Hpick.
  - inversion Hpick; subst. rewrite app_nil_r. split.
    + by rewrite <- Permutation_rev.
    + constructor; [|done]. apply CompareCost_false. apply Qle_refl.
  - destruct (CompareCost best y) eqn:Hcmp.
    + destruct (pickMin y [] rest) as [m' l'] eqn:Hrec.
      inversion Hpick; subst. clear Hpick.
      destruct (IH y [] m l' Hrec) as [Hperm Hmin]; [constructor|].
      simpl in Hperm, Hmin.
      assert (Hmy : (f m <= f y)%Q).
      { apply CompareCost_false. by inversion Hmin. }
      assert (Hyb : (f y <= f best)%Q).
      { unfold CompareCost in Hcmp. apply negb_true_iff in Hcmp.
        destruct (Qlt_le_dec (f y) (f best)) as [Hlt|Hle].
        - by apply Qlt_le_weak.
        - apply Qle_bool_iff in Hle. congruence. }
      split.
      * rewrite <- Permutation_rev.
        rewrite (Permutation_middle seen (y :: rest) best).
        rewrite <- Hperm.
        rewrite <- !Permutation_middle. by rewrite (Permutation_swap m best).
      * assert (Hmb : (f m <= f best)%Q) by (by eapply Qle_trans).
        constructor; [by apply CompareCost_false|].
        apply Forall_app. split; [|done].
        eapply Forall_impl; [exact Hseen|]. intros z Hz.
        apply CompareCost_false. apply CompareCost_false in Hz.
        by eapply Qle_trans.
    + destruct (IH best (y :: seen) m l Hpick) as [Hperm Hmin].
      { constructor; [done|done]. }
      split.
      * rewrite Hperm. simpl. by rewrite <- Permutation_middle.
      * inversion Hmin as [|? ? Hb Hrest]; subst. constructor; [done|].
        simpl in Hrest. by rewrite <- Permutation_middle.
Qed.

#[export] Program Instance listQueue_laws : FrontierQueueLaws (list PuzzleState) := {
  fq_items q := q
}.
Next Obligation. done. Qed.
Next Obligation. done. Qed.
Next Obligation.
  intros q. simpl. destruct q as [|x q]; [done|].
  split; [|done]. by destruct (pickMin x [] q).
Qed.
Next Obligation.
  intros q x q' Hpop. simpl in *. destruct q as [|y q]; [done|].
  injection Hpop as Hpop.
  destruct (pickMin_spec q y [] x q' Hpop) as [Hperm _]; [constructor|].
  by rewrite Hperm.
Qed.
Next Obligation. done. Qed.

#[export] Instance listQueue_min : FrontierQueueMin (list PuzzleState).
Proof.
  constructor. intros q x q' Hpop. simpl in *. destruct q as [|y q]; [done|].
  injection Hpop as Hpop.
  by destruct (pickMin_spec q y [] x q' Hpop) as [_ Hmin]; [constructor|].
Qed.

#[export] Instance exactFloat_laws : FloatLaws exactFloat.
Proof.
  constructor.
  - intros n. simpl. unfold Qle. simpl. pose proof (Z.sqrt_nonneg n). lia.
  - intros q Hq. done.
Qed.

(** ** Goal test and misplaced tiles *)

Section GoalMisplaced.
Variable len : Z.
Variable current : PuzzleState.

Let step := λ (cost : Z) (i : Z),
    if vget (state current) i =? 0 then cost
    else if negb (vget (state current) i =? i + 1) then cost + 1
    else cost.

Lemma misplaced_from_ge (idx : list Z) (acc : Z) : acc <= foldl step acc idx.
Proof.
  apply (foldl_preserves (λ c, acc <= c)); [lia|].
  intros c i _ Hc. unfold step.
  destruct (_ =? 0); [done|]. destruct (negb _); lia.
Qed.

Lemma isGoal_from_misplaced (idx : list Z) (acc : Z) :
  isGoal_from idx current = true ↔ foldl step acc idx = acc.
Proof.
  revert acc. induction idx as [|i idx IH]; intros acc; simpl; [done|].
  unfold step at 2.
  destruct (vget (state current) i =? 0); [apply IH|].
  destruct (negb (vget (state current) i =? i + 1)); [|apply IH].
  split; [done|]. pose proof (misplaced_from_ge idx (acc + 1)). lia.
Qed.
End GoalMisplaced.

(** C10. For every puzzle state, the goal test succeeds if and only if the
    misplaced-tile heuristic of the state is 0: both loops look at the
    non-blank tiles whose value differs from index + 1. *)
Theorem isGoal_iff_misplacedTile_zero (len : Z) (current : PuzzleState) :
  isGoal len current = true ↔ misplacedTile len current = 0.
Proof.
  unfold isGoal, misplacedTile. apply (isGoal_from_misplaced current _ 0).
Qed.

(** ** The heuristic evaluator *)

Section Heuristics.
Context {F : FloatOps} {FL : FloatLaws F}.
Variables (len dim : Z).

Lemma misplacedTile_nonneg current : 0 <= misplacedTile len current.
Proof.
  unfold misplacedTile. apply (foldl_preserves (λ c, 0 <= c)); [lia|].
  intros c i _ Hc. destruct (_ =? 0); [done|]. destruct (negb _); lia.
Qed.

Lemma manhattanDist_nonneg current : 0 <= manhattanDist len dim current.
Proof.
  unfold manhattanDist. apply (foldl_preserves (λ c, 0 <= c)); [lia|].
  intros c i _ Hc. destruct (_ =? 0); [done|]. lia.
Qed.

Lemma rowConflicts_ge current i cost : cost <= rowConflicts dim current i cost.
Proof.
  unfold rowConflicts. apply (foldl_preserves (λ c, cost <= c)); [lia|].
  intros c j _ Hc. repeat (case_match; try lia).
Qed.

Lemma colConflicts_from_ge fuel current i j cost :
  cost <= colConflicts_from len dim fuel current i j cost.
Proof.
  revert j cost. induction fuel as [|fuel IH]; intros j cost; simpl; [lia|].
  destruct (j <? len); [|lia].
  etrans; [|apply IH]. repeat (case_match; try lia).
Qed.

Lemma colConflicts_ge current i cost : cost <= colConflicts len dim current i cost.
Proof. apply colConflicts_from_ge. Qed.

Lemma manhattanDistLinearConflict_nonneg current :
  0 <= manhattanDistLinearConflict len dim current.
Proof.
  unfold manhattanDistLinearConflict.
  apply (foldl_preserves (λ c, 0 <= c)); [lia|].
  intros c i _ Hc. destruct (_ =? 0); [done|].
  pose proof (rowConflicts_ge current i c).
  destruct (Z.quot _ dim =? Z.quot i dim);
    destruct (Z.rem _ dim =? Z.rem i dim);
    try pose proof (colConflicts_ge current i (rowConflicts dim current i c));
    try pose proof (colConflicts_ge current i c); lia.
Qed.

Lemma euclideanDist_nonneg current : (0 <= euclideanDist len dim current)%Q.
Proof.
  unfold euclideanDist. apply (foldl_preserves (λ c, (0 <= c)%Q)); [apply Qle_refl|].
  intros c i _ Hc. destruct (_ =? 0); [done|].
  apply fround_nonneg.
  replace 0%Q with (0 + 0)%Q by done.
  apply Qplus_le_compat; [done | apply dsqrt_nonneg].
Qed.

Lemma inject_Z_nonneg z : 0 <= z → (0 <= inject_Z z)%Q.
Proof. intros Hz. unfold Qle. simpl. lia. Qed.

(** C9. The heuristic evaluator is total over the selectors: 2, 3, 4 and 5
    select the misplaced-tile, Euclidean, Manhattan and
    Manhattan-plus-linear-conflict costs, every other selector yields the
    cost 0 of uniform-cost search, and the cost is never negative. *)
Theorem getHeuristicCost_total (current : PuzzleState) :
  getHeuristicCost len dim current 2 = inject_Z (misplacedTile len current) ∧
  getHeuristicCost len dim current 3 = euclideanDist len dim current ∧
  getHeuristicCost len dim current 4 = inject_Z (manhattanDist len dim current) ∧
  getHeuristicCost len dim current 5
    = inject_Z (manhattanDistLinearConflict len dim current) ∧
  (∀ heuristic, heuristic ≠ 2 → heuristic ≠ 3 → heuristic ≠ 4 → heuristic ≠ 5 →
                getHeuristicCost len dim current heuristic = 0%Q) ∧
  (∀ heuristic, (0 <= getHeuristicCost len dim current heuristic)%Q).
Proof.
  repeat split; try reflexivity.
  - intros heuristic H2 H3 H4 H5. unfold getHeuristicCost.
    repeat (case_match; [lia|]). done.
  - intros heuristic. unfold getHeuristicCost.
    repeat case_match; try done.
    + apply inject_Z_nonneg, misplacedTile_nonneg.
    + apply euclideanDist_nonneg.
    + apply inject_Z_nonneg, manhattanDist_nonneg.
    + apply inject_Z_nonneg, manhattanDistLinearConflict_nonneg.
Qed.
End Heuristics.

(** ** The search on unsolvable and on solved puzzles *)

Lemma findBlank_from_first (grid : list Z) (pre post : list Z) (k dflt : Z) :
  (∀ i, i ∈ pre → vget grid i ≠ 0) → vget grid k = 0 →
  findBlank_from (pre ++ k :: post) grid dflt = k.
Proof.
  intros Hpre Hk. induction pre as [|i pre IH]; simpl.
  - by rewrite Hk.
  - destruct (Z.eqb_spec (vget grid i) 0) as [H0|_].
    + exfalso. by apply (Hpre i); [left|].
    + apply IH. intros j Hj. apply Hpre. by right.
Qed.

Lemma goalGrid_length (d : Z) : 1 <= d → Z.of_nat (length (goalGrid d)) = d * d.
Proof.
  intros Hd. unfold goalGrid. rewrite length_app, length_seqZ. simpl. nia.
Qed.

Lemma goalGrid_vget_tile (d i : Z) :
  0 <= i < d * d - 1 → vget (goalGrid d) i = i + 1.
Proof.
  intros Hi. apply vget_lookup. unfold goalGrid.
  rewrite lookup_app_l by (rewrite length_seqZ; lia).
  rewrite lookup_seqZ. split; lia.
Qed.

Lemma goalGrid_vget_blank (d : Z) : 1 <= d → vget (goalGrid d) (d * d - 1) = 0.
Proof.
  intros Hd. apply vget_lookup. unfold goalGrid.
  rewrite lookup_app_r by (rewrite length_seqZ; lia).
  rewrite length_seqZ. by replace (_ - _)%nat with 0%nat by lia.
Qed.

Lemma goalGrid_blankIdx (d : Z) :
  1 <= d → blankIdx (start (NPuzzle_init (goalGrid d))) = d * d - 1.
Proof.
  intros Hd. simpl. rewrite goalGrid_length by done.
  replace (d * d) with ((d * d - 1) + 1) at 1 by lia.
  rewrite seqZ_app by nia. simpl. rewrite Z.add_0_l.
  change (seqZ (d * d - 1) 1) with ([d * d - 1] ++ []).
  replace (seqZ (d * d - 1) 1) with [d * d - 1].
  2:{ by rewrite (seqZ_cons _ 1), seqZ_nil by lia. }
  apply findBlank_from_first; [|by apply goalGrid_vget_blank].
  intros i Hi%elem_of_seqZ. rewrite goalGrid_vget_tile by lia. lia.
Qed.

Lemma goalGrid_inversionCount (d : Z) :
  1 <= d → inversionCount (d * d) (PuzzleState_of (goalGrid d)) = 0.
Proof.
  intros Hd. unfold inversionCount.
  apply (foldl_preserves (λ c, c = 0)); [done|].
  intros c i Hi%elem_of_seqZ ->. simpl.
  destruct (_ =? 0); [done|].
  apply (foldl_preserves (λ c, c = 0)); [done|].
  intros c j Hj%elem_of_seqZ ->.
  destruct (Z.eqb_spec (vget (goalGrid d) j) 0) as [|Hj0]; [done|].
  destruct (decide (j = d * d - 1)) as [->|Hne].
  { by rewrite goalGrid_vget_blank in Hj0. }
  rewrite !goalGrid_vget_tile by lia.
  destruct (Z.ltb_spec (j + 1) (i + 1)); [lia|done].
Qed.

Lemma inversionCount_state (len : Z) (a b : PuzzleState) :
  state a = state b → inversionCount len a = inversionCount len b.
Proof. unfold inversionCount. by intros ->. Qed.

Lemma goalGrid_isSolvable (d : Z) :
  1 <= d → solvable (NPuzzle_init (goalGrid d)) = true.
Proof.
  intros Hd. pose proof (goalGrid_blankIdx d Hd) as Hblank.
  simpl in *. rewrite goalGrid_length in * by done.
  rewrite Z.sqrt_square by lia.
  unfold isSolvable. simpl. rewrite Hblank.
  erewrite inversionCount_state; [rewrite (goalGrid_inversionCount d Hd)|done].
  replace (Z.quot (d * d - 1) d) with (d - 1).
  2:{ apply Z.quot_unique with (r := d - 1); lia. }
  replace (d - (d - 1)) with 1 by lia. simpl.
  by destruct (Z.rem d 2 =? 1).
Qed.

Lemma goalGrid_isGoal (d : Z) (current : PuzzleState) :
  1 <= d → state current = goalGrid d → isGoal (d * d) current = true.
Proof.
  intros Hd Hst. unfold isGoal.
  assert (Hall : ∀ i, i ∈ seqZ 0 (d * d) →
                      vget (state current) i = 0 ∨ vget (state current) i = i + 1).
  { intros i Hi%elem_of_seqZ. rewrite Hst.
    destruct (decide (i = d * d - 1)) as [->|Hne].
    - left. by apply goalGrid_vget_blank.
    - right. apply goalGrid_vget_tile. lia. }
  induction (seqZ 0 (d * d)) as [|i idx IH]; simpl; [done|].
  destruct (Hall i) as [->| ->]; [by left| |].
  - simpl. apply IH. intros j Hj. apply Hall. by right.
  - rewrite Z.eqb_refl. simpl. destruct (i + 1 =? 0); apply IH;
      intros j Hj; apply Hall; by right.
Qed.

Section SearchBasics.
Context {F : FloatOps} {Q : Type} {FQ : FrontierQueue Q} {FQL : FrontierQueueLaws Q}.

Lemma fq_pop_singleton (x : PuzzleState) :
  ∃ q', fq_pop (fq_push x fq_empty) = Some (x, q') ∧ fq_items q' = [].
Proof.
  pose proof (fq_items_push x fq_empty) as Hpush.
  rewrite fq_items_empty in Hpush.
  destruct (fq_pop (fq_push x fq_empty)) as [[y q']|] eqn:Hpop.
  - apply fq_pop_Some in Hpop. rewrite Hpush in Hpop.
    apply Permutation_singleton_l in Hpop. injection Hpop as <- Hnil.
    by exists q'.
  - apply fq_pop_None in Hpop. rewrite Hpop in Hpush.
    by apply Permutation_nil_cons in Hpush.
Qed.

(** C3. When the solvability check reports an unsolvable puzzle, [solve]
    returns the empty path at once and expands no node: the nodes-expanded
    statistic is 0.  In particular the grid 1 2 3 4 5 6 8 7 0 is reported
    unsolvable, and [solve] returns the empty path with 0 nodes expanded. *)
Theorem solve_unsolvable_empty :
  (∀ (grid : list Z) (heuristic : Z) (fuel : nat),
     isSolvable (len (NPuzzle_init grid)) (dim (NPuzzle_init grid))
                (start (NPuzzle_init grid)) = false →
     ∃ p', solve fuel (NPuzzle_init grid) heuristic = Some (p', [])
           ∧ expanded p' = 0 ∧ result p' = []) ∧
  (isSolvable 9 3 (start (NPuzzle_init DefaultPuzzle.impossible)) = false ∧
   ∀ (heuristic : Z) (fuel : nat),
     ∃ p', solve fuel (NPuzzle_init DefaultPuzzle.impossible) heuristic = Some (p', [])
           ∧ expanded p' = 0).
Proof.
  assert (Hgen : ∀ (grid : list Z) (heuristic : Z) (fuel : nat),
     isSolvable (len (NPuzzle_init grid)) (dim (NPuzzle_init grid))
                (start (NPuzzle_init grid)) = false →
     ∃ p', solve fuel (NPuzzle_init grid) heuristic = Some (p', [])
           ∧ expanded p' = 0 ∧ result p' = []).
  { intros grid heuristic fuel Hno.
    exists (set_result [] (NPuzzle_init grid)). unfold solve.
    change (solvable (NPuzzle_init grid)) with
      (isSolvable (len (NPuzzle_init grid)) (dim (NPuzzle_init grid))
                  (start (NPuzzle_init grid))).
    by rewrite Hno. }
  split; [exact Hgen|]. split; [by vm_compute|].
  intros heuristic fuel.
  destruct (Hgen DefaultPuzzle.impossible heuristic fuel) as (p' & ? & ? & ?);
    [by vm_compute|]. by exists p'.
Qed.

(** C6. When the start state already is the goal arrangement, [solve]
    returns the path that consists of the start state alone and no node is
    expanded: the goal test on the popped state comes before the expansion.
    The 4x4 grid 1 .. 15 0 is such a start state. *)
Theorem solve_start_is_goal (d : Z) (heuristic : Z) (fuel : nat) :
  1 <= d →
  (∃ p' st, solve (S (S fuel)) (NPuzzle_init (goalGrid d)) heuristic = Some (p', [st])
            ∧ state st = goalGrid d
            ∧ state st = state (start (NPuzzle_init (goalGrid d)))
            ∧ expanded p' = 0)
  ∧ goalGrid 4 = DefaultPuzzle.Fifteen.trivial.
Proof.
  intros Hd. split; [|done].
  pose proof (goalGrid_isSolvable d Hd) as Hsolv.
  unfold solve. rewrite Hsolv. simpl negb. cbv iota.
  set (p := NPuzzle_init (goalGrid d)).
  set (h0 := getHeuristicCost (len p) (dim p) (start p) heuristic).
  set (start' := mkPuzzleState _ _ 0 h0 _ _ _).
  destruct (fq_pop_singleton start') as (q' & Hpop & Hq').
  cbn [solve_loop]. rewrite Hpop. unfold solve_step.
  assert (Hlen : len p = d * d) by (by apply goalGrid_length).
  cbn [len set_frontierStates set_start].
  replace (len p) with (d * d).
  rewrite (goalGrid_isGoal d start' Hd) by done.
  unfold retracePath. simpl.
  eexists _, start'. split; [done|]. done.
Qed.
End SearchBasics.

(** ** The transition generator *)

Lemma vget_vset_eq (v : list Z) (i x : Z) :
  0 <= i < Z.of_nat (length v) → vget (vset v i x) i = x.
Proof.
  intros Hi. apply vget_lookup. unfold vset.
  apply list_lookup_insert_eq. lia.
Qed.

Lemma vget_vset_ne (v : list Z) (i j x : Z) :
  0 <= i → 0 <= j → i ≠ j → vget (vset v i x) j = vget v j.
Proof.
  intros Hi Hj Hne. unfold vget, vset.
  rewrite list_lookup_insert_ne; [done | lia].
Qed.

Lemma vset_length (v : list Z) (i x : Z) : length (vset v i x) = length v.
Proof. apply length_insert. Qed.

Lemma vset_swap_back (v : list Z) (a b : Z) :
  0 <= a < Z.of_nat (length v) → 0 <= b < Z.of_nat (length v) → a ≠ b →
  vget v a = 0 →
  vset (vset (vset (vset v a (vget v b)) b 0) b (vget v b)) a 0 = v.
Proof.
  intros Ha Hb Hne H0. unfold vset. apply list_eq. intros k.
  destruct (decide (k = Z.to_nat a)) as [->|Hka].
  { rewrite list_lookup_insert_eq by (rewrite !length_insert; lia).
    unfold vget in H0. destruct (lookup_lt_is_Some_2 v (Z.to_nat a)) as [x Hx]; [lia|].
    rewrite Hx in *. simpl in H0. by subst. }
  rewrite list_lookup_insert_ne by done.
  destruct (decide (k = Z.to_nat b)) as [->|Hkb].
  { rewrite list_lookup_insert_eq by (rewrite !length_insert; lia).
    unfold vget. destruct (lookup_lt_is_Some_2 v (Z.to_nat b)) as [x Hx]; [lia|].
    by rewrite Hx. }
  by rewrite !list_lookup_insert_ne by done.
Qed.

Lemma moveBlank_back (d : Z) (s : PuzzleState) (delta delta' m m' : Z) :
  validState d s → delta ≠ 0 → delta' = - delta → 0 <= blankIdx s + delta < d * d →
  state (moveBlank (moveBlank s delta m) delta' m') = state s ∧
  blankIdx (moveBlank (moveBlank s delta m) delta' m') = blankIdx s ∧
  move (moveBlank (moveBlank s delta m) delta' m') = m'.
Proof.
  intros (Hd & Hlen & Hb & H0) Hdelta -> Hb'. unfold moveBlank. simpl.
  split; [|split; [lia|done]].
  replace (blankIdx s + delta + - delta) with (blankIdx s) by lia.
  rewrite vget_vset_ne by lia.
  rewrite vget_vset_eq by lia.
  apply vset_swap_back; (done || lia).
Qed.

Lemma generateChildren_elem (d : Z) (s c : PuzzleState) :
  c ∈ generateChildren d s ↔
  (0 < Z.quot (blankIdx s) d ∧ c = moveBlank s (- d) 1) ∨
  (Z.quot (blankIdx s) d < d - 1 ∧ c = moveBlank s d 2) ∨
  (0 < Z.rem (blankIdx s) d ∧ c = moveBlank s (-1) 3) ∨
  (Z.rem (blankIdx s) d < d - 1 ∧ c = moveBlank s 1 4).
Proof.
  unfold generateChildren. rewrite !elem_of_app.
  repeat match goal with
         | |- context [?a <? ?b] => destruct (Z.ltb_spec a b)
         end;
    rewrite ?list_elem_of_singleton, ?elem_of_nil; intuition lia.
Qed.

(** C8. Move reversibility: from a valid state, each child produced by the
    transition generator has a child of its own, produced by the inverse
    move, whose tile sequence and blank index are those of the original
    state. *)
Theorem generateChildren_reversible (d : Z) (s c : PuzzleState) :
  validState d s → c ∈ generateChildren d s →
  ∃ c', c' ∈ generateChildren d c ∧ move c' = inverseMove (move c) ∧
        state c' = state s ∧ blankIdx c' = blankIdx s.
Proof.
  intros Hvalid Hc. pose proof Hvalid as (Hd & Hlen & Hb & H0).
  apply generateChildren_elem in Hc.
  rewrite Z.quot_div_nonneg, Z.rem_mod_nonneg in Hc by lia.
  pose proof (Z.div_mod (blankIdx s) d ltac:(lia)) as Hdm.
  pose proof (Z.mod_pos_bound (blankIdx s) d ltac:(lia)) as Hmod.
  assert (Hrow : blankIdx s / d < d).
  { apply Z.div_lt_upper_bound; lia. }
  assert (Hrow0 : 0 <= blankIdx s / d).
  { apply Z.div_pos; lia. }
  destruct Hc as [[Hf ->]|[[Hf ->]|[[Hf ->]|[Hf ->]]]].
  - assert (d <= blankIdx s) by nia.
    destruct (moveBlank_back d s (- d) d 1 2 Hvalid) as (Hst & Hbi & Hmv); [lia|lia|lia|].
    eexists. split; [|split; [exact Hmv|split; [exact Hst|exact Hbi]]].
    apply generateChildren_elem. right. left. split; [|done].
    simpl. rewrite Z.quot_div_nonneg by nia.
    replace (blankIdx s + - d) with (blankIdx s + (-1) * d) by lia.
    rewrite Z.div_add by lia. lia.
  - assert (blankIdx s + d < d * d) by nia.
    destruct (moveBlank_back d s d (- d) 2 1 Hvalid) as (Hst & Hbi & Hmv); [lia|lia|lia|].
    eexists. split; [|split; [exact Hmv|split; [exact Hst|exact Hbi]]].
    apply generateChildren_elem. left. split; [|done].
    simpl. rewrite Z.quot_div_nonneg by nia.
    replace (blankIdx s + d) with (blankIdx s + 1 * d) by lia.
    rewrite Z.div_add by lia. lia.
  - assert (1 <= blankIdx s) by nia.
    destruct (moveBlank_back d s (-1) 1 3 4 Hvalid) as (Hst & Hbi & Hmv); [lia|lia|lia|].
    eexists. split; [|split; [exact Hmv|split; [exact Hst|exact Hbi]]].
    apply generateChildren_elem. right. right. right. split; [|done].
    simpl. rewrite Z.rem_mod_nonneg by nia.
    assert (Hm : (blankIdx s + -1) mod d = blankIdx s mod d - 1).
    { symmetry. apply Z.mod_unique_pos with (q := blankIdx s / d); lia. }
    lia.
  - assert (blankIdx s + 1 < d * d) by nia.
    destruct (moveBlank_back d s 1 (-1) 4 3 Hvalid) as (Hst & Hbi & Hmv); [lia|lia|lia|].
    eexists. split; [|split; [exact Hmv|split; [exact Hst|exact Hbi]]].
    apply generateChildren_elem. right. right. left. split; [|done].
    simpl. rewrite Z.rem_mod_nonneg by nia.
    assert (Hm : (blankIdx s + 1) mod d = blankIdx s mod d + 1).
    { symmetry. apply Z.mod_unique_pos with (q := blankIdx s / d); lia. }
    lia.
Qed.

(** ** The solvability check *)

Lemma countZ_nil {A} (p : A → bool) : countZ p [] = 0.
Proof. done. Qed.

Lemma countZ_cons {A} (p : A → bool) (x : A) (l : list A) :
  countZ p (x :: l) = (if p x then 1 else 0) + countZ p l.
Proof. unfold countZ. simpl. destruct (p x); simpl; lia. Qed.

Lemma countZ_app {A} (p : A → bool) (l1 l2 : list A) :
  countZ p (l1 ++ l2) = countZ p l1 + countZ p l2.
Proof. unfold countZ. rewrite List.filter_app, length_app. lia. Qed.

Lemma countZ_nonneg {A} (p : A → bool) (l : list A) : 0 <= countZ p l.
Proof. unfold countZ. lia. Qed.

Lemma countZ_map {A B} (p : B → bool) (fn : A → B) (l : list A) :
  countZ p (map fn l) = countZ (λ x, p (fn x)) l.
Proof.
  induction l as [|x l IH]; [done|].
  simpl. rewrite !countZ_cons, IH. done.
Qed.

Lemma countZ_ext_in {A} (p1 p2 : A → bool) (l : list A) :
  (∀ x, x ∈ l → p1 x = p2 x) → countZ p1 l = countZ p2 l.
Proof.
  induction l as [|x l IH]; intros Hp; [done|].
  rewrite !countZ_cons, Hp by left. rewrite IH; [done|].
  intros y Hy. apply Hp. by right.
Qed.

Lemma countZ_none {A} (p : A → bool) (l : list A) :
  (∀ x, x ∈ l → p x = false) → countZ p l = 0.
Proof.
  induction l as [|x l IH]; intros Hp; [done|].
  rewrite countZ_cons, Hp by left. rewrite IH; [done|].
  intros y Hy. apply Hp. by right.
Qed.

Lemma countZ_zero {A} (p : A → bool) (l : list A) (x : A) :
  countZ p l = 0 → x ∈ l → p x = false.
Proof.
  induction l as [|y l IH]; intros Hc Hx; [by apply elem_of_nil in Hx|].
  rewrite countZ_cons in Hc. pose proof (countZ_nonneg p l).
  apply elem_of_cons in Hx as [->|Hx].
  - destruct (p y); [lia|done].
  - apply IH; [|done]. destruct (p y); lia.
Qed.

(** A counting loop adds [k] for each element that passes the test. *)
Lemma foldl_count {A} (p : A → bool) (k : Z) (l : list A) (c : Z) :
  foldl (λ c x, if p x then c + k else c) c l = c + k * countZ p l.
Proof.
  revert c. induction l as [|x l IH]; intros c; simpl.
  - rewrite countZ_nil. lia.
  - rewrite IH, countZ_cons. destruct (p x); lia.
Qed.

(** A summing loop. *)
Lemma foldl_sum {A} (w : A → Z) (l : list A) (c : Z) :
  foldl (λ c x, c + w x) c l = c + foldr (λ x acc, w x + acc) 0 l.
Proof.
  revert c. induction l as [|x l IH]; intros c; simpl; [lia|].
  rewrite IH. lia.
Qed.

Lemma countZ_seqZ_after (p : Z → bool) (i n : Z) :
  0 <= i < n →
  countZ (λ j, (i <? j) && p j) (seqZ 0 n) = countZ p (seqZ (i + 1) (n - (i + 1))).
Proof.
  intros Hi. replace n with ((i + 1) + (n - (i + 1))) at 1 by lia.
  rewrite seqZ_app by lia. rewrite countZ_app.
  rewrite countZ_none.
  2:{ intros j Hj%elem_of_seqZ. destruct (Z.ltb_spec i j); [lia|done]. }
  simpl. apply countZ_ext_in.
  intros j Hj%elem_of_seqZ. destruct (Z.ltb_spec i j); [done|lia].
Qed.

Lemma inversionCount_inversions (grid : list Z) (s : PuzzleState) :
  state s = grid →
  inversionCount (Z.of_nat (length grid)) s = inversions grid.
Proof.
  intros Hst. unfold inversionCount, inversions. rewrite Hst.
  set (n := Z.of_nat (length grid)).
  set (w := λ i, if vget grid i =? 0 then 0
                 else countZ (λ j, negb (vget grid j =? 0) && (vget grid j <? vget grid i))
                             (seqZ (i + 1) (n - (i + 1)))).
  rewrite (foldl_ext_in _ (λ c i, c + w i)).
  2:{ intros c i _. unfold w. destruct (vget grid i =? 0); [lia|].
      rewrite <- (Z.mul_1_l (countZ _ _)). rewrite <- foldl_count.
      apply foldl_ext_in. intros c' j _.
      destruct (vget grid j =? 0); simpl; [done|].
      by destruct (vget grid j <? vget grid i). }
  rewrite foldl_sum. simpl.
  assert (Hgen : ∀ idx, (∀ i, i ∈ idx → 0 <= i < n) →
            foldr (λ i acc, w i + acc) 0 idx
            = countZ (isInversion grid) (list_prod idx (seqZ 0 n))).
  { induction idx as [|i idx IH]; intros Hidx; [done|].
    simpl. rewrite countZ_app, countZ_map, IH.
    2:{ intros j Hj. apply Hidx. by right. }
    f_equal. unfold w, isInversion. simpl.
    destruct (vget grid i =? 0) eqn:Hi0; simpl.
    - symmetry. apply countZ_none. intros j _. by rewrite andb_false_r.
    - rewrite <- countZ_seqZ_after by (apply Hidx; left).
      apply countZ_ext_in. intros j _. by rewrite andb_true_r, andb_assoc. }
  apply Hgen. intros i Hi%elem_of_seqZ. lia.
Qed.

Lemma findBlank_from_range (idx grid : list Z) (dflt : Z) :
  findBlank_from idx grid dflt ∈ idx ∨ findBlank_from idx grid dflt = dflt.
Proof.
  induction idx as [|i idx IH]; simpl; [by right|].
  destruct (vget grid i =? 0); [left; left|].
  destruct IH as [IH|IH]; [left; by right|by right].
Qed.

Lemma NPuzzle_init_blankIdx_range (grid : list Z) :
  grid ≠ [] →
  0 <= blankIdx (start (NPuzzle_init grid)) < Z.of_nat (length grid).
Proof.
  intros Hne. simpl.
  destruct (findBlank_from_range (seqZ 0 (Z.of_nat (length grid))) grid 0)
    as [Hin%elem_of_seqZ| ->]; [lia|].
  destruct grid; [done|]. simpl. lia.
Qed.

Lemma rem2_odd (x : Z) : 0 <= x → (Z.rem x 2 =? 1) = true ↔ Z.Odd x.
Proof.
  intros Hx. rewrite Z.rem_mod_nonneg by lia.
  rewrite Z.eqb_eq, <- Z.odd_spec, Zodd_mod. by rewrite Z.eqb_eq.
Qed.

Lemma rem2_even (x : Z) : 0 <= x → (Z.rem x 2 =? 0) = true ↔ Z.Even x.
Proof.
  intros Hx. rewrite Z.rem_mod_nonneg by lia.
  rewrite Z.eqb_eq, <- Z.even_spec, Zeven_mod. by rewrite Z.eqb_eq.
Qed.

(** C2. The solvability check of a puzzle instance (a non-empty grid whose
    length is the square of its side) returns true exactly when the parity
    policy holds: for an odd side, the number of inversions is even; for an
    even side, the inversions are odd and the row of the blank counted from
    the bottom, [dim - blankIndex / dim], is even, or the inversions are even
    and that row is odd. *)
Theorem isSolvable_parity_policy (grid : list Z) :
  let p := NPuzzle_init grid in
  1 <= dim p → len p = dim p * dim p →
  (solvable p = true ↔ solvablePolicy (dim p) grid (blankIdx (start p))).
Proof.
  intros p Hdim Hlen.
  assert (Hne : grid ≠ []).
  { intros ->. simpl in Hlen. subst p. simpl in *. lia. }
  pose proof (NPuzzle_init_blankIdx_range grid Hne) as Hb. fold p in Hb.
  change (solvable p) with (isSolvable (len p) (dim p) (start p)).
  unfold isSolvable, solvablePolicy.
  change (len p) with (Z.of_nat (length grid)) in *.
  rewrite (inversionCount_inversions grid) by done.
  set (d := dim p) in *. set (b := blankIdx (start p)) in *.
  pose proof (countZ_nonneg (isInversion grid)
                (list_prod (seqZ 0 (Z.of_nat (length grid)))
                           (seqZ 0 (Z.of_nat (length grid))))) as Hinv.
  fold (inversions grid) in Hinv.
  assert (Hrow : 1 <= d - b / d).
  { assert (b / d < d) by (apply Z.div_lt_upper_bound; lia). lia. }
  rewrite Z.quot_div_nonneg by lia.
  pose proof (rem2_odd d ltac:(lia)) as Hd1.
  pose proof (rem2_even (inversions grid) Hinv) as Hi0.
  pose proof (rem2_odd (inversions grid) Hinv) as Hi1.
  pose proof (rem2_even (d - b / d) ltac:(lia)) as Hr0.
  pose proof (rem2_odd (d - b / d) ltac:(lia)) as Hr1.
  pose proof (Z.Even_or_Odd d) as Hd.
  pose proof (Z.Even_Odd_False d) as Hdx.
  pose proof (Z.Even_Odd_False (inversions grid)) as Hix.
  pose proof (Z.Even_Odd_False (d - b / d)) as Hrx.
  destruct (Z.rem d 2 =? 1);
    destruct (Z.rem (inversions grid) 2 =? 0);
    destruct (Z.rem (inversions grid) 2 =? 1);
    destruct (Z.rem (d - b / d) 2 =? 0);
    destruct (Z.rem (d - b / d) 2 =? 1); simpl; intuition (try done).
Qed.


(** ** Manhattan distance and linear conflicts *)

Lemma foldr_sum_add {A} (w1 w2 : A → Z) (l : list A) :
  foldr (λ x acc, (w1 x + w2 x) + acc) 0 l
  = foldr (λ x acc, w1 x + acc) 0 l + foldr (λ x acc, w2 x + acc) 0 l.
Proof. induction l as [|x l IH]; simpl; lia. Qed.

Lemma foldr_sum_nonneg {A} (w : A → Z) (l : list A) :
  (∀ x, x ∈ l → 0 <= w x) → 0 <= foldr (λ x acc, w x + acc) 0 l.
Proof.
  induction l as [|x l IH]; intros Hw; simpl; [lia|].
  pose proof (Hw x ltac:(left)). pose proof (IH (λ y Hy, Hw y ltac:(by right))). lia.
Qed.

Lemma foldr_sum_zero {A} (w : A → Z) (l : list A) :
  (∀ x, x ∈ l → 0 <= w x) →
  foldr (λ x acc, w x + acc) 0 l = 0 ↔ ∀ x, x ∈ l → w x = 0.
Proof.
  induction l as [|x l IH]; intros Hw; simpl.
  - split; [|done]. intros _ x Hx. by apply elem_of_nil in Hx.
  - pose proof (Hw x ltac:(left)) as Hx0.
    assert (Hl : ∀ y, y ∈ l → 0 <= w y) by (intros y Hy; apply Hw; by right).
    pose proof (foldr_sum_nonneg w l Hl). specialize (IH Hl). split.
    + intros Hsum y [->|Hy]%elem_of_cons; [lia|]. apply IH; [lia|done].
    + intros Hall. rewrite (Hall x) by left.
      rewrite (proj2 IH); [done|]. intros y Hy. apply Hall. by right.
Qed.

Section LinearConflict.
Variables (d : Z) (s : PuzzleState).
Hypothesis Hd : 1 <= d.
Hypothesis Htiles : Forall (λ v, 0 <= v) (state s).

Let v := vget (state s).

Lemma tile_nonneg i : 0 <= v i.
Proof.
  unfold v, vget. destruct (state s !! Z.to_nat i) as [x|] eqn:Hx; simpl; [|done].
  rewrite Forall_forall in Htiles. apply Htiles. by eapply list_elem_of_lookup_2.
Qed.

(** The tests of the two scans of [manhattanDistLinearConflict]. *)
Let prow (i j : Z) : bool :=
  negb (v j =? 0) && (Z.quot (v j - 1) d =? Z.quot i d) && (v j <? v i).
Let pcol (i j : Z) : bool :=
  negb (v j =? 0) && (Z.rem (v j - 1) d =? Z.rem i d) && (v j <? v i).

Lemma rowConflicts_count i cost :
  rowConflicts d s i cost
  = cost + 2 * countZ (prow i) (seqZ (i + 1) (Z.quot i d * d + d - (i + 1))).
Proof.
  unfold rowConflicts. rewrite <- foldl_count. apply foldl_ext_in.
  intros c j _. unfold prow, v.
  destruct (vget (state s) j =? 0); simpl; [done|].
  destruct (_ =? Z.quot i d); simpl; [|done].
  by destruct (_ <? _).
Qed.

Lemma colConflicts_from_count len fuel i j cost :
  colConflicts_from len d fuel s i j cost
  = cost + 2 * countZ (pcol i) (strideList len d fuel j).
Proof.
  revert j cost. induction fuel as [|fuel IH]; intros j cost; simpl.
  - rewrite countZ_nil. lia.
  - destruct (j <? len); [|rewrite countZ_nil; lia].
    rewrite IH, countZ_cons. unfold pcol, v.
    destruct (vget (state s) j =? 0); simpl; [lia|].
    destruct (_ =? Z.rem i d); simpl; [|lia].
    destruct (_ <? _); lia.
Qed.

Lemma strideList_elem len fuel j x :
  x ∈ strideList len d fuel j ↔
  ∃ k : nat, (k < fuel)%nat ∧ x = j + Z.of_nat k * d ∧ x < len.
Proof.
  revert j. induction fuel as [|fuel IH]; intros j; simpl.
  - split; [intros H%elem_of_nil; done | intros (k & ? & _); lia].
  - destruct (Z.ltb_spec j len) as [Hj|Hj].
    + rewrite elem_of_cons, IH. split.
      * intros [->|(k & Hk & -> & Hlt)].
        -- exists 0%nat. split; [lia|]. split; [lia|done].
        -- exists (S k). split; [lia|]. split; [lia|done].
      * intros (k & Hk & -> & Hlt). destruct k as [|k]; [left; lia|].
        right. exists k. split; [lia|]. split; [lia|done].
    + split; [intros H%elem_of_nil; done|].
      intros (k & Hk & -> & Hlt). nia.
Qed.

(** The extra cost that the scans add for the tile at [i]. *)
Let extra (i : Z) : Z :=
  if v i =? 0 then 0
  else (if Z.quot (v i - 1) d =? Z.quot i d
        then 2 * countZ (prow i) (seqZ (i + 1) (Z.quot i d * d + d - (i + 1)))
        else 0)
       + (if Z.rem (v i - 1) d =? Z.rem i d
          then 2 * countZ (pcol i) (strideList (d * d) d (Z.to_nat (d * d)) (i + d))
          else 0).

Let manh (i : Z) : Z :=
  if v i =? 0 then 0
  else Z.abs (Z.quot (v i - 1) d - Z.quot i d) + Z.abs (Z.rem (v i - 1) d - Z.rem i d).

Lemma extra_nonneg i : 0 <= extra i.
Proof.
  unfold extra. destruct (v i =? 0); [done|].
  pose proof (countZ_nonneg (prow i) (seqZ (i + 1) (Z.quot i d * d + d - (i + 1)))).
  pose proof (countZ_nonneg (pcol i) (strideList (d * d) d (Z.to_nat (d * d)) (i + d))).
  destruct (_ =? Z.quot i d); destruct (_ =? Z.rem i d); lia.
Qed.

Lemma manhattanDist_sum :
  manhattanDist (d * d) d s = foldr (λ i acc, manh i + acc) 0 (seqZ 0 (d * d)).
Proof.
  unfold manhattanDist. rewrite (foldl_ext_in _ (λ c i, c + manh i)).
  - by rewrite foldl_sum.
  - intros c i _. unfold manh, v. destruct (_ =? 0); lia.
Qed.

Lemma manhattanDistLinearConflict_sum :
  manhattanDistLinearConflict (d * d) d s
  = manhattanDist (d * d) d s + foldr (λ i acc, extra i + acc) 0 (seqZ 0 (d * d)).
Proof.
  rewrite manhattanDist_sum, <- foldr_sum_add.
  unfold manhattanDistLinearConflict.
  rewrite (foldl_ext_in _ (λ c i, c + (manh i + extra i))).
  - by rewrite foldl_sum.
  - intros c i _. unfold manh, extra. fold (v i).
    destruct (v i =? 0); [lia|].
    unfold colConflicts. rewrite colConflicts_from_count.
    destruct (Z.quot (v i - 1) d =? Z.quot i d);
      [rewrite rowConflicts_count|];
      destruct (Z.rem (v i - 1) d =? Z.rem i d); fold (pcol i); lia.
Qed.

Lemma extra_zero_iff :
  (∀ i, i ∈ seqZ 0 (d * d) → extra i = 0) ↔ noLinearConflict d (state s).
Proof.
  split.
  - intros Hex i j Hi Hj.
    specialize (Hex i ltac:(apply elem_of_seqZ; lia)).
    unfold extra in Hex. pose proof (tile_nonneg i) as Hvi. pose proof (tile_nonneg j) as Hvj.
    set (c1 := countZ (prow i) _) in Hex. set (c2 := countZ (pcol i) _) in Hex.
    assert (Hc1 : 0 <= c1) by apply countZ_nonneg.
    assert (Hc2 : 0 <= c2) by apply countZ_nonneg.
    unfold rowConflict, colConflict. simpl. fold (v i) (v j).
    destruct (Z.ltb_spec i j) as [Hij|]; [|done]. simpl.
    revert Hex.
    destruct (Z.eqb_spec (v i) 0) as [|Hi0]; simpl; [by rewrite !andb_false_r|].
    destruct (Z.eqb_spec (v j) 0) as [|Hj0]; simpl; [by rewrite !andb_false_r|].
    rewrite !Z.quot_div_nonneg, !Z.rem_mod_nonneg by lia.
    destruct (Z.eqb_spec ((v i - 1) / d) (i / d)) as [Hgi|];
      destruct (Z.eqb_spec ((v i - 1) mod d) (i mod d)) as [Hgci|];
      simpl; rewrite ?andb_false_r; intros Hex; try done.
    + assert (Hcnt1 : c1 = 0) by lia. assert (Hcnt2 : c2 = 0) by lia. split.
      * destruct (Z.eqb_spec (i / d) (j / d)) as [Hrow|]; [|done]. simpl.
        destruct (Z.eqb_spec ((v j - 1) / d) (j / d)) as [Hgj|]; [|done]. simpl.
        assert (Hin : j ∈ seqZ (i + 1) (Z.quot i d * d + d - (i + 1))).
        { apply elem_of_seqZ. rewrite Z.quot_div_nonneg by lia.
          pose proof (Z.div_mod j d ltac:(lia)).
          pose proof (Z.mod_pos_bound j d ltac:(lia)). nia. }
        pose proof (countZ_zero _ _ j Hcnt1 Hin) as Hp. unfold prow in Hp.
        rewrite !Z.quot_div_nonneg in Hp by lia.
        destruct (Z.eqb_spec (v j) 0); [done|]. simpl in Hp.
        rewrite Hgj, <- Hrow, Z.eqb_refl in Hp. done.
      * destruct (Z.eqb_spec (i mod d) (j mod d)) as [Hcol|]; [|done]. simpl.
        destruct (Z.eqb_spec ((v j - 1) mod d) (j mod d)) as [Hgj|]; [|done]. simpl.
        assert (Hin : j ∈ strideList (d * d) d (Z.to_nat (d * d)) (i + d)).
        { apply strideList_elem.
          pose proof (Z.div_mod j d ltac:(lia)). pose proof (Z.div_mod i d ltac:(lia)).
          assert (i / d < j / d) by nia.
          exists (Z.to_nat (j / d - i / d - 1)). split; [nia|]. split; [nia|lia]. }
        pose proof (countZ_zero _ _ j Hcnt2 Hin) as Hp. unfold pcol in Hp.
        rewrite !Z.rem_mod_nonneg in Hp by lia.
        destruct (Z.eqb_spec (v j) 0); [done|]. simpl in Hp.
        rewrite Hgj, <- Hcol, Z.eqb_refl in Hp. done.
    + assert (Hcnt1 : c1 = 0) by lia. split; [|done].
      destruct (Z.eqb_spec (i / d) (j / d)) as [Hrow|]; [|done]. simpl.
      destruct (Z.eqb_spec ((v j - 1) / d) (j / d)) as [Hgj|]; [|done]. simpl.
      assert (Hin : j ∈ seqZ (i + 1) (Z.quot i d * d + d - (i + 1))).
      { apply elem_of_seqZ. rewrite Z.quot_div_nonneg by lia.
        pose proof (Z.div_mod j d ltac:(lia)).
        pose proof (Z.mod_pos_bound j d ltac:(lia)). nia. }
      pose proof (countZ_zero _ _ j Hcnt1 Hin) as Hp. unfold prow in Hp.
      rewrite !Z.quot_div_nonneg in Hp by lia.
      destruct (Z.eqb_spec (v j) 0); [done|]. simpl in Hp.
      rewrite Hgj, <- Hrow, Z.eqb_refl in Hp. done.
    + assert (Hcnt2 : c2 = 0) by lia. split; [done|].
      destruct (Z.eqb_spec (i mod d) (j mod d)) as [Hcol|]; [|done]. simpl.
      destruct (Z.eqb_spec ((v j - 1) mod d) (j mod d)) as [Hgj|]; [|done]. simpl.
      assert (Hin : j ∈ strideList (d * d) d (Z.to_nat (d * d)) (i + d)).
      { apply strideList_elem.
        pose proof (Z.div_mod j d ltac:(lia)). pose proof (Z.div_mod i d ltac:(lia)).
        assert (i / d < j / d) by nia.
        exists (Z.to_nat (j / d - i / d - 1)). split; [nia|]. split; [nia|lia]. }
      pose proof (countZ_zero _ _ j Hcnt2 Hin) as Hp. unfold pcol in Hp.
      rewrite !Z.rem_mod_nonneg in Hp by lia.
      destruct (Z.eqb_spec (v j) 0); [done|]. simpl in Hp.
      rewrite Hgj, <- Hcol, Z.eqb_refl in Hp. done.
  - intros Hno i Hi%elem_of_seqZ. unfold extra.
    pose proof (tile_nonneg i) as Hvi.
    destruct (Z.eqb_spec (v i) 0) as [|Hi0]; [done|].
    rewrite !Z.quot_div_nonneg, !Z.rem_mod_nonneg by lia.
    assert (Hr : countZ (prow i) (seqZ (i + 1) (i / d * d + d - (i + 1))) = 0
                 ∨ (v i - 1) / d ≠ i / d).
    { destruct (decide ((v i - 1) / d = i / d)) as [Hgi|]; [left|by right].
      apply countZ_none. intros j Hj%elem_of_seqZ.
      assert (Hjd : j < d * d).
      { assert (i / d < d) by (apply Z.div_lt_upper_bound; lia). nia. }
      destruct (Hno i j) as [Hrc _]; [lia|lia|].
      unfold rowConflict in Hrc. simpl in Hrc. fold (v i) (v j) in Hrc.
      unfold prow. pose proof (tile_nonneg j) as Hvj.
      destruct (decide (v j = 0)) as [Hj0|Hj0].
      { rewrite Hj0. done. }
      rewrite !Z.quot_div_nonneg by lia.
      assert (Hrow : i / d = j / d).
      { pose proof (Z.div_mod i d ltac:(lia)).
        apply Z.div_unique with (r := j - d * (i / d)).
        - pose proof (Z.mod_pos_bound i d ltac:(lia)). left. split; nia.
        - ring. }
      destruct (Z.ltb_spec i j); [|lia].
      destruct (Z.eqb_spec (i / d) (j / d)); [|done].
      destruct (Z.eqb_spec (v i) 0); [done|].
      destruct (Z.eqb_spec (v j) 0); [done|].
      destruct (Z.eqb_spec ((v i - 1) / d) (i / d)); [|done].
      rewrite <- Hrow in Hrc.
      by destruct (Z.eqb_spec ((v j - 1) / d) (i / d)). }
    assert (Hc : countZ (pcol i) (strideList (d * d) d (Z.to_nat (d * d)) (i + d)) = 0
                 ∨ (v i - 1) mod d ≠ i mod d).
    { destruct (decide ((v i - 1) mod d = i mod d)) as [Hgi|]; [left|by right].
      apply countZ_none. intros j (k & Hk & -> & Hlt)%strideList_elem.
      destruct (Hno i (i + d + Z.of_nat k * d)) as [_ Hcc]; [lia|lia|].
      unfold colConflict in Hcc. simpl in Hcc.
      fold (v i) (v (i + d + Z.of_nat k * d)) in Hcc.
      unfold pcol. pose proof (tile_nonneg (i + d + Z.of_nat k * d)) as Hvj.
      destruct (decide (v (i + d + Z.of_nat k * d) = 0)) as [Hj0|Hj0].
      { rewrite Hj0. done. }
      rewrite !Z.rem_mod_nonneg by lia.
      assert (Hcol : i mod d = (i + d + Z.of_nat k * d) mod d).
      { replace (i + d + Z.of_nat k * d) with (i + (1 + Z.of_nat k) * d) by lia.
        by rewrite Z.mod_add by lia. }
      destruct (Z.ltb_spec i (i + d + Z.of_nat k * d)); [|nia].
      rewrite <- Hcol, Z.eqb_refl in Hcc.
      destruct (Z.eqb_spec (v i) 0); [done|].
      destruct (Z.eqb_spec (v (i + d + Z.of_nat k * d)) 0); [done|].
      destruct (Z.eqb_spec ((v i - 1) mod d) (i mod d)); [|done].
      by destruct (Z.eqb_spec ((v (i + d + Z.of_nat k * d) - 1) mod d) (i mod d)). }
    destruct Hr as [-> | Hr%Z.eqb_neq]; destruct Hc as [-> | Hc%Z.eqb_neq];
      rewrite ?Hr, ?Hc; repeat case_match; lia.
Qed.

(** C7. For every puzzle state, the Manhattan-plus-linear-conflict
    heuristic is at least the Manhattan heuristic, and the two are equal
    exactly when the state has no linear conflict in a row or a column. *)
Theorem manhattanDistLinearConflict_dominates :
  manhattanDist (d * d) d s <= manhattanDistLinearConflict (d * d) d s ∧
  (manhattanDistLinearConflict (d * d) d s = manhattanDist (d * d) d s
   ↔ noLinearConflict d (state s)).
Proof.
  rewrite manhattanDistLinearConflict_sum.
  pose proof (foldr_sum_nonneg extra (seqZ 0 (d * d)) (λ i _, extra_nonneg i)) as Hnn.
  split; [lia|].
  rewrite <- extra_zero_iff.
  rewrite <- (foldr_sum_zero extra) by (intros i _; apply extra_nonneg).
  lia.
Qed.
End LinearConflict.

(** ** More fuel does not change the outcome of the search *)

Section Fuel.
Context {F : FloatOps} {Q : Type} {FQ : FrontierQueue Q}.

Lemma retracePath_loop_mono (fuel fuel' : nat) explored key path r :
  retracePath_loop fuel explored key path = Some r → (fuel <= fuel')%nat →
  retracePath_loop fuel' explored key path = Some r.
Proof.
  revert fuel' key path. induction fuel as [|fuel IH]; intros fuel' key path; [done|].
  intros Hr Hle. destruct fuel' as [|fuel']; [lia|]. simpl in *.
  destruct (String.eqb key ""); [done|]. apply IH; [done|lia].
Qed.

Lemma solve_step_mono (fuel fuel' : nat) heuristic p current (q1 : Q) :
  (fuel <= fuel')%nat →
  match solve_step fuel heuristic p current q1 with
  | Finished (Some r) => solve_step fuel' heuristic p current q1 = Finished (Some r)
  | Finished None => True
  | Continue p' q' => solve_step fuel' heuristic p current q1 = Continue p' q'
  end.
Proof.
  intros Hle. unfold solve_step.
  destruct (isGoal (len p) current).
  - unfold retracePath.
    destruct (retracePath_loop fuel _ _ _) as [path|] eqn:Hpath; [|done].
    by rewrite (retracePath_loop_mono fuel fuel' _ _ _ _ Hpath Hle).
  - destruct (vempty _); [|done]. by destruct (foldl _ _ _).
Qed.

Lemma solve_loop_mono (fuel fuel' : nat) heuristic p (q : Q) r :
  solve_loop fuel heuristic p q = Some r → (fuel <= fuel')%nat →
  solve_loop fuel' heuristic p q = Some r.
Proof.
  revert fuel' p q. induction fuel as [|fuel IH]; intros fuel' p q; [done|].
  intros Hr Hle. destruct fuel' as [|fuel']; [lia|]. simpl in *.
  destruct (fq_pop q) as [[current q1]|]; [|done].
  pose proof (solve_step_mono fuel fuel' heuristic p current q1 ltac:(lia)) as Hstep.
  destruct (solve_step fuel heuristic p current q1) as [[r'|]|p' q'].
  - by rewrite Hstep.
  - done.
  - rewrite Hstep. apply IH; [done|lia].
Qed.

Lemma solve_mono (fuel fuel' : nat) p heuristic r :
  solve fuel p heuristic = Some r → (fuel <= fuel')%nat →
  solve fuel' p heuristic = Some r.
Proof.
  unfold solve. destruct (negb (solvable p)); [done|].
  intros Hr Hle.
  destruct (solve_loop fuel _ _ _) as [p2|] eqn:Hloop; [|done].
  by rewrite (solve_loop_mono fuel fuel' _ _ _ _ Hloop Hle).
Qed.

Lemma solve_unfold (fuel : nat) p heuristic :
  solvable p = true →
  solve fuel p heuristic
  = match solve_loop fuel heuristic (solve_start p heuristic).1
                     (fq_push (solve_start p heuristic).2 fq_empty) with
    | Some p2 => Some (p2, result p2)
    | None => None
    end.
Proof. intros Hs. unfold solve. by rewrite Hs. Qed.
End Fuel.

(** ** Every run of the search is among the enumerated ones *)

Section AllRuns.
Context {F : FloatOps} {Q : Type} {FQ : FrontierQueue Q}.
Context {FQL : FrontierQueueLaws Q} {FQM : FrontierQueueMin Q}.

Lemma admitChild_sim heuristic current key p (q : Q) (l : list PuzzleState) child :
  fq_items q ≡ₚ l →
  (admitChild heuristic current key (p, q) child).1
  = (admitChild (FQ:=listQueue) heuristic current key (p, l) child).1 ∧
  fq_items (admitChild heuristic current key (p, q) child).2
  ≡ₚ (admitChild (FQ:=listQueue) heuristic current key (p, l) child).2.
Proof.
  intros Hql. unfold admitChild.
  destruct (_ || _); [done|]. simpl. split; [done|].
  by rewrite fq_items_push, Hql.
Qed.

Lemma admitChildren_sim heuristic current key children p (q : Q) (l : list PuzzleState) :
  fq_items q ≡ₚ l →
  (foldl (admitChild heuristic current key) (p, q) children).1
  = (foldl (admitChild (FQ:=listQueue) heuristic current key) (p, l) children).1 ∧
  fq_items (foldl (admitChild heuristic current key) (p, q) children).2
  ≡ₚ (foldl (admitChild (FQ:=listQueue) heuristic current key) (p, l) children).2.
Proof.
  revert p q l. induction children as [|c children IH]; intros p q l Hql; [done|].
  cbn [foldl]. destruct (admitChild_sim heuristic current key p q l c Hql) as [Hp Hq].
  destruct (admitChild heuristic current key (p, q) c) as [p1 q1].
  destruct (admitChild (FQ:=listQueue) heuristic current key (p, l) c) as [p1' l1].
  simpl in *. subst p1'. by apply IH.
Qed.

Lemma solve_step_sim fuel heuristic p current (q1 : Q) (l1 : list PuzzleState) :
  fq_items q1 ≡ₚ l1 →
  match solve_step fuel heuristic p current q1,
        solve_step (FQ:=listQueue) fuel heuristic p current l1 with
  | Finished r, Finished r' => r = r'
  | Continue p' q', Continue p'' l' => p' = p'' ∧ fq_items q' ≡ₚ l'
  | _, _ => False
  end.
Proof.
  intros Hql. unfold solve_step.
  destruct (isGoal (len p) current).
  { by destruct (retracePath _ _ _). }
  destruct (vempty _); [|done].
  match goal with
  | |- context [foldl (admitChild ?hh ?cc ?kk) (?pp, q1) ?ch] =>
      pose proof (admitChildren_sim hh cc kk ch pp q1 l1 Hql) as [Hp Hq];
      destruct (foldl (admitChild hh cc kk) (pp, q1) ch) as [p3 q3];
      destruct (foldl (admitChild (FQ:=listQueue) hh cc kk) (pp, l1) ch) as [p3' l3]
  end.
  simpl in *. subst p3'.
  rewrite !fq_size_items, (Permutation_length Hq). split; [done|done].
Qed.

Lemma minChoices_elem (l : list PuzzleState) (x : PuzzleState) (i : nat) :
  l !! i = Some x → Forall (λ y, CompareCost x y = false) l →
  (x, delete i l) ∈ minChoices l.
Proof.
  intros Hi Hmin. unfold minChoices. apply list_elem_of_omap.
  exists i. split.
  - apply elem_of_seq. apply lookup_lt_Some in Hi. lia.
  - rewrite Hi.
    replace (forallb _ l) with true; [done|].
    symmetry. apply forallb_forall. intros y Hy.
    rewrite Forall_forall in Hmin. rewrite (Hmin y); [done|].
    by apply list_elem_of_In.
Qed.

Lemma solve_loop_sim fuel heuristic p (q : Q) (l : list PuzzleState) :
  fq_items q ≡ₚ l →
  solve_loop fuel heuristic p q ∈ solve_loop_all fuel heuristic p l.
Proof.
  revert p q l. induction fuel as [|fuel IH]; intros p q l Hql; simpl.
  { by left. }
  destruct (fq_pop q) as [[current q1]|] eqn:Hpop.
  - pose proof (fq_pop_min _ _ _ Hpop) as Hmin.
    apply fq_pop_Some in Hpop. rewrite Hql in Hpop, Hmin.
    assert (Hin : current ∈ l) by (rewrite Hpop; left).
    apply list_elem_of_lookup in Hin as [i Hi].
    assert (Hrest : fq_items q1 ≡ₚ delete i l).
    { apply (Permutation_cons_inv (a := current)).
      by rewrite <- Hpop, <- delete_Permutation. }
    destruct l as [|y l']; [done|].
    apply list_elem_of_bind. exists (current, delete i (y :: l')).
    split; [|by apply minChoices_elem]. simpl.
    pose proof (solve_step_sim fuel heuristic p current q1 _ Hrest) as Hstep.
    destruct (solve_step fuel heuristic p current q1) as [r|p' q'];
      destruct (solve_step (FQ:=listQueue) fuel heuristic p current _) as [r'|p'' l''];
      try done.
    + subst r'. by left.
    + destruct Hstep as [<- Hq']. by apply IH.
  - apply fq_pop_None in Hpop. rewrite Hpop in Hql.
    apply Permutation_nil_l in Hql. subst l. by left.
Qed.

(** The start state is the only element of the first frontier. *)
Lemma solve_in_all_runs fuel p heuristic :
  solvable p = true →
  match solve fuel p heuristic with
  | Some (p', path) =>
      Some p' ∈ solve_loop_all fuel heuristic (solve_start p heuristic).1
                               [(solve_start p heuristic).2]
      ∧ path = result p'
  | None =>
      None ∈ solve_loop_all fuel heuristic (solve_start p heuristic).1
                            [(solve_start p heuristic).2]
  end.
Proof.
  intros Hs. rewrite solve_unfold by done.
  pose proof (solve_loop_sim fuel heuristic (solve_start p heuristic).1
                (fq_push (solve_start p heuristic).2 fq_empty)
                [(solve_start p heuristic).2]) as Hsim.
  rewrite fq_items_push, fq_items_empty in Hsim. specialize (Hsim ltac:(done)).
  by destruct (solve_loop _ _ _ _).
Qed.
End AllRuns.

(** ** The search on [DefaultPuzzle.easy] *)

Section EasyPuzzle.
Context {F : FloatOps} {Q : Type} {FQ : FrontierQueue Q}.
Context {FQL : FrontierQueueLaws Q} {FQM : FrontierQueueMin Q}.

Lemma easy_all_runs_uniform :
  forallb (pathIs easyPath)
          (solve_loop_all 12 1 (solve_start (NPuzzle_init DefaultPuzzle.easy) 1).1
                          [(solve_start (NPuzzle_init DefaultPuzzle.easy) 1).2]) = true.
Proof. by vm_compute. Qed.

Lemma easy_all_runs_manhattan :
  forallb (pathIs easyPath)
          (solve_loop_all 12 4 (solve_start (NPuzzle_init DefaultPuzzle.easy) 4).1
                          [(solve_start (NPuzzle_init DefaultPuzzle.easy) 4).2]) = true.
Proof. by vm_compute. Qed.

Lemma easy_solve_path (heuristic : Z) (k : nat) :
  heuristic = 1 ∨ heuristic = 4 →
  ∃ p' path,
    solve (12 + k) (NPuzzle_init DefaultPuzzle.easy) heuristic = Some (p', path) ∧
    map state path = easyPath ∧ goalDepth p' = 3.
Proof.
  intros Hh.
  assert (Hall : forallb (pathIs easyPath)
            (solve_loop_all 12 heuristic
               (solve_start (NPuzzle_init DefaultPuzzle.easy) heuristic).1
               [(solve_start (NPuzzle_init DefaultPuzzle.easy) heuristic).2]) = true).
  { destruct Hh as [-> | ->];
      [apply easy_all_runs_uniform | apply easy_all_runs_manhattan]. }
  rewrite forallb_forall in Hall.
  pose proof (solve_in_all_runs 12 (NPuzzle_init DefaultPuzzle.easy) heuristic
                ltac:(done)) as Hrun.
  destruct (solve 12 (NPuzzle_init DefaultPuzzle.easy) heuristic)
    as [[p' path]|] eqn:Hsolve.
  - destruct Hrun as [Hin ->]. apply list_elem_of_In, Hall in Hin.
    simpl in Hin. apply andb_true_iff in Hin as [Hpath Hdepth].
    apply bool_decide_eq_true in Hpath. apply Z.eqb_eq in Hdepth.
    exists p', (result p'). split; [|done].
    apply (solve_mono 12); [done|lia].
  - apply list_elem_of_In, Hall in Hrun. done.
Qed.

(** C5 (as amended). The start grid 1 2 0 4 5 3 7 8 6 is solvable, and
    [solve] under uniform cost (selector 1) and under the Manhattan
    heuristic (selector 4) each return a path of 3 states, the start and two
    moves, that ends in 1 2 3 4 5 6 7 8 0; the recorded goal depth is 3. *)
Theorem solve_easy_three_states (k : nat) :
  solvable (NPuzzle_init DefaultPuzzle.easy) = true ∧
  (∃ p' path,
     solve (12 + k) (NPuzzle_init DefaultPuzzle.easy) 1 = Some (p', path) ∧
     length path = 3%nat ∧ state <$> head path = Some DefaultPuzzle.easy ∧
     state <$> last path = Some DefaultPuzzle.trivial ∧ goalDepth p' = 3) ∧
  (∃ p' path,
     solve (12 + k) (NPuzzle_init DefaultPuzzle.easy) 4 = Some (p', path) ∧
     length path = 3%nat ∧ state <$> head path = Some DefaultPuzzle.easy ∧
     state <$> last path = Some DefaultPuzzle.trivial ∧ goalDepth p' = 3).
Proof.
  split; [done|].
  split.
  - destruct (easy_solve_path 1 k) as (p' & path & Hsolve & Hpath & Hdepth); [by left|].
    exists p', path. split; [done|].
    destruct path as [|s1 [|s2 [|s3 [|]]]]; try done.
    injection Hpath as H1 H2 H3. simpl. by rewrite H1, H3.
  - destruct (easy_solve_path 4 k) as (p' & path & Hsolve & Hpath & Hdepth); [by right|].
    exists p', path. split; [done|].
    destruct path as [|s1 [|s2 [|s3 [|]]]]; try done.
    injection Hpath as H1 H2 H3. simpl. by rewrite H1, H3.
Qed.
End EasyPuzzle.

(** C5 (as stated, refuted). On the start grid 1 2 0 4 5 3 7 8 6 no run of
    [solve] under uniform cost returns a path of 6 states. *)
Lemma solve_easy_not_six_states :
  ¬ ∃ fuel p' path,
      solve (F:=exactFloat) (FQ:=listQueue) fuel
            (NPuzzle_init DefaultPuzzle.easy) 1 = Some (p', path)
      ∧ length path = 6%nat.
Proof.
  intros (fuel & p' & path & Hsolve & Hlen).
  destruct (easy_solve_path (F:=exactFloat) (Q:=list PuzzleState) 1 fuel)
    as (p0 & path0 & Hsolve0 & Hpath0 & _); [by left|].
  rewrite (solve_mono fuel (12 + fuel) _ _ _ Hsolve) in Hsolve0 by lia.
  injection Hsolve0 as -> ->.
  apply (f_equal length) in Hpath0. rewrite length_map, Hlen in Hpath0. done.
Qed.

(** ** The key of a state *)

Lemma getKey_state (len : Z) (a b : PuzzleState) :
  state a = state b → getKey len a = getKey len b.
Proof. unfold getKey. by intros ->. Qed.

Lemma string_app_cons (c : Ascii.ascii) (s t : string) :
  String c s +:+ t = String c (s +:+ t).
Proof. reflexivity. Qed.

Lemma string_app_nil_r (s : string) : s +:+ "" = s.
Proof. induction s as [|c s IH]; [done|]. by rewrite string_app_cons, IH. Qed.

Lemma string_app_assoc (s t u : string) : s +:+ (t +:+ u) = (s +:+ t) +:+ u.
Proof.
  induction s as [|c s IH]; [done|]. by rewrite !string_app_cons, IH.
Qed.

Lemma getKey_foldr (len : Z) (x : PuzzleState) :
  getKey len x
  = foldr (λ i acc, to_string (vget (state x) i) +:+ acc) "" (seqZ 0 len).
Proof.
  unfold getKey.
  assert (Hgen : ∀ idx key,
            foldl (λ key i, key +:+ to_string (vget (state x) i)) key idx
            = key +:+ foldr (λ i acc, to_string (vget (state x) i) +:+ acc) "" idx).
  { induction idx as [|i idx IH]; intros key; simpl.
    - by rewrite string_app_nil_r.
    - by rewrite IH, string_app_assoc. }
  by rewrite Hgen.
Qed.

Lemma to_string_digit_inj (a b : Z) (s t : string) :
  0 <= a <= 9 → 0 <= b <= 9 →
  to_string a +:+ s = to_string b +:+ t → a = b ∧ s = t.
Proof.
  intros Ha Hb.
  assert (Hcases : ∀ z, 0 <= z <= 9 →
            z = 0 ∨ z = 1 ∨ z = 2 ∨ z = 3 ∨ z = 4 ∨ z = 5 ∨ z = 6 ∨ z = 7 ∨ z = 8 ∨ z = 9)
    by (intros; lia).
  destruct (Hcases a Ha) as [->|[->|[->|[->|[->|[->|[->|[->|[->| ->]]]]]]]]];
    destruct (Hcases b Hb) as [->|[->|[->|[->|[->|[->|[->|[->|[->| ->]]]]]]]]];
    vm_compute; intros Heq; by simplify_eq.
Qed.

(** Where every tile is a single digit (up to the 8-puzzle and the grid of
    length 10) the key does identify the state. *)
Lemma getKey_injective_single_digit (len : Z) (x y : PuzzleState) :
  Z.of_nat (length (state x)) = len → Z.of_nat (length (state y)) = len →
  Forall (λ v, 0 <= v <= 9) (state x) → Forall (λ v, 0 <= v <= 9) (state y) →
  getKey len x = getKey len y → state x = state y.
Proof.
  intros Hlx Hly Hx Hy. rewrite !getKey_foldr. intros Hkey.
  assert (Hall : ∀ i, i ∈ seqZ 0 len → vget (state x) i = vget (state y) i).
  { assert (Hdx : ∀ i, i ∈ seqZ 0 len → 0 <= vget (state x) i <= 9).
    { intros i Hi%elem_of_seqZ. rewrite Forall_forall in Hx. apply Hx.
      apply vget_elem_of. lia. }
    assert (Hdy : ∀ i, i ∈ seqZ 0 len → 0 <= vget (state y) i <= 9).
    { intros i Hi%elem_of_seqZ. rewrite Forall_forall in Hy. apply Hy.
      apply vget_elem_of. lia. }
    induction (seqZ 0 len) as [|i idx IH]; intros j Hj.
    - by apply elem_of_nil in Hj.
    - simpl in Hkey.
      apply to_string_digit_inj in Hkey as [Hi Hrest];
        [|apply Hdx; left|apply Hdy; left].
      apply elem_of_cons in Hj as [->|Hj]; [done|].
      apply IH; [done| |  |done].
      + intros k Hk. apply Hdx. by right.
      + intros k Hk. apply Hdy. by right. }
  apply vget_ext; [lia|].
  intros i Hi. apply Hall, elem_of_seqZ. lia.
Qed.

(** C4 (violated by the code). The key is not collision free on the
    15-puzzle: the goal grid 1 .. 15 0 and the grid
    12 3 4 5 6 7 8 9 10 1 11 2 13 14 15 0 are two different permutations of
    0 .. 15 with the same key. *)
Theorem getKey_collision :
  DefaultPuzzle.Fifteen.trivial ≡ₚ seqZ 0 16 ∧ collidingGrid ≡ₚ seqZ 0 16 ∧
  collidingGrid ≠ DefaultPuzzle.Fifteen.trivial ∧
  getKey 16 (PuzzleState_of collidingGrid)
  = getKey 16 (PuzzleState_of DefaultPuzzle.Fifteen.trivial).
Proof.
  split; [|split; [|split]].
  - apply (bool_decide_unpack _). by vm_compute.
  - apply (bool_decide_unpack _). by vm_compute.
  - done.
  - by vm_compute.
Qed.

(** ** Valid states and the goal *)

Lemma isGoal_from_true (idx : list Z) (x : PuzzleState) :
  isGoal_from idx x = true ↔
  ∀ i, i ∈ idx → vget (state x) i = 0 ∨ vget (state x) i = i + 1.
Proof.
  induction idx as [|i idx IH]; simpl.
  - split; [|done]. intros _ i Hi. by apply elem_of_nil in Hi.
  - destruct (Z.eqb_spec (vget (state x) i) 0) as [H0|H0].
    + rewrite IH. split.
      * intros Hall j [->|Hj]%elem_of_cons; [by left|by apply Hall].
      * intros Hall j Hj. apply Hall. by right.
    + destruct (Z.eqb_spec (vget (state x) i) (i + 1)) as [H1|H1]; simpl.
      * rewrite IH. split.
        -- intros Hall j [->|Hj]%elem_of_cons; [by right|by apply Hall].
        -- intros Hall j Hj. apply Hall. by right.
      * split; [done|]. intros Hall. destruct (Hall i); [by left|done|done].
Qed.

Lemma goalGrid_NoDup (d : Z) : NoDup (goalGrid d).
Proof.
  unfold goalGrid. apply NoDup_app. split; [apply NoDup_seqZ|]. split.
  - intros x Hx%elem_of_seqZ Hx0%list_elem_of_singleton. lia.
  - apply NoDup_singleton.
Qed.

Lemma goalGrid_elem (d x : Z) : 1 <= d → x ∈ goalGrid d → 0 <= x < d * d.
Proof.
  intros Hd. unfold goalGrid.
  intros [Hx%elem_of_seqZ|Hx%list_elem_of_singleton]%elem_of_app; nia.
Qed.

(** Among the permutations of the goal grid, only the goal grid passes the
    goal test. *)
Lemma isGoal_perm_goalGrid (d : Z) (x : PuzzleState) :
  1 <= d → state x ≡ₚ goalGrid d → isGoal (d * d) x = true → state x = goalGrid d.
Proof.
  intros Hd Hperm Hgoal. unfold isGoal in Hgoal. rewrite isGoal_from_true in Hgoal.
  pose proof (Permutation_length Hperm) as Hlen.
  pose proof (goalGrid_length d Hd) as Hlen'.
  assert (Hnodup : NoDup (state x)) by (rewrite Hperm; apply goalGrid_NoDup).
  assert (Hlast : vget (state x) (d * d - 1) = 0).
  { destruct (Hgoal (d * d - 1)) as [H0|H1]; [apply elem_of_seqZ; nia|done|].
    assert (Hin : vget (state x) (d * d - 1) ∈ state x) by (apply vget_elem_of; lia).
    assert (Hsub : ∀ y, y ∈ state x → y ∈ goalGrid d).
    { intros y Hy. by rewrite <- Hperm. }
    apply Hsub, goalGrid_elem in Hin; lia. }
  apply vget_ext; [done|]. intros i Hi.
  destruct (decide (i = d * d - 1)) as [->|Hne].
  { by rewrite Hlast, goalGrid_vget_blank. }
  rewrite goalGrid_vget_tile by lia.
  destruct (Hgoal i) as [H0|H1]; [apply elem_of_seqZ; lia| |done].
  exfalso.
  pose proof (vget_lookup_Some (state x) i ltac:(lia)) as Hi1.
  pose proof (vget_lookup_Some (state x) (d * d - 1) ltac:(lia)) as Hi2.
  rewrite H0 in Hi1. rewrite Hlast in Hi2.
  pose proof (NoDup_lookup _ _ _ _ Hnodup Hi1 Hi2). lia.
Qed.

(** Sliding a tile into the blank permutes the tiles. *)
Lemma vset_swap_Permutation (v : list Z) (a b : Z) :
  0 <= a < Z.of_nat (length v) → 0 <= b < Z.of_nat (length v) → a ≠ b →
  vget v a = 0 →
  vset (vset v a (vget v b)) b 0 ≡ₚ v.
Proof.
  intros Ha Hb Hne H0. apply Permutation_inj. split.
  { unfold vset. by rewrite !length_insert. }
  exists (λ i, if decide (i = Z.to_nat a) then Z.to_nat b
               else if decide (i = Z.to_nat b) then Z.to_nat a else i).
  split.
  - intros i j Hij. repeat case_decide; lia.
  - intros i. unfold vset. repeat case_decide; subst.
    + rewrite list_lookup_insert_ne by lia.
      rewrite list_lookup_insert_eq by lia. by rewrite vget_lookup_Some.
    + rewrite list_lookup_insert_eq by (rewrite length_insert; lia).
      rewrite <- H0. by rewrite vget_lookup_Some.
    + by rewrite !list_lookup_insert_ne by lia.
Qed.

Lemma generateChildren_moves (d : Z) (s c : PuzzleState) :
  validState d s → c ∈ generateChildren d s →
  ∃ delta m, c = moveBlank s delta m ∧ delta ≠ 0 ∧ 0 <= blankIdx s + delta < d * d.
Proof.
  intros (Hd & Hlen & Hb & H0) Hc.
  apply generateChildren_elem in Hc.
  rewrite Z.quot_div_nonneg, Z.rem_mod_nonneg in Hc by lia.
  pose proof (Z.div_mod (blankIdx s) d ltac:(lia)) as Hdm.
  pose proof (Z.mod_pos_bound (blankIdx s) d ltac:(lia)) as Hmod.
  assert (Hrow : blankIdx s / d < d) by (apply Z.div_lt_upper_bound; lia).
  assert (Hrow0 : 0 <= blankIdx s / d) by (apply Z.div_pos; lia).
  destruct Hc as [[Hf ->]|[[Hf ->]|[[Hf ->]|[Hf ->]]]].
  - exists (- d), 1. split; [done|]. split; [lia|nia].
  - exists d, 2. split; [done|]. split; [lia|nia].
  - exists (-1), 3. split; [done|]. split; [lia|nia].
  - exists 1, 4. split; [done|]. split; [lia|nia].
Qed.

Lemma generateChildren_valid (d : Z) (s c : PuzzleState) :
  validState d s → c ∈ generateChildren d s →
  validState d c ∧ state c ≡ₚ state s.
Proof.
  intros Hvalid Hc.
  destruct (generateChildren_moves d s c Hvalid Hc) as (delta & m & -> & Hdelta & Hrange).
  destruct Hvalid as (Hd & Hlen & Hb & H0).
  unfold moveBlank, validState. cbn [state blankIdx]. split.
  - split; [done|]. split; [by rewrite !vset_length|]. split; [done|].
    apply vget_vset_eq. rewrite vset_length. lia.
  - apply vset_swap_Permutation; (done || lia).
Qed.

Lemma generateChildren_length (d : Z) (s : PuzzleState) :
  (length (generateChildren d s) <= 4)%nat.
Proof.
  unfold generateChildren. rewrite !length_app.
  repeat match goal with |- context [if ?b then _ else _] => destruct b end;
    simpl; lia.
Qed.

Lemma findBlank_from_spec (idx grid : list Z) (dflt : Z) :
  (∃ i, i ∈ idx ∧ vget grid i = 0) →
  findBlank_from idx grid dflt ∈ idx ∧ vget grid (findBlank_from idx grid dflt) = 0.
Proof.
  induction idx as [|i idx IH]; intros (k & Hk & Hk0).
  - by apply elem_of_nil in Hk.
  - simpl. destruct (Z.eqb_spec (vget grid i) 0) as [H0|H0].
    + split; [left|done].
    + apply elem_of_cons in Hk as [->|Hk]; [done|].
      destruct IH as [Hin Hz]; [by exists k|]. split; [by right|done].
Qed.

(** The instance built for a permutation of the goal grid. *)
Lemma NPuzzle_init_perm (d : Z) (grid : list Z) :
  1 <= d → grid ≡ₚ goalGrid d →
  len (NPuzzle_init grid) = d * d ∧ dim (NPuzzle_init grid) = d ∧
  validState d (start (NPuzzle_init grid)) ∧
  state (start (NPuzzle_init grid)) = grid.
Proof.
  intros Hd Hperm.
  assert (Hlen : Z.of_nat (length grid) = d * d).
  { rewrite (Permutation_length Hperm). by apply goalGrid_length. }
  simpl. rewrite Hlen. split; [done|]. split; [apply Z.sqrt_square; lia|].
  split; [|done].
  assert (H0 : ∃ i, i ∈ seqZ 0 (d * d) ∧ vget grid i = 0).
  { assert (Hin : 0 ∈ grid).
    { rewrite Hperm. unfold goalGrid. apply elem_of_app. right. by left. }
    apply list_elem_of_lookup in Hin as [k Hk].
    pose proof (lookup_lt_Some _ _ _ Hk).
    exists (Z.of_nat k). split; [apply elem_of_seqZ; lia|].
    apply vget_lookup. by rewrite Nat2Z.id. }
  destruct (findBlank_from_spec _ grid 0 H0) as [Hin%elem_of_seqZ Hz].
  unfold validState. simpl. split; [done|]. split; [done|]. split; [lia|done].
Qed.

(** ** The registries during the search *)

Lemma vempty_true (v : list Z) : vempty v = true ↔ v = [].
Proof. by destruct v. Qed.

Lemma vempty_false (v : list Z) : vempty v = false ↔ v ≠ [].
Proof. by destruct v. Qed.

Lemma elem_of_exploredKeys (m : gmap string PuzzleState) (k : string) :
  k ∈ exploredKeys m ↔ vempty (state (mapAt m k)) = false.
Proof.
  unfold exploredKeys, mapAt. rewrite elem_of_dom. unfold is_Some.
  setoid_rewrite map_lookup_filter_Some. simpl. rewrite vempty_false.
  destruct (m !! k) as [x|]; simpl.
  - split; [intros (y & Hy & ?); by injection Hy as ->|]. intros Hx. by exists x.
  - split; [by intros (y & ? & ?)|done].
Qed.

Lemma exploredKeys_insert (m : gmap string PuzzleState) (k : string) (x : PuzzleState) :
  state x ≠ [] → exploredKeys (<[k := x]> m) = {[k]} ∪ exploredKeys m.
Proof.
  intros Hx. apply set_eq. intros k'.
  rewrite elem_of_union, elem_of_singleton, !elem_of_exploredKeys.
  unfold mapAt. destruct (decide (k = k')) as [->|Hne].
  - rewrite lookup_insert_eq. simpl. rewrite vempty_false. split; [by left|done].
  - rewrite lookup_insert_ne by done. split; [by right|]. by intros [?|?].
Qed.

Lemma arrangementKeys_elem (len : Z) (grid : list Z) (x : PuzzleState) :
  state x ≡ₚ grid → getKey len x ∈ arrangementKeys len grid.
Proof.
  intros Hperm. unfold arrangementKeys.
  apply elem_of_list_to_set, list_elem_of_fmap.
  exists (state x). split; [by apply getKey_state|].
  by apply permutations_Permutation.
Qed.

Section AdmitChildren.
Context {F : FloatOps} {Q : Type} {FQ : FrontierQueue Q} {FQL : FrontierQueueLaws Q}.

(** What the loop over the children changes: states are added to the
    queue, and only for children whose key is not yet explored. *)
Lemma admitChildren_inv (P : PuzzleState → Prop) heuristic current key children p (q : Q) :
  Forall P (fq_items q) →
  (∀ c g' h' f', c ∈ children →
     vempty (state (mapAt (exploredStates p) (getKey (len p) c))) = true →
     P (mkPuzzleState (state c) (blankIdx c) g' h' f' (move c) key)) →
  Forall P (fq_items (foldl (admitChild heuristic current key) (p, q) children).2) ∧
  exploredStates (foldl (admitChild heuristic current key) (p, q) children).1
  = exploredStates p ∧
  len (foldl (admitChild heuristic current key) (p, q) children).1 = len p ∧
  dim (foldl (admitChild heuristic current key) (p, q) children).1 = dim p ∧
  result (foldl (admitChild heuristic current key) (p, q) children).1 = result p ∧
  expanded (foldl (admitChild heuristic current key) (p, q) children).1 = expanded p ∧
  (length (fq_items (foldl (admitChild heuristic current key) (p, q) children).2)
   <= length (fq_items q) + length children)%nat.
Proof.
  revert p q. induction children as [|c children IH]; intros p q Hq HP.
  { cbn [foldl fst snd]. split; [exact Hq|]. do 5 (split; [reflexivity|]). simpl. lia. }
  cbn [foldl].
  assert (Hstep : ∃ p1 q1, admitChild heuristic current key (p, q) c = (p1, q1) ∧
            Forall P (fq_items q1) ∧ exploredStates p1 = exploredStates p ∧
            len p1 = len p ∧ dim p1 = dim p ∧ result p1 = result p ∧
            expanded p1 = expanded p ∧
            (length (fq_items q1) <= length (fq_items q) + 1)%nat).
  { unfold admitChild.
    destruct (negb (vempty (state (mapAt (frontierStates p) (getKey (len p) c))))
              || negb (vempty (state (mapAt (exploredStates p) (getKey (len p) c)))))
      eqn:Hcond.
    - exists p, q. split; [reflexivity|]. split; [exact Hq|].
      do 5 (split; [reflexivity|]). lia.
    - apply orb_false_iff in Hcond as [_ He]. apply negb_false_iff in He.
      eexists _, _. split; [reflexivity|].
      cbn [exploredStates set_frontierStates len dim result expanded].
      split.
      + rewrite fq_items_push. constructor; [|exact Hq]. apply HP; [left|exact He].
      + do 5 (split; [reflexivity|]). rewrite fq_items_push. simpl. lia. }
  destruct Hstep as (p1 & q1 & -> & Hq1 & He1 & Hl1 & Hd1 & Hr1 & Hx1 & Hlen1).
  destruct (IH p1 q1 Hq1) as (HP' & He' & Hl' & Hd' & Hr' & Hx' & Hlen').
  { intros c' g' h' f' Hc' Hemp. apply HP; [by right|]. by rewrite <- He1, <- Hl1. }
  rewrite He', Hl', Hd', Hr', Hx'. split; [exact HP'|].
  do 5 (split; [assumption|]). simpl in *. lia.
Qed.
End AdmitChildren.

(** ** The search on an arbitrary valid puzzle: termination and soundness *)

Lemma to_string_nonempty (z : Z) : to_string z ≠ "".
Proof.
  unfold to_string. destruct (Z.to_int z) as [u|u]; simpl; by destruct u.
Qed.

Lemma getKey_nonempty (len : Z) (x : PuzzleState) : 1 <= len → getKey len x ≠ "".
Proof.
  intros Hlen. rewrite getKey_foldr.
  rewrite (seqZ_cons 0 len) by lia. simpl.
  pose proof (to_string_nonempty (vget (state x) 0)) as Hne.
  by destruct (to_string (vget (state x) 0)).
Qed.

Lemma parentChain_insert grid m x k key z :
  parentChain grid m x k → state (mapAt m key) = [] →
  parentChain grid (<[key := z]> m) x k.
Proof.
  revert x. induction k as [|k IH]; intros x; simpl; [done|].
  intros (Hpk & Hne & Hchain) Hkey.
  assert (Hneq : key ≠ parentKey x) by (intros ->; done).
  assert (Hsame : mapAt (<[key := z]> m) (parentKey x) = mapAt m (parentKey x)).
  { unfold mapAt. by rewrite lookup_insert_ne. }
  rewrite Hsame. split; [done|]. split; [done|]. by apply IH.
Qed.

Lemma parentChain_retrace grid m x k :
  parentChain grid m x k →
  ∀ fuel acc, (k < fuel)%nat →
    ∃ pre s0, retracePath_loop fuel m (parentKey x) (x :: acc) = Some (pre ++ x :: acc)
              ∧ head (pre ++ [x]) = Some s0 ∧ state s0 = grid.
Proof.
  revert x. induction k as [|k IH]; intros x Hchain fuel acc Hfuel.
  - destruct Hchain as [Hpk Hst]. destruct fuel as [|fuel]; [lia|].
    simpl. rewrite Hpk. simpl. by exists [], x.
  - destruct Hchain as (Hpk & Hne & Hchain). destruct fuel as [|fuel]; [lia|].
    simpl. destruct (String.eqb_spec (parentKey x) "") as [|_]; [done|].
    destruct (IH _ Hchain fuel (x :: acc) ltac:(lia)) as (pre & s0 & Hrun & Hhead & Hs0).
    exists (pre ++ [mapAt m (parentKey x)]), s0.
    rewrite <- !app_assoc. simpl. split; [done|]. split; [|done].
    destruct pre; [done|]. done.
Qed.

Section GeneralSearch.
Context {F : FloatOps} {Q : Type} {FQ : FrontierQueue Q} {FQL : FrontierQueueLaws Q}.
Variables (d : Z) (grid : list Z) (heuristic : Z).
Hypothesis Hd : 1 <= d.
Hypothesis Hperm : grid ≡ₚ goalGrid d.

Let universe : gset string := arrangementKeys (d * d) (goalGrid d).

(** What holds of a queued state: its parent keys lead back to the start
    grid through explored states. *)
Let linked (m : gmap string PuzzleState) (x : PuzzleState) : Prop :=
  state x ≡ₚ goalGrid d ∧ validState d x ∧
  ∃ k, parentChain grid m x k ∧ (k <= size (exploredKeys m))%nat.

Let sinv (p : NPuzzle) (q : Q) : Prop :=
  len p = d * d ∧ dim p = d ∧
  Forall (linked (exploredStates p)) (fq_items q) ∧
  exploredKeys (exploredStates p) ⊆ universe ∧
  result p = [].

Let spotential (p : NPuzzle) (q : Q) : nat :=
  (5 * size (universe ∖ exploredKeys (exploredStates p)) + length (fq_items q))%nat.

(** The outcome of a run: no path, or a path from the start to a goal. *)
Let outcome (p' : NPuzzle) : Prop :=
  result p' = [] ∨ solutionPath (d * d) grid (result p').

Lemma search_step (fuel : nat) (p : NPuzzle) (q q1 : Q) (x : PuzzleState) :
  sinv p q → fq_pop q = Some (x, q1) → (size universe < fuel)%nat →
  (∃ p', solve_step fuel heuristic p x q1 = Finished (Some p') ∧ outcome p') ∨
  (∃ p' q', solve_step fuel heuristic p x q1 = Continue p' q' ∧
            sinv p' q' ∧ (spotential p' q' < spotential p q)%nat).
Proof.
  intros (Hlen & Hdim & Hq & Hsub & Hres) Hpop Hfuel.
  apply fq_pop_Some in Hpop.
  assert (Hlenq : length (fq_items q) = S (length (fq_items q1))).
  { by rewrite Hpop. }
  rewrite Hpop in Hq.
  apply Forall_cons in Hq as [(Hxperm & Hxvalid & kx & Hxchain & Hkx) Hq1].
  pose proof (subseteq_size _ _ Hsub) as Hsize.
  unfold solve_step. rewrite Hlen, Hdim.
  cbn [exploredStates set_frontierStates expanded].
  set (key := getKey (d * d) x).
  destruct (isGoal (d * d) x) eqn:Hgoal.
  { (* the goal is popped *)
    left. unfold retracePath. cbn [exploredStates set_frontierStates].
    destruct (parentChain_retrace grid _ x kx Hxchain fuel [] ltac:(lia))
      as (pre & s0 & -> & Hhead & Hs0).
    eexists. split; [reflexivity|]. right.
    cbn [result set_goalDepth set_result]. exists s0, x.
    split; [done|]. split; [done|]. split; [|done].
    by rewrite last_snoc. }
  right.
  destruct (vempty (state (mapAt (exploredStates p) key))) eqn:Hemp.
  - (* the state is expanded *)
    assert (Hnew : key ∉ exploredKeys (exploredStates p)).
    { rewrite elem_of_exploredKeys. congruence. }
    assert (Hxne : state x ≠ []).
    { intros Hnil. rewrite Hnil in Hxperm. apply Permutation_nil_l in Hxperm.
      pose proof (goalGrid_length d Hd) as Hgl. rewrite <- Hxperm in Hgl.
      simpl in Hgl. lia. }
    assert (Hku : key ∈ universe) by (by apply arrangementKeys_elem).
    set (m' := <[key := x]> (exploredStates p)).
    set (p2 := set_exploredStates _ _).
    assert (He2 : exploredKeys m' = {[key]} ∪ exploredKeys (exploredStates p)).
    { by apply exploredKeys_insert. }
    assert (Hsz2 : size (exploredKeys m') = S (size (exploredKeys (exploredStates p)))).
    { rewrite He2, size_union by (by apply disjoint_singleton_l).
      by rewrite size_singleton. }
    assert (Hlift : ∀ y, linked (exploredStates p) y → linked m' y).
    { intros y (Hyp & Hyv & k & Hyc & Hk). split; [done|]. split; [done|].
      exists k. split; [|lia].
      apply parentChain_insert; [done|]. by apply vempty_true. }
    assert (Hq1' : Forall (linked m') (fq_items q1)).
    { eapply Forall_impl; [exact Hq1|exact Hlift]. }
    pose proof (admitChildren_inv (linked m') heuristic x key
                  (generateChildren d x) p2 q1 Hq1') as Hfold.
    destruct Hfold as (Hq3 & He3 & Hl3 & Hd3 & Hr3 & _ & Hlen3).
    { intros c g' h' f' Hc _.
      destruct (generateChildren_valid d x c Hxvalid Hc) as [Hcvalid Hcperm].
      split; [cbn [state]; by rewrite Hcperm|]. split; [exact Hcvalid|].
      exists (S kx). split; [|lia]. cbn [parentChain parentKey].
      assert (Hat : mapAt m' key = x).
      { unfold mapAt, m'. by rewrite lookup_insert_eq. }
      rewrite Hat. split; [apply getKey_nonempty; nia|]. split; [done|].
      apply parentChain_insert; [done|]. by apply vempty_true. }
    destruct (foldl _ _ _) as [p3 q3]. cbn [fst snd] in *.
    eexists _, q3. split; [reflexivity|].
    assert (Hfields : ∀ p4, (p4 = p3 ∨ p4 = set_maxQueue (fq_size q3) p3) →
              sinv p4 q3 ∧ (spotential p4 q3 < spotential p q)%nat).
    { intros p4 Hp4.
      assert (Hsame : exploredStates p4 = m' ∧ len p4 = len p
                      ∧ dim p4 = dim p ∧ result p4 = result p).
      { destruct Hp4 as [-> | ->]; cbn [exploredStates len dim result set_maxQueue];
          rewrite He3, Hl3, Hd3, Hr3; done. }
      destruct Hsame as (He4 & Hl4 & Hd4 & Hr4).
      split.
      - unfold sinv. rewrite He4, Hl4, Hd4, Hr4.
        split; [done|]. split; [done|]. split; [done|].
        split; [|done]. rewrite He2.
        intros k [->%elem_of_singleton|Hk]%elem_of_union; [done|by apply Hsub].
      - unfold spotential. rewrite He4, He2, Hlenq.
        pose proof (generateChildren_length d x) as Hch.
        assert (Hsz : (size (universe ∖ ({[key]} ∪ exploredKeys (exploredStates p)))
                       < size (universe ∖ exploredKeys (exploredStates p)))%nat).
        { apply subset_size. apply strict_spec_alt. split.
          - intros k [Hk1 Hk]%elem_of_difference. apply elem_of_difference.
            split; [done|]. intros Hke. apply Hk, elem_of_union. by right.
          - intros Heq.
            assert (Hin : key ∈ universe ∖ exploredKeys (exploredStates p)).
            { by apply elem_of_difference. }
            rewrite <- Heq in Hin. apply elem_of_difference in Hin as [_ Hin].
            apply Hin, elem_of_union. left. by apply elem_of_singleton. }
        lia. }
    destruct (maxQueue p3 <? fq_size q3); apply Hfields; [by right|by left].
  - (* the state was explored before *)
    eexists _, q1. split; [reflexivity|]. split.
    + unfold sinv. cbn [len dim exploredStates result set_frontierStates]. done.
    + unfold spotential. cbn [exploredStates set_frontierStates]. lia.
Qed.

Lemma search_loop (fuel : nat) (p : NPuzzle) (q : Q) :
  sinv p q → (spotential p q + size universe + 1 < fuel)%nat →
  ∃ p', solve_loop fuel heuristic p q = Some p' ∧ outcome p'.
Proof.
  revert p q. induction fuel as [|fuel IH]; intros p q Hinv Hpot; [lia|].
  simpl. destruct (fq_pop q) as [[x q1]|] eqn:Hpop.
  - destruct (search_step fuel p q q1 x Hinv Hpop ltac:(lia))
      as [(p' & -> & Hout)|(p' & q' & -> & Hinv' & Hlt)].
    + by exists p'.
    + apply IH; [done|lia].
  - exists p. split; [done|]. left. by destruct Hinv as (_ & _ & _ & _ & ?).
Qed.

Lemma search_start :
  let p := NPuzzle_init grid in
  sinv (solve_start p heuristic).1 (fq_push (solve_start p heuristic).2 fq_empty).
Proof.
  intros p.
  destruct (NPuzzle_init_perm d grid Hd Hperm) as (Hlen & Hdim & Hvalid & Hstate).
  fold p in Hlen, Hdim, Hvalid, Hstate.
  unfold sinv, solve_start. cbn [fst snd len dim exploredStates result
                                  set_frontierStates set_start].
  rewrite fq_items_push, fq_items_empty.
  split; [done|]. split; [done|]. split; [|split].
  - constructor; [|done]. unfold linked. cbn [state].
    split; [by rewrite Hstate|]. split; [exact Hvalid|].
    exists 0%nat. split; [|lia]. simpl. done.
  - intros k Hk. apply elem_of_exploredKeys in Hk. by vm_compute in Hk.
  - done.
Qed.

(** On every valid grid the search terminates, and what it returns is the
    empty path or a path from the start state to a goal state; it is the
    empty path when the solvability check fails. *)
Lemma solve_terminates_sound :
  ∃ fuel p' path,
    solve fuel (NPuzzle_init grid) heuristic = Some (p', path) ∧
    (path = [] ∨ solutionPath (d * d) grid path) ∧
    (solvable (NPuzzle_init grid) = false → path = []).
Proof.
  destruct (solvable (NPuzzle_init grid)) eqn:Hsolv.
  - set (fuel0 := S (spotential (solve_start (NPuzzle_init grid) heuristic).1
                       (fq_push (solve_start (NPuzzle_init grid) heuristic).2 fq_empty)
                     + size universe + 1)).
    destruct (search_loop fuel0 _ _ search_start ltac:(unfold fuel0; lia))
      as (p' & Hloop & Hout).
    exists fuel0, p', (result p'). split; [|split; [exact Hout|done]].
    rewrite solve_unfold by done. by rewrite Hloop.
  - exists 0%nat, (set_result [] (NPuzzle_init grid)), [].
    unfold solve. rewrite Hsolv. simpl. split; [done|]. split; [by left|done].
Qed.
End GeneralSearch.

(** ** The search from a start state whose key is the key of the goal *)

Section Collision.
Context {F : FloatOps} {Q : Type} {FQ : FrontierQueue Q} {FQL : FrontierQueueLaws Q}.
Variables (d : Z) (grid : list Z) (heuristic : Z).
Hypothesis Hd : 1 <= d.
Hypothesis Hperm : grid ≡ₚ goalGrid d.
Hypothesis Hnot : grid ≠ goalGrid d.
Hypothesis Hkey :
  getKey (d * d) (PuzzleState_of grid) = getKey (d * d) (PuzzleState_of (goalGrid d)).

Let goalKey : string := getKey (d * d) (PuzzleState_of (goalGrid d)).
Let universe : gset string := arrangementKeys (d * d) (goalGrid d).

(** What holds of a queued state. *)
Let queued (x : PuzzleState) : Prop :=
  state x ≡ₚ goalGrid d ∧ validState d x ∧ isGoal (d * d) x = false.

(** The invariant of the loop: the goal never enters the queue, because its
    key is explored as soon as the start state is. *)
Let inv (p : NPuzzle) (q : Q) : Prop :=
  len p = d * d ∧ dim p = d ∧
  Forall queued (fq_items q) ∧
  (goalKey ∈ exploredKeys (exploredStates p)
   ∨ Forall (λ x, getKey (d * d) x = goalKey) (fq_items q)) ∧
  exploredKeys (exploredStates p) ⊆ universe ∧
  result p = [].

(** The measure that bounds the remaining iterations. *)
Let potential (p : NPuzzle) (q : Q) : nat :=
  (5 * size (universe ∖ exploredKeys (exploredStates p)) + length (fq_items q))%nat.

Lemma queued_not_goalKey (x : PuzzleState) :
  state x ≡ₚ goalGrid d → getKey (d * d) x ≠ goalKey → isGoal (d * d) x = false.
Proof.
  intros Hx Hk. destruct (isGoal (d * d) x) eqn:Hgoal; [|done].
  exfalso. apply Hk. apply getKey_state.
  by apply isGoal_perm_goalGrid.
Qed.

Lemma collision_step (fuel : nat) (p : NPuzzle) (q q1 : Q) (x : PuzzleState) :
  inv p q → fq_pop q = Some (x, q1) →
  ∃ p' q', solve_step fuel heuristic p x q1 = Continue p' q' ∧
           inv p' q' ∧ (potential p' q' < potential p q)%nat.
Proof.
  intros (Hlen & Hdim & Hq & Hgk & Hsub & Hres) Hpop.
  apply fq_pop_Some in Hpop.
  assert (Hlenq : length (fq_items q) = S (length (fq_items q1))).
  { by rewrite Hpop. }
  rewrite Hpop in Hq, Hgk.
  apply Forall_cons in Hq as [(Hxperm & Hxvalid & Hxgoal) Hq1].
  unfold solve_step. rewrite Hlen, Hdim, Hxgoal.
  cbn [exploredStates set_frontierStates expanded].
  set (key := getKey (d * d) x).
  assert (Hkx : goalKey ∈ exploredKeys (exploredStates p) ∨ key = goalKey).
  { destruct Hgk as [?|Hall]; [by left|right]. by apply Forall_cons in Hall as [? _]. }
  destruct (vempty (state (mapAt (exploredStates p) key))) eqn:Hemp.
  - (* the state is expanded *)
    assert (Hnew : key ∉ exploredKeys (exploredStates p)).
    { rewrite elem_of_exploredKeys. congruence. }
    assert (Hxne : state x ≠ []).
    { intros Hnil. rewrite Hnil in Hxperm. apply Permutation_nil_l in Hxperm.
      pose proof (goalGrid_length d Hd) as Hgl. rewrite <- Hxperm in Hgl.
      simpl in Hgl. lia. }
    set (p2 := set_exploredStates _ _).
    assert (He2 : exploredKeys (exploredStates p2) = {[key]} ∪ exploredKeys (exploredStates p)).
    { unfold p2. cbn [exploredStates set_exploredStates].
      by apply exploredKeys_insert. }
    assert (Hgk2 : goalKey ∈ exploredKeys (exploredStates p2)).
    { rewrite He2, elem_of_union, elem_of_singleton.
      destruct Hkx as [?|<-]; [by right|by left]. }
    pose proof (admitChildren_inv queued heuristic x key (generateChildren d x) p2 q1 Hq1)
      as Hfold.
    destruct Hfold as (Hq3 & He3 & Hl3 & Hd3 & Hr3 & _ & Hlen3).
    { intros c g' h' f' Hc Hcemp.
      destruct (generateChildren_valid d x c Hxvalid Hc) as [Hcvalid Hcperm].
      assert (Hcp : state c ≡ₚ goalGrid d) by (by rewrite Hcperm).
      unfold queued. cbn [state]. split; [done|]. split; [exact Hcvalid|].
      apply queued_not_goalKey; [done|].
      erewrite getKey_state; [|reflexivity]. cbn [state].
      intros Hck. change (len p2) with (len p) in Hcemp. rewrite Hlen in Hcemp.
      apply elem_of_exploredKeys in Hgk2.
      rewrite <- Hck in Hgk2.
      erewrite (getKey_state _ _ c) in Hgk2 by reflexivity. congruence. }
    destruct (foldl _ _ _) as [p3 q3]. cbn [fst snd] in *.
    eexists _, q3. split; [reflexivity|].
    assert (Hfields : ∀ p4, (p4 = p3 ∨ p4 = set_maxQueue (fq_size q3) p3) →
              inv p4 q3 ∧ (potential p4 q3 < potential p q)%nat).
    { intros p4 Hp4.
      assert (Hsame : exploredStates p4 = exploredStates p2 ∧ len p4 = len p
                      ∧ dim p4 = dim p ∧ result p4 = result p).
      { destruct Hp4 as [-> | ->]; cbn [exploredStates len dim result set_maxQueue];
          rewrite He3, Hl3, Hd3, Hr3; done. }
      destruct Hsame as (He4 & Hl4 & Hd4 & Hr4).
      split.
      - unfold inv. rewrite He4, Hl4, Hd4, Hr4.
        split; [done|]. split; [done|]. split; [done|]. split; [by left|].
        split; [|done]. rewrite He2.
        intros k [->%elem_of_singleton|Hk]%elem_of_union; [|by apply Hsub].
        by apply arrangementKeys_elem.
      - unfold potential. rewrite He4, He2, Hlenq.
        pose proof (generateChildren_length d x) as Hch.
        assert (Hsz : (size (universe ∖ ({[key]} ∪ exploredKeys (exploredStates p)))
                       < size (universe ∖ exploredKeys (exploredStates p)))%nat).
        { apply subset_size. apply strict_spec_alt. split.
          - intros k [Hku Hk]%elem_of_difference. apply elem_of_difference.
            split; [done|]. intros Hke. apply Hk, elem_of_union. by right.
          - assert (Hku : key ∈ universe) by (by apply arrangementKeys_elem).
            intros Heq.
            assert (Hin : key ∈ universe ∖ exploredKeys (exploredStates p)).
            { by apply elem_of_difference. }
            rewrite <- Heq in Hin. apply elem_of_difference in Hin as [_ Hin].
            apply Hin, elem_of_union. left. by apply elem_of_singleton. }
        lia. }
    destruct (maxQueue p3 <? fq_size q3); apply Hfields; [by right|by left].
  - (* the state was explored before *)
    eexists _, q1. split; [reflexivity|]. split.
    + unfold inv. cbn [len dim exploredStates result set_frontierStates].
      split; [done|]. split; [done|]. split; [done|]. split; [|done].
      left. destruct Hkx as [?|<-]; [done|].
      apply elem_of_exploredKeys. done.
    + unfold potential. cbn [exploredStates set_frontierStates]. lia.
Qed.

Lemma collision_loop (fuel : nat) (p : NPuzzle) (q : Q) :
  inv p q → (potential p q < fuel)%nat →
  ∃ p', solve_loop fuel heuristic p q = Some p' ∧ result p' = [].
Proof.
  revert p q. induction fuel as [|fuel IH]; intros p q Hinv Hpot; [lia|].
  simpl. destruct (fq_pop q) as [[x q1]|] eqn:Hpop.
  - destruct (collision_step fuel p q q1 x Hinv Hpop) as (p' & q' & -> & Hinv' & Hlt).
    apply IH; [done|lia].
  - exists p. split; [done|]. by destruct Hinv as (_ & _ & _ & _ & _ & ?).
Qed.

Lemma collision_start :
  let p := NPuzzle_init grid in
  inv (solve_start p heuristic).1 (fq_push (solve_start p heuristic).2 fq_empty).
Proof.
  intros p.
  destruct (NPuzzle_init_perm d grid Hd Hperm) as (Hlen & Hdim & Hvalid & Hstate).
  fold p in Hlen, Hdim, Hvalid, Hstate.
  unfold inv, solve_start. cbn [fst snd len dim exploredStates result
                                 set_frontierStates set_start].
  rewrite fq_items_push, fq_items_empty.
  split; [done|]. split; [done|]. split; [|split; [|split]].
  - constructor; [|done]. unfold queued. cbn [state].
    split; [by rewrite Hstate|]. split; [exact Hvalid|].
    destruct (isGoal (d * d) _) eqn:Hgoal; [|done].
    exfalso. apply Hnot. rewrite <- Hstate.
    apply (isGoal_perm_goalGrid d _ Hd) in Hgoal; [done|]. cbn [state].
    by rewrite Hstate.
  - right. constructor; [|done]. rewrite Hlen. unfold goalKey. rewrite <- Hkey.
    apply getKey_state. cbn [state]. by rewrite Hstate.
  - intros k Hk. apply elem_of_exploredKeys in Hk. by vm_compute in Hk.
  - done.
Qed.

(** Every run ends with the frontier exhausted and the empty path. *)
Lemma collision_solve_empty :
  solvable (NPuzzle_init grid) = true →
  (∃ fuel p', solve fuel (NPuzzle_init grid) heuristic = Some (p', [])) ∧
  (∀ fuel p' path,
     solve fuel (NPuzzle_init grid) heuristic = Some (p', path) → path = []).
Proof.
  intros Hsolv.
  set (p := NPuzzle_init grid).
  set (fuel0 := S (potential (solve_start p heuristic).1
                     (fq_push (solve_start p heuristic).2 fq_empty))).
  assert (Hpot : (potential (solve_start p heuristic).1
                    (fq_push (solve_start p heuristic).2 fq_empty) < fuel0)%nat).
  { unfold fuel0. lia. }
  destruct (collision_loop fuel0 _ _ collision_start Hpot) as (p' & Hloop & Hres).
  assert (Hsolve0 : solve fuel0 p heuristic = Some (p', [])).
  { rewrite solve_unfold by done. subst p. rewrite Hloop. by rewrite Hres. }
  split; [by exists fuel0, p'|].
  intros fuel p'' path Hsolve.
  pose proof (solve_mono fuel (fuel + fuel0) _ _ _ Hsolve ltac:(lia)) as H1.
  pose proof (solve_mono fuel0 (fuel + fuel0) _ _ _ Hsolve0 ltac:(lia)) as H2.
  rewrite H1 in H2. by injection H2 as _ ->.
Qed.
End Collision.

Section CollidingGrid.
Context {F : FloatOps} {Q : Type} {FQ : FrontierQueue Q} {FQL : FrontierQueueLaws Q}.

(** C1 (violated by the code). The grid
    12 3 4 5 6 7 8 9 10 1 11 2 13 14 15 0 is a valid 15-puzzle that the
    solvability check accepts, yet [solve] returns the empty path for it,
    with every heuristic selector: the key of the start state is the key of
    the goal state, so the goal is discarded as a duplicate whenever it is
    generated, and the search ends with the frontier exhausted. *)
Theorem solve_collidingGrid_empty (heuristic : Z) :
  collidingGrid ≡ₚ seqZ 0 16 ∧
  solvable (NPuzzle_init collidingGrid) = true ∧
  (∃ fuel p', solve fuel (NPuzzle_init collidingGrid) heuristic = Some (p', [])) ∧
  (∀ fuel p' path,
     solve fuel (NPuzzle_init collidingGrid) heuristic = Some (p', path) → path = []).
Proof.
  split; [apply (bool_decide_unpack _); by vm_compute|].
  split; [by vm_compute|].
  apply (collision_solve_empty 4 collidingGrid heuristic).
  - lia.
  - apply (bool_decide_unpack _). by vm_compute.
  - done.
  - by vm_compute.
  - by vm_compute.
Qed.
End CollidingGrid.

(** * Further properties of the code *)

(** ** The constructor *)

Lemma findBlank_from_cases (idx grid : list Z) (dflt : Z) :
  (∃ pre post, idx = pre ++ findBlank_from idx grid dflt :: post ∧
               vget grid (findBlank_from idx grid dflt) = 0 ∧
               ∀ i, i ∈ pre → vget grid i ≠ 0) ∨
  (findBlank_from idx grid dflt = dflt ∧ ∀ i, i ∈ idx → vget grid i ≠ 0).
Proof.
  induction idx as [|i idx IH]; simpl.
  - right. split; [done|]. intros i Hi. by apply elem_of_nil in Hi.
  - destruct (Z.eqb_spec (vget grid i) 0) as [H0|H0].
    + left. exists [], idx. split; [done|]. split; [done|].
      intros j Hj. by apply elem_of_nil in Hj.
    + destruct IH as [(pre & post & Hidx & Hz & Hpre)|[Hd Hall]].
      * left. exists (i :: pre), post. split; [by rewrite Hidx at 1|].
        split; [done|]. intros j [->|Hj]%elem_of_cons; [done|by apply Hpre].
      * right. split; [done|]. intros j [->|Hj]%elem_of_cons; [done|by apply Hall].
Qed.

(** X1. The constructor records the length of the grid, the truncated
    square root as side, and zeroed statistics; the blank index is the
    position of the first 0 of the grid, and it silently stays 0 when the
    grid holds no 0 at all. *)
Theorem NPuzzle_init_blank_first (grid : list Z) :
  let p := NPuzzle_init grid in
  state (start p) = grid ∧ expanded p = 0 ∧ maxQueue p = 0 ∧ goalDepth p = 0 ∧
  result p = [] ∧
  (0 ∈ grid →
   0 <= blankIdx (start p) < len p ∧ vget grid (blankIdx (start p)) = 0 ∧
   ∀ j, 0 <= j < blankIdx (start p) → vget grid j ≠ 0) ∧
  (0 ∉ grid → blankIdx (start p) = 0).
Proof.
  intros p. do 5 (split; [done|]).
  change (blankIdx (start p))
    with (findBlank_from (seqZ 0 (Z.of_nat (length grid))) grid 0).
  change (len p) with (Z.of_nat (length grid)).
  set (n := Z.of_nat (length grid)).
  destruct (findBlank_from_cases (seqZ 0 n) grid 0)
    as [(pre & post & Hidx & Hz & Hpre)|[Hd Hall]].
  - set (b := findBlank_from (seqZ 0 n) grid 0) in *.
    assert (Hb : b ∈ seqZ 0 n).
    { rewrite Hidx. apply elem_of_app. right. left. }
    apply elem_of_seqZ in Hb. split.
    + intros _. split; [lia|]. split; [done|].
      intros j Hj. apply Hpre.
      assert (Hjn : seqZ 0 n !! Z.to_nat j = Some j).
      { rewrite lookup_seqZ. split; lia. }
      assert (Hbn : seqZ 0 n !! length pre = Some b).
      { rewrite Hidx. by rewrite list_lookup_middle. }
      apply lookup_seqZ in Hbn as [Hbn _].
      rewrite Hidx in Hjn. rewrite lookup_app_l in Hjn by lia.
      by eapply list_elem_of_lookup_2.
    + intros Hno. exfalso. apply Hno.
      rewrite <- Hz. apply vget_elem_of. lia.
  - split; [|done]. intros Hin. exfalso.
    apply list_elem_of_lookup in Hin as [k Hk].
    pose proof (lookup_lt_Some _ _ _ Hk).
    apply (Hall (Z.of_nat k)); [apply elem_of_seqZ; lia|].
    apply vget_lookup. by rewrite Nat2Z.id.
Qed.

(** ** The transition generator, continued *)

(** X2. From a valid state every generated child is again a valid state,
    holds the same tiles in another arrangement (a different one when the
    tiles are pairwise distinct), carries one of the move tags 1 to 4 and
    the cost fields of its parent; a puzzle of side 2 or more yields 2 to 4
    children, the puzzle of side 1 none. *)
Theorem generateChildren_invariants (d : Z) (s : PuzzleState) :
  validState d s →
  (∀ c, c ∈ generateChildren d s →
        validState d c ∧ state c ≡ₚ state s ∧
        (NoDup (state s) → state c ≠ state s) ∧
        1 <= move c <= 4 ∧ g c = g s ∧ h c = h s ∧ f c = f s ∧
        parentKey c = parentKey s) ∧
  (2 <= d → (2 <= length (generateChildren d s) <= 4)%nat) ∧
  (d = 1 → generateChildren d s = []).
Proof.
  intros Hvalid. split; [|split].
  - intros c Hc.
    destruct (generateChildren_valid d s c Hvalid Hc) as [Hcv Hcp].
    split; [done|]. split; [done|].
    destruct (generateChildren_moves d s c Hvalid Hc)
      as (delta & m & Hcm & Hdelta & Hrange).
    destruct Hvalid as (Hd & Hlen & Hb & H0).
    split.
    + intros Hnodup Heq. subst c.
      apply (f_equal (λ v, vget v (blankIdx s + delta))) in Heq.
      cbn [state moveBlank] in Heq.
      rewrite vget_vset_eq in Heq by (rewrite vset_length; lia).
      pose proof (vget_lookup_Some (state s) (blankIdx s) ltac:(lia)) as H1.
      pose proof (vget_lookup_Some (state s) (blankIdx s + delta) ltac:(lia)) as H2.
      rewrite H0 in H1. rewrite <- Heq in H2.
      pose proof (NoDup_lookup _ _ _ _ Hnodup H1 H2). lia.
    + apply generateChildren_elem in Hc.
      destruct Hc as [[_ ->]|[[_ ->]|[[_ ->]|[_ ->]]]]; cbn; repeat split; lia.
  - intros Hd2. destruct Hvalid as (Hd & Hlen & Hb & H0).
    split; [|apply generateChildren_length].
    unfold generateChildren. rewrite !length_app.
    rewrite Z.quot_div_nonneg, Z.rem_mod_nonneg by lia.
    pose proof (Z.mod_pos_bound (blankIdx s) d ltac:(lia)) as Hmod.
    assert (Hrow : blankIdx s / d < d) by (apply Z.div_lt_upper_bound; lia).
    assert (Hrow0 : 0 <= blankIdx s / d) by (apply Z.div_pos; lia).
    repeat match goal with
           | |- context [?a <? ?b] => destruct (Z.ltb_spec a b)
           end; simpl; lia.
  - intros ->. destruct Hvalid as (Hd & Hlen & Hb & H0).
    unfold generateChildren. assert (blankIdx s = 0) as -> by lia. done.
Qed.

(** ** The goal test and the key, continued *)

(** X3. On the arrangements of the tiles of a puzzle the goal test accepts
    the goal grid and nothing else. *)
Theorem isGoal_iff_goalGrid (d : Z) (x : PuzzleState) :
  1 <= d → state x ≡ₚ goalGrid d →
  (isGoal (d * d) x = true ↔ state x = goalGrid d).
Proof.
  intros Hd Hperm. split.
  - by apply isGoal_perm_goalGrid.
  - by apply goalGrid_isGoal.
Qed.

(** X4. Up to the 8-puzzle the key identifies the state: two arrangements
    of the tiles of a puzzle of side 1, 2 or 3 have the same key exactly
    when they are the same arrangement. *)
Theorem getKey_injective_small (d : Z) (x y : PuzzleState) :
  1 <= d <= 3 → state x ≡ₚ goalGrid d → state y ≡ₚ goalGrid d →
  (getKey (d * d) x = getKey (d * d) y ↔ state x = state y).
Proof.
  intros Hd Hx Hy. split; [|apply getKey_state].
  assert (Hdigits : ∀ l, l ≡ₚ goalGrid d → Forall (λ v, 0 <= v <= 9) l).
  { intros l Hl. apply Forall_forall. intros v Hv.
    rewrite Hl in Hv. apply goalGrid_elem in Hv; [nia|lia]. }
  assert (Hlen : ∀ l, l ≡ₚ goalGrid d → Z.of_nat (length l) = d * d).
  { intros l Hl. rewrite (Permutation_length Hl). apply goalGrid_length. lia. }
  apply getKey_injective_single_digit; auto.
Qed.

(** ** The heuristics, continued *)

Lemma foldr_sum_le {A} (w1 w2 : A → Z) (l : list A) :
  (∀ x, x ∈ l → w1 x <= w2 x) →
  foldr (λ x acc, w1 x + acc) 0 l <= foldr (λ x acc, w2 x + acc) 0 l.
Proof.
  induction l as [|x l IH]; intros Hw; simpl; [lia|].
  pose proof (Hw x ltac:(left)). pose proof (IH (λ y Hy, Hw y ltac:(by right))). lia.
Qed.

(** The tile [v] at index [i] is at its goal position when its row and
    column distances vanish. *)
Lemma tile_distance_zero (d i v : Z) :
  1 <= d → 0 <= i → 1 <= v →
  Z.abs (Z.quot (v - 1) d - Z.quot i d) + Z.abs (Z.rem (v - 1) d - Z.rem i d) = 0 →
  v = i + 1.
Proof.
  intros Hd Hi Hv Hsum.
  pose proof (Z.quot_rem' (v - 1) d). pose proof (Z.quot_rem' i d). nia.
Qed.

Section HeuristicOrder.
Variables (len d : Z) (s : PuzzleState).
Hypothesis Hd : 1 <= d.
Hypothesis Htiles : Forall (λ v, 0 <= v) (state s).

Let v := vget (state s).
Let misp (i : Z) : Z := if v i =? 0 then 0 else if negb (v i =? i + 1) then 1 else 0.
Let manh (i : Z) : Z :=
  if v i =? 0 then 0
  else Z.abs (Z.quot (v i - 1) d - Z.quot i d) + Z.abs (Z.rem (v i - 1) d - Z.rem i d).

Lemma misplacedTile_as_sum :
  misplacedTile len s = foldr (λ i acc, misp i + acc) 0 (seqZ 0 len).
Proof.
  unfold misplacedTile. rewrite (foldl_ext_in _ (λ c i, c + misp i)).
  - by rewrite foldl_sum.
  - intros c i _. unfold misp, v. destruct (_ =? 0); [lia|]. destruct (negb _); lia.
Qed.

Lemma manhattanDist_as_sum :
  manhattanDist len d s = foldr (λ i acc, manh i + acc) 0 (seqZ 0 len).
Proof.
  unfold manhattanDist. rewrite (foldl_ext_in _ (λ c i, c + manh i)).
  - by rewrite foldl_sum.
  - intros c i _. unfold manh, v. destruct (_ =? 0); lia.
Qed.

Lemma misp_le_manh (i : Z) : 0 <= i → misp i <= manh i.
Proof.
  intros Hi. unfold misp, manh.
  pose proof (tile_nonneg s Htiles i) as Hv. fold (v i) in Hv.
  destruct (Z.eqb_spec (v i) 0) as [|H0]; [lia|].
  destruct (Z.eqb_spec (v i) (i + 1)) as [|H1]; simpl; [lia|].
  pose proof (tile_distance_zero d i (v i) Hd Hi ltac:(lia)). lia.
Qed.

Lemma misplacedTile_le_manhattan :
  misplacedTile len s <= manhattanDist len d s.
Proof.
  rewrite misplacedTile_as_sum, manhattanDist_as_sum.
  apply foldr_sum_le. intros i Hi%elem_of_seqZ. apply misp_le_manh. lia.
Qed.

(** X5. The misplaced-tile count never exceeds the Manhattan distance, and
    the Manhattan distance is 0 exactly on the states that pass the goal
    test. *)
Theorem misplacedTile_le_manhattanDist :
  misplacedTile len s <= manhattanDist len d s ∧
  (manhattanDist len d s = 0 ↔ isGoal len s = true).
Proof.
  pose proof misplacedTile_le_manhattan as Hle.
  split; [done|].
  assert (Hgoal : isGoal len s = true ↔ misplacedTile len s = 0).
  { unfold isGoal, misplacedTile. apply (isGoal_from_misplaced s _ 0). }
  rewrite Hgoal.
  pose proof (misplacedTile_nonneg len s). split; [lia|].
  intros Hm. rewrite manhattanDist_as_sum.
  apply foldr_sum_zero.
  { intros i _. unfold manh. destruct (_ =? 0); lia. }
  intros i Hi.
  rewrite misplacedTile_as_sum in Hm.
  apply (proj1 (foldr_sum_zero misp (seqZ 0 len)
                  ltac:(intros j _; unfold misp; repeat case_match; lia))) with (x := i) in Hm;
    [|done].
  unfold misp, manh in *.
  destruct (Z.eqb_spec (v i) 0) as [|H0]; [done|].
  destruct (Z.eqb_spec (v i) (i + 1)) as [->|H1]; simpl in Hm; [|lia].
  replace (i + 1 - 1) with i by lia. lia.
Qed.
End HeuristicOrder.

#[export] Instance exactFloat_zero : FloatZero exactFloat.
Proof. by constructor. Qed.

Section HeuristicsAtGoal.
Context {F : FloatOps} {FZ : FloatZero F}.
Variables (d : Z) (x : PuzzleState).
Hypothesis Hd : 1 <= d.
Hypothesis Hgoal : state x = goalGrid d.

Lemma goal_tile (i : Z) :
  0 <= i < d * d → vget (state x) i = 0 ∨ vget (state x) i = i + 1.
Proof.
  intros Hi. rewrite Hgoal. destruct (decide (i = d * d - 1)) as [->|Hne].
  - left. by apply goalGrid_vget_blank.
  - right. apply goalGrid_vget_tile. lia.
Qed.

Lemma goal_tile_order (i j : Z) :
  0 <= i < j → vget (state x) i ≠ 0 → vget (state x) j ≠ 0 →
  vget (state x) i < vget (state x) j.
Proof.
  intros Hij Hi Hj.
  assert (Hjr : j < d * d).
  { destruct (Z.lt_ge_cases j (d * d)) as [|Hge]; [done|].
    exfalso. apply Hj. apply vget_ge. rewrite Hgoal, goalGrid_length; lia. }
  destruct (goal_tile i ltac:(lia)) as [|Hvi]; [done|].
  destruct (goal_tile j ltac:(lia)) as [|Hvj]; [done|]. lia.
Qed.

Lemma goal_misplacedTile : misplacedTile (d * d) x = 0.
Proof.
  unfold misplacedTile. apply (foldl_preserves (λ c, c = 0)); [done|].
  intros c i Hi%elem_of_seqZ ->.
  destruct (goal_tile i ltac:(lia)) as [-> | ->]; [done|].
  rewrite Z.eqb_refl. simpl. by destruct (_ =? 0).
Qed.

Lemma goal_manhattanDist : manhattanDist (d * d) d x = 0.
Proof.
  unfold manhattanDist. apply (foldl_preserves (λ c, c = 0)); [done|].
  intros c i Hi%elem_of_seqZ ->.
  destruct (goal_tile i ltac:(lia)) as [-> | ->]; [done|].
  destruct (_ =? 0); [done|]. replace (i + 1 - 1) with i by lia. lia.
Qed.

Lemma goal_euclideanDist : euclideanDist (d * d) d x = 0%Q.
Proof.
  unfold euclideanDist. apply (foldl_preserves (λ c, c = 0%Q)); [done|].
  intros c i Hi%elem_of_seqZ ->.
  destruct (goal_tile i ltac:(lia)) as [-> | ->]; [done|].
  destruct (_ =? 0); [done|]. replace (i + 1 - 1) with i by lia.
  rewrite !Z.sub_diag. simpl. rewrite dsqrt_zero. apply fround_zero.
Qed.

Lemma goal_rowConflicts (i : Z) :
  0 <= i → vget (state x) i ≠ 0 → rowConflicts d x i 0 = 0.
Proof.
  intros Hi Hvi. unfold rowConflicts.
  apply (foldl_preserves (λ c, c = 0)); [done|].
  intros c j Hj%elem_of_seqZ ->.
  destruct (Z.eqb_spec (vget (state x) j) 0) as [|Hvj]; [done|].
  destruct (negb _); [done|].
  pose proof (goal_tile_order i j ltac:(lia) Hvi Hvj).
  destruct (Z.ltb_spec (vget (state x) j) (vget (state x) i)); [lia|done].
Qed.

Lemma goal_colConflicts_from (fuel : nat) (i j : Z) :
  0 <= i < j → vget (state x) i ≠ 0 →
  colConflicts_from (d * d) d fuel x i j 0 = 0.
Proof.
  intros Hij Hvi. revert j Hij. induction fuel as [|fuel IH]; intros j Hij; [done|].
  simpl. destruct (j <? d * d); [|done].
  destruct (Z.eqb_spec (vget (state x) j) 0) as [|Hvj]; [apply IH; lia|].
  destruct (negb _); [apply IH; lia|].
  pose proof (goal_tile_order i j ltac:(lia) Hvi Hvj).
  destruct (Z.ltb_spec (vget (state x) j) (vget (state x) i)); [lia|apply IH; lia].
Qed.

Lemma goal_manhattanDistLinearConflict : manhattanDistLinearConflict (d * d) d x = 0.
Proof.
  unfold manhattanDistLinearConflict. apply (foldl_preserves (λ c, c = 0)); [done|].
  intros c i Hi%elem_of_seqZ ->.
  destruct (Z.eqb_spec (vget (state x) i) 0) as [|Hvi]; [done|].
  assert (Hcost : ∀ a b : bool,
            (if b then colConflicts (d * d) d x i (if a then rowConflicts d x i 0 else 0)
             else if a then rowConflicts d x i 0 else 0) = 0).
  { intros a b. rewrite goal_rowConflicts by (done || lia).
    unfold colConflicts.
    destruct a, b; try done; apply goal_colConflicts_from; (done || lia). }
  rewrite Hcost.
  destruct (goal_tile i ltac:(lia)) as [|Hv]; [done|]. rewrite Hv.
  replace (i + 1 - 1) with i by lia. lia.
Qed.

(** X6. On the goal state every heuristic selector yields the cost 0. *)
Theorem getHeuristicCost_goal (heuristic : Z) :
  getHeuristicCost (d * d) d x heuristic = 0%Q.
Proof.
  unfold getHeuristicCost.
  rewrite goal_misplacedTile, goal_manhattanDist, goal_euclideanDist,
    goal_manhattanDistLinearConflict.
  by repeat case_match.
Qed.
End HeuristicsAtGoal.

Lemma foldr_sum_change (w1 w2 : Z → Z) (l : list Z) (a : Z) :
  NoDup l → a ∈ l → (∀ i, i ∈ l → i ≠ a → w1 i = w2 i) →
  foldr (λ i acc, w1 i + acc) 0 l
  = foldr (λ i acc, w2 i + acc) 0 l + (w1 a - w2 a).
Proof.
  induction l as [|x l IH]; intros Hnd Ha Hw; [by apply elem_of_nil in Ha|].
  apply NoDup_cons in Hnd as [Hx Hnd]. simpl.
  destruct (decide (a = x)) as [->|Hax].
  - assert (Heq : foldr (λ i acc, w1 i + acc) 0 l = foldr (λ i acc, w2 i + acc) 0 l).
    { clear IH Hnd Ha. induction l as [|y l IH]; [done|]. simpl.
      rewrite IH.
      - rewrite (Hw y); [done|by right; left|]. intros ->. apply Hx. left.
      - intros Hxl. apply Hx. by right.
      - intros i Hi Hne. apply Hw; [|done].
        apply elem_of_cons in Hi as [->|Hi]; [left|right; by right]. }
    lia.
  - apply elem_of_cons in Ha as [->|Ha]; [done|].
    rewrite (Hw x); [|left|done]. rewrite IH; [lia|done|done|].
    intros i Hi Hne. apply Hw; [by right|done].
Qed.

(** The Manhattan distance of the tile [v] at index [i]. *)
Lemma manhattanDist_change (len d : Z) (s c : PuzzleState) (a b : Z) :
  let term := λ (x : PuzzleState) (i : Z),
    if vget (state x) i =? 0 then 0
    else Z.abs (Z.quot (vget (state x) i - 1) d - Z.quot i d)
         + Z.abs (Z.rem (vget (state x) i - 1) d - Z.rem i d) in
  0 <= a < len → 0 <= b < len → a ≠ b →
  (∀ i, 0 <= i < len → i ≠ a → i ≠ b → vget (state c) i = vget (state s) i) →
  manhattanDist len d c
  = manhattanDist len d s + (term c a - term s a) + (term c b - term s b).
Proof.
  intros term Ha Hb Hab Hsame.
  assert (Hsum : ∀ x, manhattanDist len d x
                      = foldr (λ i acc, term x i + acc) 0 (seqZ 0 len)).
  { intros x. apply manhattanDist_as_sum. }
  rewrite !Hsum.
  set (mid := λ i, if decide (i = a) then term s i else term c i).
  rewrite (foldr_sum_change (term c) mid (seqZ 0 len) a).
  2:{ apply NoDup_seqZ. }
  2:{ apply elem_of_seqZ. lia. }
  2:{ intros i _ Hne. unfold mid. by rewrite decide_False by done. }
  rewrite (foldr_sum_change mid (term s) (seqZ 0 len) b).
  2:{ apply NoDup_seqZ. }
  2:{ apply elem_of_seqZ. lia. }
  2:{ intros i Hi%elem_of_seqZ Hne. unfold mid. case_decide; [done|].
      unfold term. rewrite Hsame by lia. done. }
  unfold mid. rewrite (decide_True (P := a = a)) by done.
  rewrite (decide_False (P := b = a)) by lia. lia.
Qed.

(** The tile that a move slides gets one step closer to its goal position
    or one step farther from it. *)
Lemma manhattanDist_child (d : Z) (s c : PuzzleState) :
  validState d s → state s ≡ₚ goalGrid d → c ∈ generateChildren d s →
  manhattanDist (d * d) d c = manhattanDist (d * d) d s + 1 ∨
  manhattanDist (d * d) d c = manhattanDist (d * d) d s - 1.
Proof.
  intros Hvalid Hperm Hc.
  destruct (generateChildren_moves d s c Hvalid Hc)
    as (delta & m & Hcm & Hdelta & Hrange).
  pose proof Hvalid as (Hd & Hlen & Hb & H0).
  set (b := blankIdx s) in *. set (b' := b + delta) in *.
  set (t := vget (state s) b').
  assert (Hnodup : NoDup (state s)) by (rewrite Hperm; apply goalGrid_NoDup).
  assert (Ht : 1 <= t).
  { assert (Hin : t ∈ state s) by (apply vget_elem_of; lia).
    assert (Hin' : t ∈ goalGrid d) by (by rewrite <- Hperm).
    apply goalGrid_elem in Hin'; [|done].
    destruct (decide (t = 0)) as [Ht0|]; [|lia]. exfalso.
    pose proof (vget_lookup_Some (state s) b ltac:(lia)) as H1.
    pose proof (vget_lookup_Some (state s) b' ltac:(lia)) as H2.
    fold t in H2. rewrite H0 in H1. rewrite Ht0 in H2.
    pose proof (NoDup_lookup _ _ _ _ Hnodup H1 H2). lia. }
  assert (Hcb : vget (state c) b = t).
  { subst c. cbn [state moveBlank]. fold b b' t.
    rewrite vget_vset_ne by lia. apply vget_vset_eq. lia. }
  assert (Hcb' : vget (state c) b' = 0).
  { subst c. cbn [state moveBlank]. fold b b'.
    apply vget_vset_eq. rewrite vset_length. lia. }
  assert (Hsame : ∀ i, 0 <= i < d * d → i ≠ b → i ≠ b' →
                       vget (state c) i = vget (state s) i).
  { intros i Hi H1 H2. subst c. cbn [state moveBlank]. fold b b'.
    by rewrite !vget_vset_ne by lia. }
  rewrite (manhattanDist_change (d * d) d s c b b') by (done || lia).
  cbv beta zeta. rewrite Hcb, Hcb', H0. fold t.
  replace (t =? 0) with false by (symmetry; apply Z.eqb_neq; lia).
  replace (0 =? 0) with true by done.
  (* the row and the column of the two cells *)
  apply generateChildren_elem in Hc.
  rewrite !(Z.quot_div_nonneg b), !(Z.rem_mod_nonneg b) in * by lia.
  rewrite !(Z.quot_div_nonneg b'), !(Z.rem_mod_nonneg b') by lia.
  pose proof (Z.div_mod b d ltac:(lia)) as Hdm.
  pose proof (Z.mod_pos_bound b d ltac:(lia)) as Hmod.
  assert (Hrc : (b' / d = b / d - 1 ∧ b' mod d = b mod d) ∨
                (b' / d = b / d + 1 ∧ b' mod d = b mod d) ∨
                (b' / d = b / d ∧ b' mod d = b mod d - 1) ∨
                (b' / d = b / d ∧ b' mod d = b mod d + 1)).
  { fold b in Hc. subst c.
    assert (Hdel : delta = - d ∨ delta = d ∨ (delta = -1 ∧ 0 < b mod d)
                   ∨ (delta = 1 ∧ b mod d < d - 1)).
    { destruct Hc as [[Hf Heq]|[[Hf Heq]|[[Hf Heq]|[Hf Heq]]]];
        apply (f_equal blankIdx) in Heq; cbn [blankIdx moveBlank] in Heq;
        fold b in Heq; [left|right; left|right; right; left|right; right; right];
        (lia || (split; lia)). }
    unfold b'.
    destruct Hdel as [->|[->|[[-> Hcol]|[-> Hcol]]]].
    - left. replace (b + - d) with (b + (-1) * d) by lia.
      rewrite Z.div_add, Z.mod_add by lia. lia.
    - right. left. replace (b + d) with (b + 1 * d) by lia.
      rewrite Z.div_add, Z.mod_add by lia. lia.
    - right. right. left.
      assert (Hm : (b + -1) mod d = b mod d - 1).
      { symmetry. apply Z.mod_unique_pos with (q := b / d); lia. }
      assert (Hq : (b + -1) / d = b / d).
      { symmetry. apply Z.div_unique_pos with (r := b mod d - 1); lia. }
      lia.
    - right. right. right.
      assert (Hm : (b + 1) mod d = b mod d + 1).
      { symmetry. apply Z.mod_unique_pos with (q := b / d); lia. }
      assert (Hq : (b + 1) / d = b / d).
      { symmetry. apply Z.div_unique_pos with (r := b mod d + 1); lia. }
      lia. }
  destruct Hrc as [[-> ->]|[[-> ->]|[[-> ->]|[-> ->]]]]; lia.
Qed.

(** X7. One move changes the Manhattan distance by exactly one: for a
    state that arranges the tiles of the puzzle, the distance of each child
    is the distance of the state plus 1 or minus 1. *)
Theorem manhattanDist_move (d : Z) (s c : PuzzleState) :
  validState d s → state s ≡ₚ goalGrid d → c ∈ generateChildren d s →
  manhattanDist (d * d) d c = manhattanDist (d * d) d s + 1 ∨
  manhattanDist (d * d) d c = manhattanDist (d * d) d s - 1.
Proof. apply manhattanDist_child. Qed.

(** ** The solvability check and the moves *)

Lemma map_vget_seqZ (l : list Z) (k : nat) :
  (k <= length l)%nat →
  map (vget l) (seqZ (Z.of_nat k) (Z.of_nat (length l - k))) = drop k l.
Proof.
  revert k. induction l as [|x l IH] using rev_ind; intros k Hk.
  { simpl in *. by replace k with 0%nat by lia. }
  rewrite length_app in *. simpl in *.
  destruct (decide (k = length l + 1)%nat) as [->|Hne].
  { replace (length l + 1 - (length l + 1))%nat with 0%nat by lia.
    rewrite drop_ge by (rewrite length_app; simpl; lia). done. }
  replace (Z.of_nat (length l + 1 - k)) with (Z.of_nat (length l - k) + 1) by lia.
  rewrite seqZ_app by lia. rewrite map_app.
  rewrite drop_app_le by lia. f_equal.
  - rewrite <- (IH k) by lia. apply map_ext_in.
    intros i Hi. apply list_elem_of_In, elem_of_seqZ in Hi.
    unfold vget. rewrite lookup_app_l by lia. done.
  - rewrite (seqZ_cons _ 1), seqZ_nil by lia. simpl. f_equal.
    apply vget_lookup. replace (Z.to_nat _) with (length l) by lia.
    by rewrite list_lookup_middle.
Qed.

Lemma countZ_filter {A} (p q : A → bool) (l : list A) :
  countZ (λ y, q y && p y) l = countZ p (List.filter q l).
Proof.
  induction l as [|x l IH]; [done|].
  simpl. rewrite countZ_cons. destruct (q x); simpl.
  - by rewrite countZ_cons, IH.
  - by rewrite IH.
Qed.

(** The counting loops of [isSolvable] count the inversions of the tiles. *)
Lemma inversionCount_invN (s : PuzzleState) :
  inversionCount (Z.of_nat (length (state s))) s = invN (tilesOf (state s)).
Proof.
  unfold inversionCount. set (l := state s). set (n := length l).
  set (w := λ i, if vget l i =? 0 then 0
                 else countZ (λ j, negb (vget l j =? 0) && (vget l j <? vget l i))
                             (seqZ (i + 1) (Z.of_nat n - (i + 1)))).
  rewrite (foldl_ext_in _ (λ c i, c + w i)).
  2:{ intros c i _. unfold w. destruct (vget l i =? 0); [lia|].
      rewrite <- (Z.mul_1_l (countZ _ _)). rewrite <- foldl_count.
      apply foldl_ext_in. intros c' j _.
      destruct (vget l j =? 0); simpl; [done|].
      by destruct (vget l j <? vget l i). }
  rewrite foldl_sum. simpl.
  assert (Hgen : ∀ m k, (k + m = n)%nat →
            foldr (λ i acc, w i + acc) 0 (seqZ (Z.of_nat k) (Z.of_nat m))
            = invN (tilesOf (drop k l))).
  { induction m as [|m IH]; intros k Hk.
    - rewrite drop_ge by (unfold n in Hk; lia). done.
    - rewrite seqZ_cons by lia. simpl.
      replace (Z.succ (Z.of_nat k)) with (Z.of_nat (S k)) by lia.
      replace (Z.pred (Z.of_nat (S m))) with (Z.of_nat m) by lia.
      rewrite IH by lia.
      destruct (lookup_lt_is_Some_2 l k) as [x Hx]; [unfold n in Hk; lia|].
      rewrite (drop_S l x k Hx). unfold w.
      rewrite (vget_lookup l (Z.of_nat k) x) by (by rewrite Nat2Z.id).
      unfold tilesOf at 2. simpl. fold (tilesOf (drop (S k) l)).
      destruct (x =? 0); simpl; [done|]. f_equal.
      replace (Z.of_nat k + 1) with (Z.of_nat (S k)) by lia.
      replace (Z.of_nat n - Z.of_nat (S k)) with (Z.of_nat (length l - S k))
        by (unfold n in *; lia).
      rewrite <- (countZ_map (λ y, negb (y =? 0) && (y <? x)) (vget l)).
      rewrite map_vget_seqZ by (unfold n in Hk; lia).
      apply (countZ_filter (λ y, y <? x) (λ y, negb (y =? 0))). }
  specialize (Hgen n 0%nat ltac:(lia)). by rewrite drop_0 in Hgen.
Qed.

(** Exchanging two neighbouring tiles changes the number of inversions by
    one. *)
Lemma invN_swap_adjacent (pre post : list Z) (a b : Z) :
  a ≠ b →
  Z.odd (invN (pre ++ a :: b :: post)) = negb (Z.odd (invN (pre ++ b :: a :: post))).
Proof.
  intros Hab.
  assert (Hdiff : invN (pre ++ a :: b :: post) - invN (pre ++ b :: a :: post) = 1
                  ∨ invN (pre ++ a :: b :: post) - invN (pre ++ b :: a :: post) = -1).
  { induction pre as [|x pre IH]; simpl.
    - rewrite !countZ_cons.
      destruct (Z.ltb_spec b a); destruct (Z.ltb_spec a b); lia.
    - rewrite !countZ_app, !countZ_cons. lia. }
  destruct Hdiff as [Hd|Hd].
  - replace (invN (pre ++ a :: b :: post)) with (invN (pre ++ b :: a :: post) + 1) by lia.
    by rewrite Z.odd_add, xorb_true_r.
  - replace (invN (pre ++ a :: b :: post)) with (invN (pre ++ b :: a :: post) - 1) by lia.
    by rewrite Z.odd_sub, xorb_true_r.
Qed.

(** Carrying a tile across a block of other tiles. *)
Lemma invN_move_across (pre mid post : list Z) (t : Z) :
  t ∉ mid →
  Z.odd (invN (pre ++ mid ++ t :: post))
  = xorb (Z.odd (Z.of_nat (length mid))) (Z.odd (invN (pre ++ t :: mid ++ post))).
Proof.
  revert pre. induction mid as [|m mid IH]; intros pre Ht; [done|].
  apply not_elem_of_cons in Ht as [Hne Ht].
  replace (pre ++ (m :: mid) ++ t :: post) with ((pre ++ [m]) ++ mid ++ t :: post)
    by (by rewrite <- app_assoc).
  rewrite IH by done. rewrite <- app_assoc. cbn [app].
  rewrite (invN_swap_adjacent pre (mid ++ post) m t) by done.
  assert (Hlen : Z.odd (Z.of_nat (length (m :: mid)))
                 = negb (Z.odd (Z.of_nat (length mid)))).
  { cbn [length]. by rewrite Nat2Z.inj_succ, Z.odd_succ, <- Z.negb_odd. }
  rewrite Hlen.
  by destruct (Z.odd (Z.of_nat (length mid))), (Z.odd (invN _)).
Qed.

(** The two cells of a move cut the vector into five parts. *)
Lemma list_split_two (l : list Z) (i j : nat) (x y : Z) :
  (i < j)%nat → (j < length l)%nat →
  ∃ pre mid post,
    length pre = i ∧ length mid = (j - i - 1)%nat ∧
    l = pre ++ default 0 (l !! i) :: mid ++ default 0 (l !! j) :: post ∧
    <[j := y]> (<[i := x]> l) = pre ++ x :: mid ++ y :: post.
Proof.
  intros Hij Hj.
  destruct (lookup_lt_is_Some_2 l i) as [a Ha]; [lia|].
  destruct (lookup_lt_is_Some_2 l j) as [b Hb]; [lia|].
  exists (take i l), (take (j - i - 1) (drop (S i) l)), (drop (S j) l).
  assert (Hlk : drop (S i) l !! (j - i - 1)%nat = Some b).
  { rewrite lookup_drop, <- Hb. f_equal. lia. }
  assert (Hmid : drop (S i) l
                 = take (j - i - 1) (drop (S i) l) ++ b :: drop (S j) l).
  { pose proof (take_drop_middle _ _ _ Hlk) as Hm. rewrite drop_drop in Hm.
    replace (S i + S (j - i - 1))%nat with (S j) in Hm by lia. done. }
  split; [rewrite length_take; lia|].
  split; [rewrite length_take, length_drop; lia|].
  rewrite Ha, Hb. simpl.
  assert (Hl : l = take i l ++ a :: take (j - i - 1) (drop (S i) l) ++ b :: drop (S j) l).
  { rewrite <- Hmid. by rewrite take_drop_middle. }
  split; [done|].
  assert (Hzero : ∀ (u w : Z) (r : list Z), <[0%nat := u]> (w :: r) = u :: r) by done.
  assert (Hsucc : ∀ (n : nat) (u w : Z) (r : list Z),
            <[S n := u]> (w :: r) = w :: <[n := u]> r) by done.
  rewrite Hl at 1.
  rewrite (insert_app_r_alt _ _ i) by (rewrite length_take; lia).
  rewrite length_take. replace (i - i `min` length l)%nat with 0%nat by lia.
  rewrite Hzero.
  rewrite (insert_app_r_alt _ _ j) by (rewrite length_take; lia).
  rewrite length_take. replace (j - i `min` length l)%nat with (S (j - i - 1)) by lia.
  rewrite Hsucc. f_equal. f_equal.
  rewrite (insert_app_r_alt _ _ (j - i - 1))
    by (rewrite length_take, length_drop; lia).
  rewrite length_take, length_drop.
  replace (j - i - 1 - (j - i - 1) `min` (length l - S i))%nat with 0%nat by lia.
  by rewrite Hzero.
Qed.

Lemma generateChildren_cells (d : Z) (s c : PuzzleState) :
  validState d s → c ∈ generateChildren d s →
  ∃ delta m,
    c = moveBlank s delta m ∧ 0 <= blankIdx s + delta < d * d ∧
    ((delta = - d ∧ (blankIdx s + delta) / d = blankIdx s / d - 1) ∨
     (delta = d ∧ (blankIdx s + delta) / d = blankIdx s / d + 1) ∨
     (delta = -1 ∧ (blankIdx s + delta) / d = blankIdx s / d) ∨
     (delta = 1 ∧ (blankIdx s + delta) / d = blankIdx s / d)).
Proof.
  intros (Hd & Hlen & Hb & H0) Hc.
  apply generateChildren_elem in Hc.
  rewrite Z.quot_div_nonneg, Z.rem_mod_nonneg in Hc by lia.
  pose proof (Z.div_mod (blankIdx s) d ltac:(lia)) as Hdm.
  pose proof (Z.mod_pos_bound (blankIdx s) d ltac:(lia)) as Hmod.
  assert (Hrow : blankIdx s / d < d) by (apply Z.div_lt_upper_bound; lia).
  assert (Hrow0 : 0 <= blankIdx s / d) by (apply Z.div_pos; lia).
  destruct Hc as [[Hf ->]|[[Hf ->]|[[Hf ->]|[Hf ->]]]].
  - exists (- d), 1. split; [done|]. split; [nia|]. left. split; [done|].
    replace (blankIdx s + - d) with (blankIdx s + (-1) * d) by lia.
    rewrite Z.div_add by lia. lia.
  - exists d, 2. split; [done|]. split; [nia|]. right. left. split; [done|].
    replace (blankIdx s + d) with (blankIdx s + 1 * d) at 1 by lia.
    rewrite Z.div_add by lia. lia.
  - exists (-1), 3. split; [done|]. split; [nia|]. right. right. left. split; [done|].
    symmetry. apply Z.div_unique_pos with (r := blankIdx s mod d - 1); lia.
  - exists 1, 4. split; [done|]. split; [nia|]. right. right. right. split; [done|].
    symmetry. apply Z.div_unique_pos with (r := blankIdx s mod d + 1); lia.
Qed.

Lemma tilesOf_app (l1 l2 : list Z) : tilesOf (l1 ++ l2) = tilesOf l1 ++ tilesOf l2.
Proof. apply List.filter_app. Qed.

Lemma tilesOf_no_blank (l : list Z) : 0 ∉ l → tilesOf l = l.
Proof.
  induction l as [|x l IH]; intros Hno; [done|].
  apply not_elem_of_cons in Hno as [Hx Hl]. unfold tilesOf. simpl.
  destruct (Z.eqb_spec x 0); [done|]. simpl. f_equal. by apply IH.
Qed.

(** Sliding the tile [t] over the block [mid] into the blank. *)
Lemma slide_parity (pre mid post : list Z) (t : Z) :
  t ≠ 0 → 0 ∉ mid → t ∉ mid →
  Z.odd (invN (tilesOf (pre ++ 0 :: mid ++ t :: post)))
  = xorb (Z.odd (Z.of_nat (length mid)))
         (Z.odd (invN (tilesOf (pre ++ t :: mid ++ 0 :: post)))).
Proof.
  intros Ht H0 Htm.
  assert (Hcons0 : ∀ l, tilesOf (0 :: l) = tilesOf l) by done.
  assert (Hconst : ∀ l, tilesOf (t :: l) = t :: tilesOf l).
  { intros l. unfold tilesOf. simpl. by destruct (Z.eqb_spec t 0). }
  rewrite !tilesOf_app, Hcons0, Hconst, !tilesOf_app, Hcons0, Hconst.
  rewrite (tilesOf_no_blank mid) by done.
  by apply invN_move_across.
Qed.

Lemma rem2_odd_bool (x : Z) : 0 <= x → (Z.rem x 2 =? 1) = Z.odd x.
Proof.
  intros Hx. rewrite Z.rem_mod_nonneg by lia. rewrite Zmod_odd.
  by destruct (Z.odd x).
Qed.

Lemma rem2_even_bool (x : Z) : 0 <= x → (Z.rem x 2 =? 0) = negb (Z.odd x).
Proof.
  intros Hx. rewrite Z.rem_mod_nonneg by lia. rewrite Zmod_odd.
  by destruct (Z.odd x).
Qed.

Lemma invN_nonneg (l : list Z) : 0 <= invN l.
Proof.
  induction l as [|x l IH]; simpl; [lia|].
  pose proof (countZ_nonneg (λ y, y <? x) l). lia.
Qed.

(** The check in terms of the parities it compares. *)
Lemma isSolvable_parity (d : Z) (x : PuzzleState) :
  validState d x →
  isSolvable (d * d) d x
  = if Z.odd d then negb (Z.odd (invN (tilesOf (state x))))
    else xorb (Z.odd (invN (tilesOf (state x))))
              (Z.odd (d - blankIdx x / d)).
Proof.
  intros (Hd & Hlen & Hb & H0). unfold isSolvable. cbv zeta.
  replace (inversionCount (d * d) x) with (invN (tilesOf (state x)))
    by (rewrite <- Hlen; symmetry; apply inversionCount_invN).
  pose proof (invN_nonneg (tilesOf (state x))) as Hinv.
  assert (Hrow : 1 <= d - blankIdx x / d).
  { assert (blankIdx x / d < d) by (apply Z.div_lt_upper_bound; lia). lia. }
  rewrite Z.quot_div_nonneg by lia.
  set (I := invN (tilesOf (state x))) in *. set (r := d - blankIdx x / d) in *.
  rewrite (rem2_odd_bool d), !(rem2_odd_bool I), !(rem2_even_bool I),
    (rem2_odd_bool r), (rem2_even_bool r) by lia.
  destruct (Z.odd d), (Z.odd I), (Z.odd r); done.
Qed.

Lemma move_inversion_parity (d : Z) (s : PuzzleState) (delta m : Z) :
  validState d s → NoDup (state s) → delta ≠ 0 →
  0 <= blankIdx s + delta < d * d →
  Z.odd (invN (tilesOf (state (moveBlank s delta m))))
  = xorb (Z.odd (Z.abs delta - 1)) (Z.odd (invN (tilesOf (state s)))).
Proof.
  intros (Hd & Hlen & Hb & H0) Hnodup Hdelta Hrange.
  set (b := blankIdx s) in *. set (l := state s) in *.
  set (t := vget l (b + delta)).
  pose proof (vget_lookup_Some l b ltac:(lia)) as Hlb. rewrite H0 in Hlb.
  pose proof (vget_lookup_Some l (b + delta) ltac:(lia)) as Hlt. fold t in Hlt.
  cbn [state moveBlank]. fold b l t. unfold vset.
  destruct (Z.lt_ge_cases 0 delta) as [Hpos|Hneg].
  - destruct (list_split_two l (Z.to_nat b) (Z.to_nat (b + delta)) t 0)
      as (pre & mid & post & Hpre & Hmid & Hl & Hins); [lia|lia|].
    rewrite Hlb, Hlt in Hl. simpl in Hl. rewrite Hins.
    rewrite Hl in Hnodup.
    apply NoDup_app in Hnodup as (_ & _ & Hnd).
    apply NoDup_cons in Hnd as [H0mid Hnd].
    apply NoDup_app in Hnd as (_ & Hmidt & Hnd').
    rewrite Hl.
    rewrite (slide_parity pre mid post t).
    + replace (Z.abs delta - 1) with (Z.of_nat (length mid)) by lia.
      by destruct (Z.odd (Z.of_nat (length mid))), (Z.odd (invN _)).
    + intros ->. apply H0mid. apply elem_of_app. right. left.
    + intros Hin. apply H0mid. apply elem_of_app. by left.
    + intros Hin. apply (Hmidt t Hin). left.
  - destruct (list_split_two l (Z.to_nat (b + delta)) (Z.to_nat b) 0 t)
      as (pre & mid & post & Hpre & Hmid & Hl & Hins); [lia|lia|].
    rewrite Hlb, Hlt in Hl. simpl in Hl.
    rewrite list_insert_insert_ne by lia. rewrite Hins.
    rewrite Hl in Hnodup.
    apply NoDup_app in Hnodup as (_ & _ & Hnd).
    apply NoDup_cons in Hnd as [Htmid Hnd].
    apply NoDup_app in Hnd as (_ & Hmid0 & Hnd').
    rewrite Hl.
    rewrite (slide_parity pre mid post t).
    + by replace (Z.abs delta - 1) with (Z.of_nat (length mid)) by lia.
    + intros ->. apply Htmid. apply elem_of_app. right. left.
    + intros Hin. apply (Hmid0 0 Hin). left.
    + intros Hin. apply Htmid. apply elem_of_app. by left.
Qed.

Lemma isSolvable_child (d : Z) (s c : PuzzleState) :
  validState d s → NoDup (state s) → c ∈ generateChildren d s →
  isSolvable (d * d) d c = isSolvable (d * d) d s.
Proof.
  intros Hvalid Hnodup Hc.
  destruct (generateChildren_valid d s c Hvalid Hc) as [Hcvalid _].
  rewrite (isSolvable_parity d c Hcvalid), (isSolvable_parity d s Hvalid).
  destruct (generateChildren_cells d s c Hvalid Hc)
    as (delta & m & -> & Hrange & Hcases).
  pose proof Hvalid as (Hd & _).
  rewrite (move_inversion_parity d s delta m Hvalid Hnodup) by (done || lia).
  cbn [blankIdx moveBlank].
  set (I := Z.odd (invN (tilesOf (state s)))).
  set (r := d - blankIdx s / d).
  destruct Hcases as [[-> Hrow]|[[-> Hrow]|[[-> Hrow]|[-> Hrow]]]]; rewrite Hrow.
  - replace (Z.abs (- d) - 1) with (Z.pred d) by lia.
    replace (d - (blankIdx s / d - 1)) with (Z.succ r) by (unfold r; lia).
    rewrite Z.odd_succ, <- Z.negb_odd, Z.odd_pred, <- Z.negb_odd.
    by destruct (Z.odd d), I, (Z.odd r).
  - replace (Z.abs d - 1) with (Z.pred d) by lia.
    replace (d - (blankIdx s / d + 1)) with (Z.pred r) by (unfold r; lia).
    rewrite !Z.odd_pred, <- !Z.negb_odd.
    by destruct (Z.odd d), I, (Z.odd r).
  - simpl. by destruct (Z.odd d), I.
  - simpl. by destruct (Z.odd d), I.
Qed.

Lemma isSolvable_ext (len d : Z) (a b : PuzzleState) :
  state a = state b → blankIdx a = blankIdx b →
  isSolvable len d a = isSolvable len d b.
Proof.
  intros Hst Hb. unfold isSolvable, inversionCount. by rewrite Hst, Hb.
Qed.

Lemma validState_ext (d : Z) (a b : PuzzleState) :
  state a = state b → blankIdx a = blankIdx b → validState d a → validState d b.
Proof. unfold validState. by intros -> ->. Qed.

Lemma reachable_isSolvable (d : Z) (s u : PuzzleState) :
  reachable d s u → validState d s → NoDup (state s) →
  isSolvable (d * d) d s = isSolvable (d * d) d u ∧ validState d u.
Proof.
  induction 1 as [s t Hst Hb|s t u (c & Hc & Hcs & Hcb) Hreach IH]; intros Hvalid Hnodup.
  - split; [by apply isSolvable_ext|by eapply validState_ext].
  - destruct (generateChildren_valid d s c Hvalid Hc) as [Hcvalid Hcperm].
    assert (Htvalid : validState d t) by (by eapply validState_ext).
    assert (Htnodup : NoDup (state t)) by (by rewrite <- Hcs, Hcperm).
    destruct (IH Htvalid Htnodup) as [Hsolv Hu]. split; [|done].
    rewrite <- Hsolv, <- (isSolvable_ext _ _ c t Hcs Hcb).
    symmetry. by apply isSolvable_child.
Qed.

(** X8. A legal move does not change the verdict of the solvability check:
    from a valid state with pairwise distinct tiles, every child has the
    verdict of its parent. *)
Theorem isSolvable_move_invariant (d : Z) (s c : PuzzleState) :
  validState d s → NoDup (state s) → c ∈ generateChildren d s →
  isSolvable (d * d) d c = isSolvable (d * d) d s.
Proof. apply isSolvable_child. Qed.

Lemma goal_isSolvable (d : Z) (u : PuzzleState) :
  validState d u → state u = goalGrid d → isSolvable (d * d) d u = true.
Proof.
  intros (Hd & Hlen & Hb & H0) Hst.
  pose proof (goalGrid_isSolvable d Hd) as Hsolv.
  pose proof (goalGrid_blankIdx d Hd) as Hblank.
  change (solvable (NPuzzle_init (goalGrid d)))
    with (isSolvable (Z.of_nat (length (goalGrid d)))
                     (Z.sqrt (Z.of_nat (length (goalGrid d))))
                     (start (NPuzzle_init (goalGrid d)))) in Hsolv.
  rewrite goalGrid_length, Z.sqrt_square in Hsolv by lia.
  rewrite <- Hsolv. apply isSolvable_ext; [done|].
  rewrite Hblank.
  destruct (decide (blankIdx u = d * d - 1)) as [|Hne]; [done|].
  rewrite Hst, goalGrid_vget_tile in H0 by lia. lia.
Qed.

(** X9. The check never rejects a puzzle that can be solved: when a
    sequence of legal moves leads from the start state of an instance to
    the goal grid, the instance is marked solvable. *)
Theorem reachable_goal_solvable (d : Z) (grid : list Z) (u : PuzzleState) :
  1 <= d → grid ≡ₚ goalGrid d → state u = goalGrid d →
  reachable d (start (NPuzzle_init grid)) u →
  solvable (NPuzzle_init grid) = true.
Proof.
  intros Hd Hperm Hu Hreach.
  destruct (NPuzzle_init_perm d grid Hd Hperm) as (Hlen & Hdim & Hvalid & Hstate).
  assert (Hnodup : NoDup (state (start (NPuzzle_init grid)))).
  { rewrite Hstate, Hperm. apply goalGrid_NoDup. }
  destruct (reachable_isSolvable d _ u Hreach Hvalid Hnodup) as [Hsolv Huvalid].
  change (solvable (NPuzzle_init grid))
    with (isSolvable (len (NPuzzle_init grid)) (dim (NPuzzle_init grid))
                     (start (NPuzzle_init grid))).
  rewrite Hlen, Hdim, Hsolv. by apply goal_isSolvable.
Qed.

(** ** The heuristics never overestimate *)

Lemma manhattanDist_state (len d : Z) (a b : PuzzleState) :
  state a = state b → manhattanDist len d a = manhattanDist len d b.
Proof. unfold manhattanDist. by intros ->. Qed.

(** X10. The misplaced-tile count and the Manhattan distance are
    admissible: for a valid state that arranges the tiles of the puzzle,
    neither exceeds the number of moves of any sequence of legal moves
    that leads from the state to the goal grid. *)
Theorem heuristics_admissible (d : Z) (n : nat) (s u : PuzzleState) :
  validState d s → state s ≡ₚ goalGrid d →
  reachableIn d n s u → state u = goalGrid d →
  misplacedTile (d * d) s <= manhattanDist (d * d) d s ∧
  manhattanDist (d * d) d s <= Z.of_nat n.
Proof.
  intros Hvalid Hperm Hreach Hu.
  pose proof Hvalid as (Hd & _).
  split.
  { apply misplacedTile_le_manhattan; [done|].
    apply Forall_forall. intros v Hv. rewrite Hperm in Hv.
    apply goalGrid_elem in Hv; [lia|done]. }
  induction Hreach as [s t Hst Hb|n s t u (c & Hc & Hcs & Hcb) Hreach IH].
  - rewrite (goal_manhattanDist d s); [done|done|congruence].
  - destruct (generateChildren_valid d s c Hvalid Hc) as [Hcvalid Hcperm].
    pose proof (manhattanDist_child d s c Hvalid Hperm Hc) as Hstep.
    rewrite (manhattanDist_state _ _ c t Hcs) in Hstep.
    assert (Htn : manhattanDist (d * d) d t <= Z.of_nat n).
    { apply IH; [by apply (validState_ext d c t)| |done].
      by rewrite <- Hcs, Hcperm. }
    lia.
Qed.

(** ** The decimal representation of a number *)

Lemma of_uint_acc_bounds (l : Decimal.uint) (acc : positive) :
  Z.pos acc * 10 ^ Z.of_nat (Decimal.nb_digits l) <= Z.pos (Pos.of_uint_acc l acc)
  < (Z.pos acc + 1) * 10 ^ Z.of_nat (Decimal.nb_digits l).
Proof.
  revert acc. induction l as [|l IH|l IH|l IH|l IH|l IH|l IH|l IH|l IH|l IH|l IH];
    intros acc; cbn [Decimal.nb_digits Pos.of_uint_acc];
    [change (Z.of_nat 0) with 0; lia|..];
    rewrite Nat2Z.inj_succ, Z.pow_succ_r by lia;
    match goal with |- context [Pos.of_uint_acc l ?a] => specialize (IH a) end;
    assert (0 < 10 ^ Z.of_nat (Decimal.nb_digits l)) by (apply Z.pow_pos_nonneg; lia);
    nia.
Qed.

Lemma string_of_uint_length (u : Decimal.uint) :
  String.length (NilEmpty.string_of_uint u) = Decimal.nb_digits u.
Proof. induction u; simpl; congruence. Qed.

Lemma to_uint_no_leading_zero (p : positive) (l : Decimal.uint) :
  Pos.to_uint p ≠ Decimal.D0 l.
Proof.
  intros Hp.
  pose proof (DecimalPos.Unsigned.to_of (Pos.to_uint p)) as Hnorm.
  rewrite DecimalPos.Unsigned.of_to in Hnorm. cbn [N.to_uint] in Hnorm.
  rewrite Hp in Hnorm. change (Decimal.unorm (Decimal.D0 l)) with (Decimal.unorm l) in Hnorm.
  assert (Hcases : l = Decimal.Nil ∨ l ≠ Decimal.Nil) by (destruct l; auto).
  destruct Hcases as [->|Hl].
  - by apply (DecimalPos.Unsigned.to_uint_nonzero p).
  - pose proof (DecimalFacts.nb_digits_unorm l Hl) as Hle.
    rewrite <- Hnorm in Hle. simpl in Hle. lia.
Qed.

(** A positive number with [n] decimal digits lies between [10 ^ (n - 1)]
    and [10 ^ n]. *)
Lemma to_string_bounds (z : Z) :
  0 < z →
  10 ^ (Z.of_nat (String.length (to_string z)) - 1) <= z
  < 10 ^ Z.of_nat (String.length (to_string z)).
Proof.
  intros Hz. destruct z as [|p|p]; [lia| |lia].
  unfold to_string. cbn [Z.to_int NilZero.string_of_int].
  pose proof (DecimalPos.Unsigned.of_to p) as Hof.
  pose proof (to_uint_no_leading_zero p) as Hlead.
  pose proof (DecimalPos.Unsigned.to_uint_nonnil p) as Hnil.
  destruct (Pos.to_uint p) as [|l|l|l|l|l|l|l|l|l|l] eqn:Hu;
    [done|by destruct (Hlead l)|..];
    cbn [NilZero.string_of_uint NilEmpty.string_of_uint String.length];
    rewrite string_of_uint_length;
    cbn [Pos.of_uint] in Hof; injection Hof as <-;
    match goal with |- context [Pos.of_uint_acc l ?a] =>
      pose proof (of_uint_acc_bounds l a) as Hb end;
    rewrite Nat2Z.inj_succ, Z.pow_succ_r by lia;
    replace (Z.succ (Z.of_nat (Decimal.nb_digits l)) - 1)
      with (Z.of_nat (Decimal.nb_digits l)) by lia;
    assert (0 < 10 ^ Z.of_nat (Decimal.nb_digits l)) by (apply Z.pow_pos_nonneg; lia);
    nia.
Qed.

Lemma to_string_length_mono (v n : Z) :
  0 <= v <= n → (String.length (to_string v) <= String.length (to_string n))%nat.
Proof.
  intros Hv.
  assert (Hn1 : (1 <= String.length (to_string n))%nat).
  { pose proof (to_string_nonempty n). destruct (to_string n); simpl; [done|lia]. }
  destruct (decide (v = 0)) as [->|Hv0]; [exact Hn1|].
  pose proof (to_string_bounds v ltac:(lia)) as Hbv.
  pose proof (to_string_bounds n ltac:(lia)) as Hbn.
  assert (Hlt : 10 ^ (Z.of_nat (String.length (to_string v)) - 1)
                < 10 ^ Z.of_nat (String.length (to_string n))) by lia.
  apply Z.pow_lt_mono_r_iff in Hlt; lia.
Qed.

(** ** The display of a state *)

Lemma string_app_length (s t : string) :
  String.length (s +:+ t) = (String.length s + String.length t)%nat.
Proof. induction s as [|c s IH]; simpl; [done|]. by rewrite IH. Qed.

Lemma nspaces_length (n : nat) : String.length (nspaces n) = n.
Proof. induction n as [|n IH]; simpl; [done|]. by rewrite IH. Qed.

Lemma concatStrings_app (l1 l2 : list string) :
  concatStrings (l1 ++ l2) = concatStrings l1 +:+ concatStrings l2.
Proof.
  unfold concatStrings. induction l1 as [|s l1 IH]; simpl; [done|].
  by rewrite IH, string_app_assoc.
Qed.

Section DisplayState.
Variables (d : Z) (p : NPuzzle) (s : PuzzleState).
Hypothesis Hd : 1 <= d.
Hypothesis Hlen : len p = d * d.
Hypothesis Hdim : dim p = d.
Hypothesis Hnsz : nsz p = d * d - 1.
Hypothesis Htiles : Forall (λ v, 0 <= v <= d * d - 1) (state s).

Let w : nat := String.length (to_string (nsz p)).
Let step := λ (acc : option string) (i : Z),
  acc ≫= λ o, displayCell (Z.of_nat w) (dim p) s o i.

Lemma display_tile_range (i : Z) : 0 <= vget (state s) i <= d * d - 1.
Proof.
  unfold vget. destruct (state s !! Z.to_nat i) as [v|] eqn:Hv; simpl; [|nia].
  rewrite Forall_forall in Htiles. apply Htiles. by eapply list_elem_of_lookup_2.
Qed.

Lemma display_tile_width (i : Z) :
  (String.length (to_string (vget (state s) i)) <= w)%nat.
Proof.
  unfold w. rewrite Hnsz. apply to_string_length_mono. apply display_tile_range.
Qed.

Lemma paddedCell_length (i : Z) :
  String.length (paddedCell w (vget (state s) i)) = S w.
Proof.
  unfold paddedCell. rewrite string_app_length, nspaces_length.
  pose proof (display_tile_width i). lia.
Qed.

Lemma displayCell_padded (o : string) (i : Z) :
  displayCell (Z.of_nat w) (dim p) s o i
  = Some ((o +:+ paddedCell w (vget (state s) i))
          +:+ (if Z.rem i d =? d - 1 then endl else "")).
Proof.
  unfold displayCell, spaces, paddedCell. rewrite Hdim.
  pose proof (display_tile_width i) as Hw.
  destruct (Z.ltb_spec (Z.of_nat w
              - Z.of_nat (String.length (to_string (vget (state s) i))) + 1) 0)
    as [Hneg|_]; [lia|].
  cbn [mbind option_bind].
  replace (Z.to_nat (Z.of_nat w
             - Z.of_nat (String.length (to_string (vget (state s) i))) + 1))
    with (S w - String.length (to_string (vget (state s) i)))%nat by lia.
  rewrite (string_app_assoc o).
  by destruct (Z.rem i d =? d - 1); rewrite ?string_app_nil_r.
Qed.

Lemma display_cells (o : string) (a : Z) (n : nat) :
  (∀ i, a <= i < a + Z.of_nat n → Z.rem i d ≠ d - 1) →
  foldl step (Some o) (seqZ a (Z.of_nat n))
  = Some (o +:+ concatStrings ((λ i, paddedCell w (vget (state s) i))
                               <$> seqZ a (Z.of_nat n))).
Proof.
  revert o a. induction n as [|n IH]; intros o a Hrem.
  - simpl. by rewrite string_app_nil_r.
  - rewrite Nat2Z.inj_succ, seqZ_cons by lia.
    replace (Z.pred (Z.succ (Z.of_nat n))) with (Z.of_nat n) by lia.
    cbn [foldl fmap list_fmap]. unfold step at 2. cbn [mbind option_bind].
    rewrite displayCell_padded.
    destruct (Z.eqb_spec (Z.rem a d) (d - 1)) as [Heq|_].
    { destruct (Hrem a ltac:(lia) Heq). }
    rewrite string_app_nil_r, IH by (intros i Hi; apply Hrem; lia).
    unfold concatStrings. cbn [foldr]. by rewrite <- string_app_assoc.
Qed.

Lemma rem_row_col (r c : Z) : 0 <= r → 0 <= c < d → Z.rem (r * d + c) d = c.
Proof.
  intros Hr Hc. rewrite Z.rem_mod_nonneg by nia.
  symmetry. apply (Z.mod_unique _ _ r); lia.
Qed.

Lemma display_row (o : string) (r : Z) :
  0 <= r →
  foldl step (Some o) (seqZ (r * d) d)
  = Some (o +:+ (concatStrings ((λ c, paddedCell w (vget (state s) (r * d + c)))
                                <$> seqZ 0 d) +:+ endl)).
Proof.
  intros Hr.
  assert (Hsplit : seqZ (r * d) d
                   = seqZ (r * d) (Z.of_nat (Z.to_nat (d - 1))) ++ [r * d + (d - 1)]).
  { rewrite Z2Nat.id by lia. replace d with ((d - 1) + 1) at 2 by lia.
    by rewrite seqZ_app by lia. }
  rewrite Hsplit, foldl_app, display_cells.
  2:{ intros i Hi. replace i with (r * d + (i - r * d)) by lia.
      rewrite rem_row_col by lia. lia. }
  cbn [foldl]. unfold step. cbn [mbind option_bind].
  rewrite displayCell_padded, rem_row_col, Z.eqb_refl by lia.
  f_equal. rewrite <- !string_app_assoc. f_equal.
  assert (Hcells : (λ c, paddedCell w (vget (state s) (r * d + c))) <$> seqZ 0 d
                   = ((λ i, paddedCell w (vget (state s) i))
                      <$> seqZ (r * d) (Z.of_nat (Z.to_nat (d - 1))))
                     ++ [paddedCell w (vget (state s) (r * d + (d - 1)))]).
  { assert (Hcols : seqZ 0 d = seqZ 0 (d - 1) ++ [d - 1]).
    { replace d with ((d - 1) + 1) at 1 by lia. by rewrite seqZ_app by lia. }
    rewrite Hcols, fmap_app, Z2Nat.id by lia. f_equal.
    replace (seqZ (r * d) (d - 1)) with (seqZ (r * d + 0) (d - 1)) by (f_equal; lia).
    rewrite <- (fmap_add_seqZ (r * d) 0), <- list_fmap_compose.
    apply list_fmap_ext. intros _ c _. reflexivity. }
  rewrite Hcells, concatStrings_app.
  change (concatStrings [paddedCell w (vget (state s) (r * d + (d - 1)))])
    with (paddedCell w (vget (state s) (r * d + (d - 1))) +:+ "").
  by rewrite string_app_nil_r, <- string_app_assoc.
Qed.

Lemma display_rows (o : string) (k : nat) :
  foldl step (Some o) (seqZ 0 (Z.of_nat k * d))
  = Some (o +:+ concatStrings
            ((λ r, concatStrings ((λ c, paddedCell w (vget (state s) (r * d + c)))
                                  <$> seqZ 0 d) +:+ endl)
             <$> seqZ 0 (Z.of_nat k))).
Proof.
  induction k as [|k IH].
  - simpl. by rewrite string_app_nil_r.
  - replace (Z.of_nat (S k) * d) with (Z.of_nat k * d + d) by lia.
    rewrite seqZ_app, foldl_app, IH, Z.add_0_l by nia. rewrite display_row by lia.
    f_equal. rewrite <- string_app_assoc. f_equal.
    rewrite Nat2Z.inj_succ. unfold Z.succ.
    rewrite seqZ_app, fmap_app, concatStrings_app by lia.
    f_equal. rewrite Z.add_0_l. change (seqZ (Z.of_nat k) 1) with [Z.of_nat k].
    cbn [fmap list_fmap]. unfold concatStrings at 2. cbn [foldr].
    by rewrite string_app_nil_r.
Qed.

Lemma displayState_text (out : string) :
  displayState p s out = Some (out +:+ gridText w d s).
Proof.
  unfold displayState, gridText. rewrite Hlen.
  pose proof (display_rows out (Z.to_nat d)) as Hrows.
  rewrite Z2Nat.id in Hrows by lia. exact Hrows.
Qed.

(** X11. [displayState] aligns the numbers: for an instance of side [d]
    and a state whose tiles lie between 0 and [d * d - 1] it does not
    throw, and it prints [d] lines of [d] cells, where each cell holds a
    number followed by spaces and has exactly one character more than the
    largest tile has digits. *)
Theorem displayState_aligned (out : string) :
  displayState p s out
  = Some (out +:+ gridText (String.length (to_string (nsz p))) d s) ∧
  ∀ i, String.length
         (paddedCell (String.length (to_string (nsz p))) (vget (state s) i))
       = S (String.length (to_string (nsz p))).
Proof.
  split; [apply displayState_text|apply paddedCell_length].
Qed.
End DisplayState.

Lemma foldl_bind_None {A B} (step : A → B → option A) (l : list B) :
  foldl (λ acc i, acc ≫= λ o, step o i) None l = None.
Proof. induction l as [|i l IH]; [done|]. exact IH. Qed.

(** X12. [displayState] throws on a number that is too long: when a tile
    of the state has at least two digits more than the size of the puzzle,
    the padding of its cell gets a negative length and the construction of
    the padding throws [std::length_error]. *)
Theorem displayState_throws (p : NPuzzle) (s : PuzzleState) (out : string) (i : Z) :
  0 <= i < len p →
  (String.length (to_string (nsz p)) + 1
   < String.length (to_string (vget (state s) i)))%nat →
  displayState p s out = None.
Proof.
  intros Hi Hlong. unfold displayState.
  assert (Hsplit : seqZ 0 (len p) = seqZ 0 i ++ i :: seqZ (i + 1) (len p - i - 1)).
  { replace (len p) with (i + (1 + (len p - i - 1))) at 1 by lia.
    rewrite seqZ_app, Z.add_0_l by lia. f_equal.
    rewrite seqZ_cons by lia. f_equal. f_equal; lia. }
  rewrite Hsplit, foldl_app. cbn [foldl].
  match goal with |- foldl ?fn (?acc ≫= ?k) _ = None =>
    assert (Hnone : acc ≫= k = None) end.
  { match goal with |- ?acc ≫= _ = None => destruct acc as [o|]; [|done] end.
    cbn [mbind option_bind]. unfold displayCell, spaces.
    destruct (Z.ltb_spec (Z.of_nat (String.length (to_string (nsz p)))
                - Z.of_nat (String.length (to_string (vget (state s) i))) + 1) 0)
      as [_|Hge]; [done|lia]. }
  rewrite Hnone. apply foldl_bind_None.
Qed.

(** ** The verbose search *)

Section VerboseStep.
Context {F : FloatOps} {T : FloatText} {Q : Type} {FQ : FrontierQueue Q}.

(** An iteration that goes on does so whatever the fuel is. *)
Lemma solve_step_continue_fuel (fuel fuel' : nat) heuristic p current (q1 : Q) p' q' :
  solve_step fuel heuristic p current q1 = Continue p' q' →
  solve_step fuel' heuristic p current q1 = Continue p' q'.
Proof.
  unfold solve_step. destruct (isGoal (len p) current); [|done].
  by destruct (retracePath fuel _ current).
Qed.

Lemma admitChildren_nsz heuristic current key children p (q : Q) :
  nsz (foldl (admitChild heuristic current key) (p, q) children).1 = nsz p.
Proof.
  revert p q. induction children as [|c children IH]; intros p q; [done|].
  cbn [foldl]. unfold admitChild at 2.
  destruct (negb _ || negb _); [apply IH|]. by rewrite IH.
Qed.

Lemma solve_step_nsz (fuel : nat) heuristic p current (q1 : Q) p' q' :
  solve_step fuel heuristic p current q1 = Continue p' q' → nsz p' = nsz p.
Proof.
  unfold solve_step. destruct (isGoal (len p) current).
  { by destruct (retracePath fuel _ current). }
  destruct (vempty _); [|by intros [= <- <-]].
  pose proof (admitChildren_nsz heuristic current (getKey (len p) current)
                (generateChildren (dim p) current)
                (set_exploredStates
                   (<[getKey (len p) current := current]>
                      (exploredStates (set_frontierStates
                         (<[getKey (len p) current := PuzzleState_default]>
                            (frontierStates p)) p)))
                   (set_expanded (expanded (set_frontierStates
                         (<[getKey (len p) current := PuzzleState_default]>
                            (frontierStates p)) p) + 1)
                      (set_frontierStates
                         (<[getKey (len p) current := PuzzleState_default]>
                            (frontierStates p)) p))) q1) as Hnsz.
  destruct (foldl _ _ _) as [p3 q3]. cbn [fst] in Hnsz.
  destruct (maxQueue p3 <? fq_size q3); intros [= <- <-]; exact Hnsz.
Qed.

(** When the state taken from the queue can be displayed, an iteration of
    the verbose loop does to the instance and to the queue what the
    iteration of the silent loop does. *)
Lemma solveVerbose_step_agree (fuel : nat) heuristic p current (q1 : Q)
      (startExpanded : bool) (out : string) :
  (∀ o, ∃ o', displayState p current o = Some o') →
  match solve_step fuel heuristic p current q1 with
  | Finished (Some p') =>
      ∃ out', solveVerbose_step fuel heuristic p current q1 startExpanded out
              = VFinished (Some (p', out'))
  | Finished None =>
      solveVerbose_step fuel heuristic p current q1 startExpanded out = VFinished None
  | Continue p' q' =>
      ∃ se' out', solveVerbose_step fuel heuristic p current q1 startExpanded out
                  = VContinue p' q' se' out'
  end.
Proof.
  intros Hshow. unfold solve_step, solveVerbose_step.
  set (key := getKey (len p) current).
  set (p1 := set_frontierStates _ p).
  assert (Hshow1 : ∀ o, ∃ o', displayState p1 current o = Some o') by exact Hshow.
  destruct (isGoal (len p) current).
  { destruct (Hshow1 out) as [out1 ->].
    destruct (retracePath fuel p1 current) as [path|]; [|done]. by eexists. }
  destruct (vempty (state (mapAt (exploredStates p1) key))); [|by eexists _, _].
  destruct startExpanded.
  - match goal with |- context [displayState p1 current ?o] =>
      destruct (Hshow1 o) as [out3 ->] end.
    cbn [mbind option_bind].
    destruct (foldl _ _ _) as [p3 q3]. by eexists _, _.
  - match goal with |- context [displayState p1 current ?o] =>
      destruct (Hshow1 o) as [out2 ->] end.
    cbn [mbind option_bind].
    destruct (foldl _ _ _) as [p3 q3]. by eexists _, _.
Qed.
End VerboseStep.

(** ** The display of the solution *)

Lemma moveHeader_app (o : string) (i mv : Z) :
  moveHeader o i mv = o +:+ moveHeader "" i mv.
Proof. unfold moveHeader. by repeat case_match. Qed.

Section DisplaySolution.
Variables (d : Z) (p : NPuzzle).
Hypothesis Hd : 1 <= d.
Hypothesis Hlen : len p = d * d.
Hypothesis Hdim : dim p = d.
Hypothesis Hnsz : nsz p = d * d - 1.

Let w : nat := String.length (to_string (nsz p)).
Let body := λ (acc : option string) (i : Z),
  acc ≫= λ o,
    let current := default PuzzleState_default (result p !! Z.to_nat i) in
    let o1 := moveHeader o i (move current) in
    o2 ← foldl (λ acc' j, acc' ≫= λ o', displayCell (Z.of_nat w) (dim p) current o' j)
               (Some o1) (seqZ 0 (len p));
    Some (o2 +:+ endl).

Lemma display_blocks (shown rest : list PuzzleState) (o : string) :
  result p = shown ++ rest →
  Forall (λ s, Forall (λ v, 0 <= v <= d * d - 1) (state s)) rest →
  foldl body (Some o) (seqZ (Z.of_nat (length shown)) (Z.of_nat (length rest)))
  = Some (o +:+ solutionText w d (Z.of_nat (length shown)) rest).
Proof.
  revert shown o. induction rest as [|s rest IH]; intros shown o Hres Hrange.
  - simpl. by rewrite string_app_nil_r.
  - apply Forall_cons in Hrange as [Hs Hrange].
    cbn [length]. rewrite Nat2Z.inj_succ, seqZ_cons by lia.
    replace (Z.pred (Z.succ (Z.of_nat (length rest)))) with (Z.of_nat (length rest)) by lia.
    cbn [foldl]. unfold body at 2. cbn [mbind option_bind].
    assert (Hlook : result p !! Z.to_nat (Z.of_nat (length shown)) = Some s).
    { rewrite Nat2Z.id, Hres, lookup_app_r, Nat.sub_diag by lia. done. }
    rewrite Hlook. cbn [default from_option id].
    change (foldl (λ acc' j, acc' ≫= λ o', displayCell (Z.of_nat w) (dim p) s o' j)
                  (Some (moveHeader o (Z.of_nat (length shown)) (move s)))
                  (seqZ 0 (len p)))
      with (displayState p s (moveHeader o (Z.of_nat (length shown)) (move s))).
    rewrite (displayState_text d p s Hd Hlen Hdim Hnsz Hs). cbn [mbind option_bind].
    replace (Z.succ (Z.of_nat (length shown)))
      with (Z.of_nat (length (shown ++ [s]))) by (rewrite length_app; simpl; lia).
    rewrite (IH (shown ++ [s])); [|by rewrite <- app_assoc|done].
    f_equal. cbn [solutionText].
    replace (Z.of_nat (length (shown ++ [s]))) with (Z.of_nat (length shown) + 1)
      by (rewrite length_app; simpl; lia).
    rewrite (moveHeader_app o). fold w.
    by rewrite <- !string_app_assoc.
Qed.

Lemma displaySolution_text (out : string) :
  Forall (λ s, Forall (λ v, 0 <= v <= d * d - 1) (state s)) (result p) →
  displaySolution p out
  = Some (out +:+ endl +:+ "*************** SOLUTION ****************" +:+ endl +:+ endl
              +:+ match result p with
                  | [] => "-- NO SOLUTION --" +:+ endl +:+ endl
                  | _ => ""
                  end
              +:+ solutionText w d 0 (result p)
              +:+ "*****************************************" +:+ endl +:+ endl).
Proof.
  intros Hrange. unfold displaySolution.
  pose proof (display_blocks [] (result p)) as Hblocks.
  cbn [length] in Hblocks. change (Z.of_nat 0) with 0 in Hblocks.
  fold w. fold body. rewrite Hblocks by done. cbn [mbind option_bind].
  f_equal. destruct (result p); rewrite <- ?string_app_assoc; reflexivity.
Qed.
End DisplaySolution.

Lemma legalPath_perm (d : Z) (path : list PuzzleState) (s : PuzzleState) :
  validState d s → state s ≡ₚ goalGrid d → legalPath d (s :: path) →
  Forall (λ t, state t ≡ₚ goalGrid d) (s :: path).
Proof.
  revert s. induction path as [|s2 rest IH]; intros s Hvalid Hsperm Hlegal.
  - by constructor.
  - constructor; [done|].
    destruct Hlegal as [[(c & Hc & Hcs & Hcb & _) _] Hrest].
    destruct (generateChildren_valid d s c Hvalid Hc) as [Hcvalid Hcperm].
    apply IH; [by apply (validState_ext d c s2)| |done].
    by rewrite <- Hcs, Hcperm.
Qed.

Section SearchFields.
Context {F : FloatOps} {Q : Type} {FQ : FrontierQueue Q}.

(** The search keeps the sizes of the instance. *)
Lemma solve_step_sizes (fuel : nat) heuristic p current (q1 : Q) :
  match solve_step fuel heuristic p current q1 with
  | Finished (Some p') | Continue p' _ =>
      nsz p' = nsz p ∧ len p' = len p ∧ dim p' = dim p
  | Finished None => True
  end.
Proof.
  unfold solve_step. destruct (isGoal (len p) current).
  { by destruct (retracePath fuel _ current). }
  destruct (vempty _); [|done].
  match goal with |- context [foldl ?fn (?p2, q1) ?l] =>
    pose proof (admitChildren_nsz heuristic current (getKey (len p) current) l p2 q1)
      as Hnsz;
    pose proof (foldl_preserves
                  (λ pq : NPuzzle * Q, len pq.1 = len p ∧ dim pq.1 = dim p)
                  fn l (p2, q1)) as Hsizes
  end.
  specialize (Hsizes ltac:(done)).
  lapply Hsizes; [clear Hsizes; intros Hsizes|].
  2:{ intros [pa qa] c _ [Hl Hdm]. unfold admitChild.
      by destruct (negb _ || negb _). }
  destruct (foldl _ _ _) as [p3 q3]. cbn [fst] in *.
  destruct Hsizes as [Hl Hdm]. by destruct (maxQueue p3 <? fq_size q3).
Qed.

Lemma solve_loop_sizes (fuel : nat) heuristic p (q : Q) p' :
  solve_loop fuel heuristic p q = Some p' →
  nsz p' = nsz p ∧ len p' = len p ∧ dim p' = dim p.
Proof.
  revert p q. induction fuel as [|fuel IH]; intros p q; [done|].
  cbn [solve_loop]. destruct (fq_pop q) as [[x q1]|]; [|by intros [= <-]].
  pose proof (solve_step_sizes fuel heuristic p x q1) as Hstep.
  destruct (solve_step fuel heuristic p x q1) as [[p0|]|p0 q0].
  - by intros [= <-].
  - done.
  - intros Hloop. destruct (IH _ _ Hloop) as (? & ? & ?).
    destruct Hstep as (? & ? & ?). split; [|split]; congruence.
Qed.

(** The search keeps the start state and the verdict of the solvability
    check. *)
Lemma solve_step_start (fuel : nat) heuristic p current (q1 : Q) :
  match solve_step fuel heuristic p current q1 with
  | Finished (Some p') | Continue p' _ =>
      start p' = start p ∧ solvable p' = solvable p
  | Finished None => True
  end.
Proof.
  unfold solve_step. destruct (isGoal (len p) current).
  { by destruct (retracePath fuel _ current). }
  destruct (vempty _); [|done].
  match goal with |- context [foldl ?fn (?p2, q1) ?l] =>
    pose proof (foldl_preserves
                  (λ pq : NPuzzle * Q, start pq.1 = start p ∧ solvable pq.1 = solvable p)
                  fn l (p2, q1)) as Hkeep
  end.
  specialize (Hkeep ltac:(done)).
  lapply Hkeep; [clear Hkeep; intros Hkeep|].
  2:{ intros [pa qa] c _ [Hs Hv]. unfold admitChild.
      by destruct (negb _ || negb _). }
  destruct (foldl _ _ _) as [p3 q3]. cbn [fst] in *.
  by destruct (maxQueue p3 <? fq_size q3).
Qed.

Lemma solve_loop_start (fuel : nat) heuristic p (q : Q) p' :
  solve_loop fuel heuristic p q = Some p' →
  start p' = start p ∧ solvable p' = solvable p.
Proof.
  revert p q. induction fuel as [|fuel IH]; intros p q; [done|].
  cbn [solve_loop]. destruct (fq_pop q) as [[x q1]|]; [|by intros [= <-]].
  pose proof (solve_step_start fuel heuristic p x q1) as Hstep.
  destruct (solve_step fuel heuristic p x q1) as [[p0|]|p0 q0].
  - by intros [= <-].
  - done.
  - intros Hloop. destruct (IH _ _ Hloop) as (? & ?).
    destruct Hstep as (? & ?). split; congruence.
Qed.
End SearchFields.

(** ** The search: legal paths and completeness *)

Lemma legalChain_insert d grid m x k key z :
  legalChain d grid m x k → state (mapAt m key) = [] →
  legalChain d grid (<[key := z]> m) x k.
Proof.
  revert x. induction k as [|k IH]; intros x; simpl; [done|].
  intros (Hpk & Hne & Hstep & Hchain) Hkey.
  assert (Hneq : key ≠ parentKey x) by (intros ->; done).
  assert (Hsame : mapAt (<[key := z]> m) (parentKey x) = mapAt m (parentKey x)).
  { unfold mapAt. by rewrite lookup_insert_ne. }
  rewrite Hsame. split; [done|]. split; [done|]. split; [done|]. by apply IH.
Qed.

Lemma legalChain_cost d grid m x k : legalChain d grid m x k → g x = Z.of_nat k.
Proof.
  revert x. induction k as [|k IH]; intros x; simpl.
  - by intros (_ & _ & -> & _).
  - intros (_ & _ & [_ Hg] & Hchain). rewrite Hg, (IH _ Hchain). lia.
Qed.

Lemma legalChain_retrace d grid m x k :
  legalChain d grid m x k →
  ∀ fuel acc, (k < fuel)%nat → legalPath d (x :: acc) →
    ∃ pre s0, retracePath_loop fuel m (parentKey x) (x :: acc) = Some (pre ++ x :: acc)
              ∧ length pre = k
              ∧ head (pre ++ [x]) = Some s0 ∧ state s0 = grid ∧ g s0 = 0
              ∧ move s0 = 0 ∧ validState d s0
              ∧ legalPath d (pre ++ x :: acc).
Proof.
  revert x. induction k as [|k IH]; intros x Hchain fuel acc Hfuel Hacc.
  - destruct Hchain as (Hpk & Hst & Hg & Hm & Hv). destruct fuel as [|fuel]; [lia|].
    simpl. rewrite Hpk. simpl. by exists [], x.
  - destruct Hchain as (Hpk & Hne & Hstep & Hchain). destruct fuel as [|fuel]; [lia|].
    cbn [retracePath_loop].
    destruct (String.eqb_spec (parentKey x) "") as [|_]; [done|].
    set (y := mapAt m (parentKey x)) in *.
    destruct (IH y Hchain fuel (x :: acc) ltac:(lia))
      as (pre & s0 & Hrun & Hlen & Hhead & Hs0 & Hg0 & Hm0 & Hv0 & Hlegal).
    { simpl. by split. }
    exists (pre ++ [y]), s0.
    rewrite <- !app_assoc. cbn [app]. split; [done|].
    split; [rewrite length_app; simpl; lia|].
    split; [|done]. by destruct pre.
Qed.

Lemma generateChildren_ext (d : Z) (a b c : PuzzleState) :
  state a = state b → blankIdx a = blankIdx b → c ∈ generateChildren d a →
  ∃ c', c' ∈ generateChildren d b ∧ state c' = state c ∧ blankIdx c' = blankIdx c.
Proof.
  intros Hst Hb Hc. apply generateChildren_elem in Hc.
  rewrite Hb in Hc.
  destruct Hc as [[Hf ->]|[[Hf ->]|[[Hf ->]|[Hf ->]]]].
  - exists (moveBlank b (- d) 1). split.
    + apply generateChildren_elem. by left.
    + unfold moveBlank. cbn [state blankIdx]. by rewrite Hst, Hb.
  - exists (moveBlank b d 2). split.
    + apply generateChildren_elem. right. by left.
    + unfold moveBlank. cbn [state blankIdx]. by rewrite Hst, Hb.
  - exists (moveBlank b (-1) 3). split.
    + apply generateChildren_elem. right. right. by left.
    + unfold moveBlank. cbn [state blankIdx]. by rewrite Hst, Hb.
  - exists (moveBlank b 1 4). split.
    + apply generateChildren_elem. right. right. by right.
    + unfold moveBlank. cbn [state blankIdx]. by rewrite Hst, Hb.
Qed.

Lemma validState_blankIdx_unique (d : Z) (a b : PuzzleState) :
  validState d a → validState d b → NoDup (state a) → state a = state b →
  blankIdx a = blankIdx b.
Proof.
  intros (Hd & Hla & Hba & H0a) (_ & Hlb & Hbb & H0b) Hnodup Hst.
  pose proof (vget_lookup_Some (state a) (blankIdx a) ltac:(lia)) as H1.
  pose proof (vget_lookup_Some (state b) (blankIdx b) ltac:(lia)) as H2.
  rewrite H0a in H1. rewrite H0b, <- Hst in H2.
  pose proof (NoDup_lookup _ _ _ _ Hnodup H1 H2). lia.
Qed.

Section AdmitFrontier.
Context {F : FloatOps} {Q : Type} {FQ : FrontierQueue Q} {FQL : FrontierQueueLaws Q}.

(** What the loop over the children does to the frontier registry: entries
    are only added, every child ends up registered as explored or as
    frontier state, and each new entry has its state in the queue. *)
Lemma admitChildren_frontier heuristic current key children p (q : Q) :
  (∀ c, c ∈ children → state c ≠ []) →
  (∀ k, vempty (state (mapAt (frontierStates p) k)) = false →
        ∃ x, x ∈ fq_items q ∧ getKey (len p) x = k) →
  (∀ k, vempty (state (mapAt (frontierStates p) k)) = false →
        vempty (state (mapAt (frontierStates
          (foldl (admitChild heuristic current key) (p, q) children).1) k)) = false) ∧
  (∀ c, c ∈ children →
        vempty (state (mapAt (exploredStates p) (getKey (len p) c))) = false ∨
        vempty (state (mapAt (frontierStates
          (foldl (admitChild heuristic current key) (p, q) children).1)
          (getKey (len p) c))) = false) ∧
  (∀ k, vempty (state (mapAt (frontierStates
          (foldl (admitChild heuristic current key) (p, q) children).1) k)) = false →
        ∃ x, x ∈ fq_items (foldl (admitChild heuristic current key) (p, q) children).2
             ∧ getKey (len p) x = k) ∧
  (∀ x, x ∈ fq_items q →
        x ∈ fq_items (foldl (admitChild heuristic current key) (p, q) children).2).
Proof.
  revert p q. induction children as [|c children IH]; intros p q Hne Hfq.
  { cbn [foldl fst snd]. split; [done|]. split; [|done].
    intros c Hc. by apply elem_of_nil in Hc. }
  cbn [foldl].
  assert (Hstep : ∃ p1 q1, admitChild heuristic current key (p, q) c = (p1, q1) ∧
            exploredStates p1 = exploredStates p ∧ len p1 = len p ∧
            (∀ k, vempty (state (mapAt (frontierStates p) k)) = false →
                  vempty (state (mapAt (frontierStates p1) k)) = false) ∧
            (vempty (state (mapAt (exploredStates p) (getKey (len p) c))) = false ∨
             vempty (state (mapAt (frontierStates p1) (getKey (len p) c))) = false) ∧
            (∀ k, vempty (state (mapAt (frontierStates p1) k)) = false →
                  ∃ x, x ∈ fq_items q1 ∧ getKey (len p) x = k) ∧
            (∀ x, x ∈ fq_items q → x ∈ fq_items q1)).
  { unfold admitChild.
    destruct (vempty (state (mapAt (frontierStates p) (getKey (len p) c)))) eqn:Hf;
      cbn [negb orb].
    - destruct (vempty (state (mapAt (exploredStates p) (getKey (len p) c)))) eqn:He;
        cbn [negb].
      + eexists _, _. split; [reflexivity|].
        cbn [exploredStates len frontierStates set_frontierStates].
        split; [done|]. split; [done|].
        assert (Hcne : vempty (state c) = false).
        { apply vempty_false. apply Hne. left. }
        split; [|split; [|split]].
        * intros k Hk. unfold mapAt.
          destruct (decide (getKey (len p) c = k)) as [<-|Hneq].
          -- by rewrite lookup_insert_eq.
          -- by rewrite lookup_insert_ne.
        * right. unfold mapAt. by rewrite lookup_insert_eq.
        * intros k Hk. unfold mapAt in Hk.
          destruct (decide (getKey (len p) c = k)) as [<-|Hneq].
          -- eexists. split; [rewrite fq_items_push; left|]. by apply getKey_state.
          -- rewrite lookup_insert_ne in Hk by done.
             destruct (Hfq k Hk) as (x & Hx & Hkx). exists x.
             split; [rewrite fq_items_push; by right|done].
        * intros x Hx. rewrite fq_items_push. by right.
      + exists p, q. split; [reflexivity|]. split; [done|]. split; [done|].
        split; [done|]. split; [by left|done].
    - exists p, q. split; [reflexivity|]. split; [done|]. split; [done|].
      split; [done|]. split; [by right|done]. }
  destruct Hstep as (p1 & q1 & -> & He1 & Hl1 & Hmono1 & Hc1 & Hfq1 & Hsub1).
  destruct (IH p1 q1) as (Hmono & Hall & Hfq' & Hsub).
  { intros c' Hc'. apply Hne. by right. }
  { rewrite Hl1. exact Hfq1. }
  rewrite He1, Hl1 in *. split; [|split; [|split]].
  - intros k Hk. by apply Hmono, Hmono1.
  - intros c' [->|Hc']%elem_of_cons.
    + destruct Hc1 as [?|Hc1]; [by left|right]. by apply Hmono.
    + by apply Hall.
  - exact Hfq'.
  - intros x Hx. by apply Hsub, Hsub1.
Qed.
End AdmitFrontier.

Lemma reachable_ext_l (d : Z) (a s t : PuzzleState) :
  state a = state s → blankIdx a = blankIdx s → reachable d s t → reachable d a t.
Proof.
  intros Hst Hb Hreach. revert a Hst Hb.
  induction Hreach as [s t Hst' Hb'|s t u (c & Hc & Hcs & Hcb) Hreach IH]; intros a Hst Hb.
  - apply reachable_refl; congruence.
  - destruct (generateChildren_ext d s a c) as (c' & Hc' & Hcs' & Hcb'); [done..|].
    apply (reachable_step d a t u); [|exact Hreach].
    exists c'. split; [done|]. split; congruence.
Qed.

Lemma legalPath_reachable (d : Z) (path : list PuzzleState) (s t : PuzzleState) :
  legalPath d (s :: path) → last (s :: path) = Some t → reachable d s t.
Proof.
  revert s. induction path as [|s2 rest IH]; intros s Hlegal Hlast.
  - simpl in Hlast. injection Hlast as <-. by apply reachable_refl.
  - destruct Hlegal as [[(c & Hc & Hcs & Hcb & _) _] Hrest].
    apply (reachable_step d s s2 t).
    + exists c. done.
    + apply IH; [exact Hrest|]. exact Hlast.
Qed.

Lemma keysInjective_small (d : Z) : 1 <= d <= 3 → keysInjective (d * d) (goalGrid d).
Proof.
  intros Hd a b Ha Hb Hkey.
  assert (Hdigits : ∀ l, l ≡ₚ goalGrid d → Forall (λ v, 0 <= v <= 9) l).
  { intros l Hl. apply Forall_forall. intros v Hv. rewrite Hl in Hv.
    apply goalGrid_elem in Hv; [|lia]. nia. }
  assert (Hlen : ∀ l, l ≡ₚ goalGrid d → Z.of_nat (length l) = d * d).
  { intros l Hl. rewrite (Permutation_length Hl). apply goalGrid_length. lia. }
  apply (getKey_injective_single_digit (d * d) (PuzzleState_of a) (PuzzleState_of b));
    cbn [state PuzzleState_of]; auto.
Qed.

Lemma reachable_perm (d : Z) (s u : PuzzleState) :
  reachable d s u → validState d s → state u ≡ₚ state s.
Proof.
  induction 1 as [s t Hst Hb|s t u (c & Hc & Hcs & Hcb) Hreach IH]; intros Hvalid.
  - by rewrite Hst.
  - destruct (generateChildren_valid d s c Hvalid Hc) as [Hcvalid Hcperm].
    rewrite IH, <- Hcs; [done|]. by apply (validState_ext d c t).
Qed.

Lemma reachableIn_reachable (d : Z) (n : nat) (s u : PuzzleState) :
  reachableIn d n s u → reachable d s u.
Proof.
  induction 1 as [s t Hst Hb|n s t u Hmove Hreach IH].
  - by apply reachable_refl.
  - by apply (reachable_step d s t u).
Qed.

Lemma mapAt_insert_eq (m : gmap string PuzzleState) (k : string) (z : PuzzleState) :
  mapAt (<[k := z]> m) k = z.
Proof. unfold mapAt. by rewrite lookup_insert_eq. Qed.

Lemma mapAt_insert_ne (m : gmap string PuzzleState) (k k' : string) (z : PuzzleState) :
  k ≠ k' → mapAt (<[k := z]> m) k' = mapAt m k'.
Proof. intros Hne. unfold mapAt. by rewrite lookup_insert_ne. Qed.

Lemma perm_goalGrid_nonempty (d : Z) (l : list Z) : 1 <= d → l ≡ₚ goalGrid d → l ≠ [].
Proof.
  intros Hd Hperm ->. apply Permutation_nil_l in Hperm.
  pose proof (goalGrid_length d Hd) as Hgl. rewrite <- Hperm in Hgl.
  simpl in Hgl. lia.
Qed.

Section AdmitCost.
Context {F : FloatOps} {Q : Type} {FQ : FrontierQueue Q} {FQL : FrontierQueueLaws Q}.

(** The states that the loop over the children adds to the queue: the
    children with the path cost of the expanded state plus one, the
    heuristic cost of the selector, their sum, and the key of the expanded
    state as parent key. *)
Lemma admitChildren_cost (P : PuzzleState → Prop) heuristic current key children p (q : Q) :
  Forall P (fq_items q) →
  (∀ c, c ∈ children →
     P (mkPuzzleState (state c) (blankIdx c) (g current + 1)
          (getHeuristicCost (len p) (dim p) c heuristic)
          (inject_Z (g current + 1) + getHeuristicCost (len p) (dim p) c heuristic)%Q
          (move c) key)) →
  Forall P (fq_items (foldl (admitChild heuristic current key) (p, q) children).2).
Proof.
  revert p q. induction children as [|c children IH]; intros p q Hq HP.
  { exact Hq. }
  cbn [foldl].
  assert (Hstep : ∃ p1 q1, admitChild heuristic current key (p, q) c = (p1, q1) ∧
            Forall P (fq_items q1) ∧ len p1 = len p ∧ dim p1 = dim p).
  { unfold admitChild.
    destruct (negb (vempty (state (mapAt (frontierStates p) (getKey (len p) c))))
              || negb (vempty (state (mapAt (exploredStates p) (getKey (len p) c))))).
    - by exists p, q.
    - eexists _, _. split; [reflexivity|]. split; [|done].
      rewrite fq_items_push. constructor; [|exact Hq]. apply HP. left. }
  destruct Hstep as (p1 & q1 & -> & Hq1 & Hl1 & Hd1).
  apply IH; [exact Hq1|]. intros c' Hc'. rewrite Hl1, Hd1. apply HP. by right.
Qed.
End AdmitCost.

Section FullSearch.
Context {F : FloatOps} {Q : Type} {FQ : FrontierQueue Q} {FQL : FrontierQueueLaws Q}.
Variables (d : Z) (grid : list Z) (heuristic : Z).
Hypothesis Hd : 1 <= d.
Hypothesis Hperm : grid ≡ₚ goalGrid d.

Let universe : gset string := arrangementKeys (d * d) (goalGrid d).
Let startKey : string := getKey (d * d) (PuzzleState_of grid).

(** What holds of a queued state: its parent keys lead back to the start
    grid through explored states, by legal moves. *)
Let flinked (m : gmap string PuzzleState) (x : PuzzleState) : Prop :=
  state x ≡ₚ goalGrid d ∧ validState d x ∧
  ∃ k, legalChain d grid m x k ∧ (k <= size (exploredKeys m))%nat.

Let held (m : gmap string PuzzleState) (k : string) : Prop :=
  vempty (state (mapAt m k)) = false.

(** Every explored state is a valid state that is no goal, stored under its
    own key, and each of its children is explored or on the frontier. *)
Let closed (e f : gmap string PuzzleState) : Prop :=
  ∀ k, held e k →
    state (mapAt e k) ≡ₚ goalGrid d ∧ validState d (mapAt e k) ∧
    isGoal (d * d) (mapAt e k) = false ∧ getKey (d * d) (mapAt e k) = k ∧
    ∀ c, c ∈ generateChildren d (mapAt e k) →
         held e (getKey (d * d) c) ∨ held f (getKey (d * d) c).

Let finv (p : NPuzzle) (q : Q) : Prop :=
  len p = d * d ∧ dim p = d ∧
  Forall (flinked (exploredStates p)) (fq_items q) ∧
  exploredKeys (exploredStates p) ⊆ universe ∧
  result p = [] ∧
  (∀ k, held (frontierStates p) k → ∃ x, x ∈ fq_items q ∧ getKey (d * d) x = k) ∧
  closed (exploredStates p) (frontierStates p) ∧
  (held (exploredStates p) startKey ∨ ∃ x, x ∈ fq_items q ∧ getKey (d * d) x = startKey).

Let fpotential (p : NPuzzle) (q : Q) : nat :=
  (5 * size (universe ∖ exploredKeys (exploredStates p)) + length (fq_items q))%nat.

(** The search has found a path of legal moves to a goal. *)
Let found (p' : NPuzzle) : Prop :=
  legalSolution d grid (result p') ∧ goalDepth p' = Z.of_nat (length (result p')).

(** The search has run out of states: the explored states are closed under
    the moves, and the start is among them. *)
Let exhausted (p' : NPuzzle) : Prop :=
  result p' = [] ∧ held (exploredStates p') startKey ∧
  closed (exploredStates p') ∅.

Lemma held_insert (m : gmap string PuzzleState) (k k' : string) (z : PuzzleState) :
  state z ≠ [] → held m k' → held (<[k := z]> m) k'.
Proof.
  unfold held. intros Hz Hk. destruct (decide (k = k')) as [<-|Hne].
  - rewrite mapAt_insert_eq. by apply vempty_false.
  - by rewrite mapAt_insert_ne.
Qed.

Lemma held_reset (m : gmap string PuzzleState) (k k' : string) :
  held (<[k := PuzzleState_default]> m) k' ↔ k ≠ k' ∧ held m k'.
Proof.
  unfold held. destruct (decide (k = k')) as [<-|Hne].
  - rewrite mapAt_insert_eq. split; [done|]. by intros [? _].
  - rewrite mapAt_insert_ne by done. split; [done|]. by intros [_ ?].
Qed.

Lemma fsearch_step (fuel : nat) (p : NPuzzle) (q q1 : Q) (x : PuzzleState) :
  finv p q → fq_pop q = Some (x, q1) → (size universe < fuel)%nat →
  (∃ p', solve_step fuel heuristic p x q1 = Finished (Some p') ∧ found p') ∨
  (∃ p' q', solve_step fuel heuristic p x q1 = Continue p' q' ∧
            finv p' q' ∧ (fpotential p' q' < fpotential p q)%nat).
Proof.
  intros (Hlen & Hdim & Hq & Hsub & Hres & Hfront & Hclosed & Hstart) Hpop Hfuel.
  apply fq_pop_Some in Hpop.
  assert (Hlenq : length (fq_items q) = S (length (fq_items q1))).
  { by rewrite Hpop. }
  assert (Hin : ∀ y, y ∈ fq_items q → y = x ∨ y ∈ fq_items q1).
  { intros y Hy. rewrite Hpop in Hy. by apply elem_of_cons in Hy. }
  rewrite Hpop in Hq.
  apply Forall_cons in Hq as [(Hxperm & Hxvalid & kx & Hxchain & Hkx) Hq1].
  pose proof (subseteq_size _ _ Hsub) as Hsize.
  unfold solve_step. rewrite Hlen, Hdim.
  cbn [exploredStates set_frontierStates expanded].
  set (key := getKey (d * d) x).
  assert (Hfront1 : ∀ k, held (<[key := PuzzleState_default]> (frontierStates p)) k →
                         ∃ y, y ∈ fq_items q1 ∧ getKey (d * d) y = k).
  { intros k [Hne Hk]%held_reset. destruct (Hfront k Hk) as (y & Hy & Hyk).
    destruct (Hin y Hy) as [->|Hy1]; [done|]. by exists y. }
  destruct (isGoal (d * d) x) eqn:Hgoal.
  { (* the goal is popped *)
    left. unfold retracePath. cbn [exploredStates set_frontierStates].
    destruct (legalChain_retrace d grid _ x kx Hxchain fuel [] ltac:(lia) I)
      as (pre & s0 & -> & Hpre & Hhead & Hs0 & Hg0 & Hm0 & Hv0 & Hlegal).
    eexists. split; [reflexivity|]. unfold found.
    cbn [result goalDepth set_goalDepth set_result]. split; [|done].
    exists s0, x.
    split; [done|]. split; [done|]. split; [done|]. split; [done|]. split; [done|].
    split; [by rewrite last_snoc|]. split; [done|]. split; [|done].
    rewrite (legalChain_cost _ _ _ _ _ Hxchain), length_app, Hpre. simpl. lia. }
  right.
  destruct (vempty (state (mapAt (exploredStates p) key))) eqn:Hemp.
  - (* the state is expanded *)
    assert (Hnew : key ∉ exploredKeys (exploredStates p)).
    { rewrite elem_of_exploredKeys. congruence. }
    assert (Hxne : state x ≠ []) by (by eapply perm_goalGrid_nonempty).
    assert (Hku : key ∈ universe) by (by apply arrangementKeys_elem).
    set (m' := <[key := x]> (exploredStates p)).
    set (f1 := <[key := PuzzleState_default]> (frontierStates p)) in *.
    set (p2 := set_exploredStates _ _).
    assert (He2 : exploredKeys m' = {[key]} ∪ exploredKeys (exploredStates p)).
    { by apply exploredKeys_insert. }
    assert (Hsz2 : size (exploredKeys m') = S (size (exploredKeys (exploredStates p)))).
    { rewrite He2, size_union by (by apply disjoint_singleton_l).
      by rewrite size_singleton. }
    assert (Hat : mapAt m' key = x) by apply mapAt_insert_eq.
    assert (Hlift : ∀ y, flinked (exploredStates p) y → flinked m' y).
    { intros y (Hyp & Hyv & k & Hyc & Hk). split; [done|]. split; [done|].
      exists k. split; [|lia].
      apply legalChain_insert; [done|]. by apply vempty_true. }
    assert (Hq1' : Forall (flinked m') (fq_items q1)).
    { eapply Forall_impl; [exact Hq1|exact Hlift]. }
    pose proof (admitChildren_inv (λ _, True) heuristic x key
                  (generateChildren d x) p2 q1) as Hfold.
    destruct Hfold as (_ & He3 & Hl3 & Hd3 & Hr3 & _ & Hlen3).
    { by apply Forall_forall. }
    { done. }
    pose proof (admitChildren_cost (flinked m') heuristic x key
                  (generateChildren d x) p2 q1 Hq1') as Hq3.
    pose proof (admitChildren_frontier heuristic x key (generateChildren d x) p2 q1)
      as Hfr.
    destruct Hfr as (Hmono & Hall & Hfront3 & Hsub3).
    { intros c Hc. destruct (generateChildren_valid d x c Hxvalid Hc) as [_ Hcperm].
      eapply perm_goalGrid_nonempty; [done|]. by rewrite Hcperm. }
    { intros k Hk. change (len p2) with (len p). rewrite Hlen. by apply Hfront1. }
    change (len p2) with (len p) in Hall, Hfront3. rewrite Hlen in Hall, Hfront3.
    change (exploredStates p2) with m' in Hall, He3.
    change (frontierStates p2) with f1 in Hmono.
    lapply Hq3.
    2:{ intros c Hc.
      destruct (generateChildren_valid d x c Hxvalid Hc) as [Hcvalid Hcperm].
      split; [cbn [state]; by rewrite Hcperm|]. split; [exact Hcvalid|].
      exists (S kx). split; [|lia]. cbn [legalChain parentKey].
      rewrite Hat. split; [apply getKey_nonempty; nia|]. split; [done|].
      split.
      - split; [|done]. exists c. done.
      - apply legalChain_insert; [done|]. by apply vempty_true. }
    clear Hq3. intros Hq3.
    destruct (foldl _ _ _) as [p3 q3]. cbn [fst snd] in *.
    eexists _, q3. split; [reflexivity|].
    assert (Hfields : ∀ p4, (p4 = p3 ∨ p4 = set_maxQueue (fq_size q3) p3) →
              finv p4 q3 ∧ (fpotential p4 q3 < fpotential p q)%nat).
    { intros p4 Hp4.
      assert (Hsame : exploredStates p4 = m' ∧ len p4 = len p
                      ∧ dim p4 = dim p ∧ result p4 = result p
                      ∧ frontierStates p4 = frontierStates p3).
      { destruct Hp4 as [-> | ->];
          cbn [exploredStates len dim result frontierStates set_maxQueue];
          rewrite He3, Hl3, Hd3, Hr3; done. }
      destruct Hsame as (He4 & Hl4 & Hd4 & Hr4 & Hf4).
      split.
      - unfold finv. rewrite He4, Hl4, Hd4, Hr4, Hf4.
        split; [done|]. split; [done|]. split; [done|].
        split.
        { rewrite He2.
          intros k [->%elem_of_singleton|Hk]%elem_of_union; [done|by apply Hsub]. }
        split; [done|]. split; [exact Hfront3|]. split.
        + intros k Hk. destruct (decide (key = k)) as [<-|Hne].
          * rewrite Hat. split; [done|]. split; [done|]. split; [done|].
            split; [done|]. exact Hall.
          * unfold held in Hk. unfold m' in Hk |- *.
            rewrite mapAt_insert_ne in Hk |- * by done.
            destruct (Hclosed k Hk) as (? & ? & ? & ? & Hch).
            split; [done|]. split; [done|]. split; [done|]. split; [done|].
            intros c Hc. destruct (Hch c Hc) as [He|Hf].
            -- left. by apply held_insert.
            -- destruct (decide (key = getKey (d * d) c)) as [<-|Hnec].
               ++ left. unfold held. by rewrite mapAt_insert_eq, vempty_false.
               ++ right. apply Hmono. apply held_reset. done.
        + destruct Hstart as [He|(y & Hy & Hyk)].
          * left. by apply held_insert.
          * destruct (Hin y Hy) as [->|Hy1].
            -- left. rewrite <- Hyk. fold key. unfold held.
               by rewrite Hat, vempty_false.
            -- right. exists y. split; [by apply Hsub3|done].
      - unfold fpotential. rewrite He4, He2, Hlenq.
        pose proof (generateChildren_length d x) as Hch.
        assert (Hsz : (size (universe ∖ ({[key]} ∪ exploredKeys (exploredStates p)))
                       < size (universe ∖ exploredKeys (exploredStates p)))%nat).
        { apply subset_size. apply strict_spec_alt. split.
          - intros k [Hk1 Hk]%elem_of_difference. apply elem_of_difference.
            split; [done|]. intros Hke. apply Hk, elem_of_union. by right.
          - intros Heq.
            assert (Hin' : key ∈ universe ∖ exploredKeys (exploredStates p)).
            { by apply elem_of_difference. }
            rewrite <- Heq in Hin'. apply elem_of_difference in Hin' as [_ Hin'].
            apply Hin', elem_of_union. left. by apply elem_of_singleton. }
        lia. }
    destruct (maxQueue p3 <? fq_size q3); apply Hfields; [by right|by left].
  - (* the state was explored before *)
    eexists _, q1. split; [reflexivity|]. split.
    + unfold finv. cbn [len dim exploredStates frontierStates result set_frontierStates].
      split; [done|]. split; [done|]. split; [done|]. split; [done|]. split; [done|].
      split; [exact Hfront1|]. split.
      * intros k Hk. destruct (Hclosed k Hk) as (? & ? & ? & ? & Hch).
        split; [done|]. split; [done|]. split; [done|]. split; [done|].
        intros c Hc. destruct (Hch c Hc) as [He|Hf]; [by left|].
        destruct (decide (key = getKey (d * d) c)) as [<-|Hnec].
        -- by left.
        -- right. apply held_reset. done.
      * destruct Hstart as [He|(y & Hy & Hyk)]; [by left|].
        destruct (Hin y Hy) as [->|Hy1].
        -- left. by rewrite <- Hyk.
        -- right. by exists y.
    + unfold fpotential. cbn [exploredStates set_frontierStates]. lia.
Qed.

Lemma fsearch_loop (fuel : nat) (p : NPuzzle) (q : Q) :
  finv p q → (fpotential p q + size universe + 1 < fuel)%nat →
  ∃ p', solve_loop fuel heuristic p q = Some p' ∧ (exhausted p' ∨ found p').
Proof.
  revert p q. induction fuel as [|fuel IH]; intros p q Hinv Hpot; [lia|].
  simpl. destruct (fq_pop q) as [[x q1]|] eqn:Hpop.
  - destruct (fsearch_step fuel p q q1 x Hinv Hpop ltac:(lia))
      as [(p' & -> & Hout)|(p' & q' & -> & Hinv' & Hlt)].
    + exists p'. split; [done|by right].
    + apply IH; [done|lia].
  - exists p. split; [done|]. left.
    apply fq_pop_None in Hpop.
    destruct Hinv as (_ & _ & _ & _ & Hres & Hfront & Hclosed & Hstart).
    rewrite Hpop in Hfront, Hstart. split; [done|]. split.
    + destruct Hstart as [He|(y & Hy & _)]; [done|]. by apply elem_of_nil in Hy.
    + intros k Hk. destruct (Hclosed k Hk) as (? & ? & ? & ? & Hch).
      split; [done|]. split; [done|]. split; [done|]. split; [done|].
      intros c Hc. destruct (Hch c Hc) as [He|Hf]; [by left|].
      destruct (Hfront _ Hf) as (y & Hy & _). by apply elem_of_nil in Hy.
Qed.

Lemma fsearch_start :
  let p := NPuzzle_init grid in
  finv (solve_start p heuristic).1 (fq_push (solve_start p heuristic).2 fq_empty).
Proof.
  intros p.
  destruct (NPuzzle_init_perm d grid Hd Hperm) as (Hlen & Hdim & Hvalid & Hstate).
  fold p in Hlen, Hdim, Hvalid, Hstate.
  unfold finv, solve_start. cbn [fst snd len dim exploredStates frontierStates result
                                  set_frontierStates set_start].
  split; [done|]. split; [done|]. split; [|split; [|split; [|split; [|split]]]].
  - rewrite fq_items_push, fq_items_empty.
    constructor; [|done]. unfold flinked. cbn [state].
    split; [by rewrite Hstate|]. split; [exact Hvalid|].
    exists 0%nat. split; [|lia]. simpl. done.
  - intros k Hk. apply elem_of_exploredKeys in Hk. by vm_compute in Hk.
  - done.
  - intros k Hk. eexists. split; [rewrite fq_items_push; left|].
    unfold held, mapAt in Hk. rewrite Hlen in *.
    match type of Hk with context [<[?k0 := _]> _ !! _] =>
      destruct (decide (k0 = k)) as [Heq|Hne] end.
    + rewrite <- Heq. by apply getKey_state.
    + rewrite lookup_insert_ne in Hk by done. by vm_compute in Hk.
  - intros k Hk. by vm_compute in Hk.
  - right. eexists. split; [rewrite fq_items_push; left|].
    unfold startKey. by apply getKey_state.
Qed.

Lemma held_empty (k : string) : ¬ held ∅ k.
Proof. unfold held, mapAt. rewrite lookup_empty. done. Qed.

(** When the search has run out of states, every state that legal moves
    reach from an explored state is explored, provided that the keys
    identify the arrangements. *)
Lemma exhausted_reachable (e : gmap string PuzzleState) (s u : PuzzleState) :
  keysInjective (d * d) (goalGrid d) → closed e ∅ →
  reachable d s u → state s ≡ₚ goalGrid d → validState d s →
  held e (getKey (d * d) s) →
  held e (getKey (d * d) u) ∧ state u ≡ₚ goalGrid d.
Proof.
  intros Hinj Hclosed Hreach.
  induction Hreach as [s t Hst Hb|s t u (c & Hc & Hcs & Hcb) Hreach IH];
    intros Hsperm Hsvalid Hheld.
  - rewrite <- (getKey_state (d * d) s t Hst), <- Hst. done.
  - destruct (Hclosed _ Hheld) as (Hyperm & Hyvalid & _ & Hykey & Hch).
    set (y := mapAt e (getKey (d * d) s)) in *.
    assert (Hys : state y = state s).
    { apply Hinj; [done..|].
      rewrite <- (getKey_state (d * d) y (PuzzleState_of (state y))) by done.
      rewrite <- (getKey_state (d * d) s (PuzzleState_of (state s))) by done.
      exact Hykey. }
    assert (Hyb : blankIdx y = blankIdx s).
    { apply (validState_blankIdx_unique d); [done..| |done].
      rewrite Hyperm. apply goalGrid_NoDup. }
    destruct (generateChildren_ext d s y c) as (c' & Hc' & Hcs' & Hcb'); [done..|].
    destruct (generateChildren_valid d s c Hsvalid Hc) as [Hcvalid Hcperm].
    apply IH.
    + by rewrite <- Hcs, Hcperm.
    + by apply (validState_ext d c t).
    + destruct (Hch c' Hc') as [He|Hf]; [|by apply held_empty in Hf].
      rewrite <- (getKey_state (d * d) c' t) by congruence. exact He.
Qed.

(** Every run of the search on a grid that passes the solvability check
    ends: with a path of legal moves to a goal, or with all the states
    explored that its moves reach. *)
Lemma fsearch_run :
  solvable (NPuzzle_init grid) = true →
  ∃ fuel p', solve fuel (NPuzzle_init grid) heuristic = Some (p', result p') ∧
             (exhausted p' ∨ found p').
Proof.
  intros Hsolv.
  set (fuel0 := S (fpotential (solve_start (NPuzzle_init grid) heuristic).1
                     (fq_push (solve_start (NPuzzle_init grid) heuristic).2 fq_empty)
                   + size universe + 1)).
  assert (Hfuel : (fpotential (solve_start (NPuzzle_init grid) heuristic).1
                     (fq_push (solve_start (NPuzzle_init grid) heuristic).2 fq_empty)
                   + size universe + 1 < fuel0)%nat) by (unfold fuel0; lia).
  destruct (fsearch_loop fuel0 _ _ fsearch_start Hfuel) as (p' & Hloop & Hout).
  exists fuel0, p'. split; [|exact Hout].
  rewrite solve_unfold by done. by rewrite Hloop.
Qed.

Lemma exhausted_no_goal (p' : NPuzzle) (u : PuzzleState) :
  keysInjective (d * d) (goalGrid d) → exhausted p' →
  reachable d (start (NPuzzle_init grid)) u → state u = goalGrid d → False.
Proof.
  intros Hinj (_ & Hstart & Hclosed) Hreach Hu.
  destruct (NPuzzle_init_perm d grid Hd Hperm) as (Hlen & Hdim & Hvalid & Hstate).
  destruct (exhausted_reachable _ _ u Hinj Hclosed Hreach) as [Hheld Huperm].
  { by rewrite Hstate. }
  { done. }
  { rewrite (getKey_state (d * d) _ (PuzzleState_of grid)) by done. exact Hstart. }
  destruct (Hclosed _ Hheld) as (Hyperm & _ & Hygoal & Hykey & _).
  set (y := mapAt (exploredStates p') (getKey (d * d) u)) in *.
  assert (Hys : state y = state u).
  { apply Hinj; [done..|].
    rewrite <- (getKey_state (d * d) y (PuzzleState_of (state y))) by done.
    rewrite <- (getKey_state (d * d) u (PuzzleState_of (state u))) by done.
    exact Hykey. }
  rewrite (goalGrid_isGoal d y Hd) in Hygoal; [done|congruence].
Qed.

Lemma reachable_solvable (u : PuzzleState) :
  reachable d (start (NPuzzle_init grid)) u → state u = goalGrid d →
  solvable (NPuzzle_init grid) = true.
Proof.
  intros Hreach Hu.
  destruct (NPuzzle_init_perm d grid Hd Hperm) as (Hlen & Hdim & Hvalid & Hstate).
  destruct (reachable_isSolvable d _ u Hreach Hvalid) as [Hsolv Huvalid].
  { rewrite Hstate, Hperm. apply goalGrid_NoDup. }
  change (solvable (NPuzzle_init grid))
    with (isSolvable (len (NPuzzle_init grid)) (dim (NPuzzle_init grid))
                     (start (NPuzzle_init grid))).
  rewrite Hlen, Hdim, Hsolv. by apply goal_isSolvable.
Qed.

Lemma found_reachable (p' : NPuzzle) :
  found p' →
  ∃ u, reachable d (start (NPuzzle_init grid)) u ∧ state u = goalGrid d.
Proof.
  intros [(s0 & sg & Hhead & Hs0 & _ & _ & Hv0 & Hlast & Hgoal & Hlength & Hlegal) _].
  destruct (NPuzzle_init_perm d grid Hd Hperm) as (Hlen & Hdim & Hvalid & Hstate).
  destruct (result p') as [|s path]; [done|]. injection Hhead as ->.
  pose proof (legalPath_reachable d path s0 sg Hlegal Hlast) as Hreach.
  exists sg. split.
  - apply (reachable_ext_l d _ s0); [congruence| |done].
    apply (validState_blankIdx_unique d); [done..| |congruence].
    rewrite Hstate, Hperm. apply goalGrid_NoDup.
  - apply isGoal_perm_goalGrid; [done| |done].
    rewrite (reachable_perm d s0 sg Hreach Hv0), Hs0. exact Hperm.
Qed.

(** X13. On every arrangement of the tiles, with every heuristic selector
    and every lawful queue, [solve] terminates, and a path it returns that
    is not empty is a solution by legal moves: it starts at the start grid
    with path cost 0 and move tag 0, each state results from its
    predecessor by one move of [generateChildren], keeps the move tag of
    that child and costs one more, the last state passes the goal test, the
    length of the path is the path cost of the goal plus one, and
    [goalDepth] is that length. *)
Theorem solve_legal_solution :
  ∃ fuel0, ∀ fuel, (fuel0 <= fuel)%nat →
    ∃ p' path, solve fuel (NPuzzle_init grid) heuristic = Some (p', path) ∧
      result p' = path ∧
      (path = [] ∨
       (legalSolution d grid path ∧ goalDepth p' = Z.of_nat (length path))).
Proof.
  destruct (solvable (NPuzzle_init grid)) eqn:Hsolv.
  - destruct (fsearch_run Hsolv) as (fuel0 & p' & Hrun & Hout).
    exists fuel0. intros fuel Hle. exists p', (result p').
    split; [by apply (solve_mono fuel0)|]. split; [done|].
    destruct Hout as [(Hres & _)|Hfound]; [by left|by right].
  - exists 0%nat. intros fuel _.
    exists (set_result [] (NPuzzle_init grid)), [].
    unfold solve. rewrite Hsolv. simpl. split; [done|]. split; [done|by left].
Qed.

(** X14. For the puzzles of dimension up to 3, where the keys identify the
    states, [solve] is complete: it returns a path that is not empty
    exactly when legal moves lead from the start state to the goal
    arrangement. *)
Theorem solve_complete_small :
  d <= 3 →
  (∃ u, reachable d (start (NPuzzle_init grid)) u ∧ state u = goalGrid d) ↔
  (∃ fuel p' path,
     solve fuel (NPuzzle_init grid) heuristic = Some (p', path) ∧ path ≠ []).
Proof.
  intros Hd3.
  assert (Hinj : keysInjective (d * d) (goalGrid d)).
  { apply keysInjective_small. lia. }
  split.
  - intros (u & Hreach & Hu).
    destruct (fsearch_run (reachable_solvable u Hreach Hu))
      as (fuel & p' & Hrun & [Hex|Hfound]).
    + destruct (exhausted_no_goal p' u Hinj Hex Hreach Hu).
    + exists fuel, p', (result p'). split; [done|].
      destruct Hfound as [(s0 & sg & Hhead & _) _]. by destruct (result p').
  - intros (fuel & p' & path & Hrun & Hne).
    destruct (solvable (NPuzzle_init grid)) eqn:Hsolv.
    + destruct (fsearch_run Hsolv) as (fuel0 & p0 & Hrun0 & Hout).
      apply (solve_mono _ (fuel `max` fuel0)) in Hrun; [|lia].
      apply (solve_mono _ (fuel `max` fuel0)) in Hrun0; [|lia].
      rewrite Hrun0 in Hrun. injection Hrun as -> <-.
      destruct Hout as [(Hres & _)|Hfound]; [done|].
      by apply (found_reachable p').
    + unfold solve in Hrun. rewrite Hsolv in Hrun. simpl in Hrun.
      injection Hrun as _ <-. done.
Qed.

(** *** The verbose search *)

Context {T : FloatText}.

Lemma solve_step_continue_inv (fuel : nat) (p : NPuzzle) (q q1 : Q) (x : PuzzleState)
      (p' : NPuzzle) (q' : Q) :
  finv p q → fq_pop q = Some (x, q1) →
  solve_step fuel heuristic p x q1 = Continue p' q' → finv p' q'.
Proof.
  intros Hinv Hpop Hstep.
  apply (solve_step_continue_fuel fuel (S (size universe))) in Hstep.
  destruct (fsearch_step (S (size universe)) p q q1 x Hinv Hpop ltac:(lia))
    as [(p0 & Hfin & _)|(p0 & q0 & Hcont & Hinv0 & _)].
  - rewrite Hfin in Hstep. done.
  - rewrite Hcont in Hstep. by injection Hstep as <- <-.
Qed.

Lemma queued_displayed (p : NPuzzle) (q : Q) (x : PuzzleState) :
  finv p q → nsz p = d * d - 1 → x ∈ fq_items q →
  ∀ o, ∃ o', displayState p x o = Some o'.
Proof.
  intros (Hlen & Hdim & Hq & _) Hnsz Hx o.
  rewrite Forall_forall in Hq. destruct (Hq x Hx) as (Hxperm & _).
  eexists. apply (displayState_text d p x Hd Hlen Hdim Hnsz).
  apply Forall_forall. intros v Hv. rewrite Hxperm in Hv.
  apply goalGrid_elem in Hv; [lia|done].
Qed.

(** The verbose loop ends as the silent loop does, with the same
    instance. *)
Lemma solveVerbose_loop_agree (fuel : nat) (p : NPuzzle) (q : Q)
      (startExpanded : bool) (out : string) :
  finv p q → nsz p = d * d - 1 →
  match solve_loop fuel heuristic p q with
  | Some p' =>
      ∃ out', solveVerbose_loop fuel heuristic p q startExpanded out = Returns (p', out')
  | None => solveVerbose_loop fuel heuristic p q startExpanded out = OutOfFuel
  end.
Proof.
  revert p q startExpanded out.
  induction fuel as [|fuel IH]; intros p q se out Hinv Hnsz; [done|].
  cbn [solve_loop solveVerbose_loop].
  destruct (fq_pop q) as [[x q1]|] eqn:Hpop; [|by eexists].
  assert (Hx : x ∈ fq_items q).
  { rewrite (fq_pop_Some _ _ _ Hpop). left. }
  pose proof (solveVerbose_step_agree fuel heuristic p x q1 se out
                (queued_displayed p q x Hinv Hnsz Hx)) as Hagree.
  destruct (solve_step fuel heuristic p x q1) as [[p'|]|p' q'] eqn:Hstep.
  - destruct Hagree as [out' ->]. by eexists.
  - by rewrite Hagree.
  - destruct Hagree as (se' & out' & ->).
    apply IH.
    + by apply (solve_step_continue_inv fuel p q q1 x).
    + by rewrite (solve_step_nsz _ _ _ _ _ _ _ Hstep).
Qed.

(** X15. [solveVerbose] is [solve] with console output: on every
    arrangement of the tiles, with every heuristic selector, it does not
    throw, and it returns the path and leaves the instance (the statistics
    and the registries) that [solve] returns and leaves. *)
Theorem solveVerbose_agrees (fuel : nat) (out : string) :
  match solve fuel (NPuzzle_init grid) heuristic with
  | Some (p', path) =>
      ∃ out', solveVerbose fuel (NPuzzle_init grid) heuristic out
              = Returns (p', path, out')
  | None => solveVerbose fuel (NPuzzle_init grid) heuristic out = OutOfFuel
  end.
Proof.
  unfold solve, solveVerbose.
  destruct (solvable (NPuzzle_init grid)); cbn [negb]; [|by eexists].
  pose proof (solveVerbose_loop_agree fuel _ _ false
                (out +:+ "SOLVING PUZZLE..." +:+ endl +:+ endl)
                fsearch_start) as Hagree.
  unfold solve_start in Hagree. cbn [fst snd] in Hagree.
  lapply Hagree.
  2:{ cbn [nsz set_frontierStates set_start NPuzzle_init].
      rewrite (Permutation_length Hperm), goalGrid_length by done. done. }
  clear Hagree. intros Hagree.
  destruct (solve_loop fuel heuristic _ _) as [p2|].
  - destruct Hagree as [out' ->]. by eexists.
  - by rewrite Hagree.
Qed.

(** *** The display of the solution *)

Lemma outcome_range (p' : NPuzzle) :
  exhausted p' ∨ found p' →
  Forall (λ s, Forall (λ v, 0 <= v <= d * d - 1) (state s)) (result p').
Proof.
  intros [(Hres & _)|[(s0 & sg & Hhead & Hs0 & _ & _ & Hv0 & _ & _ & _ & Hlegal) _]].
  - rewrite Hres. constructor.
  - destruct (result p') as [|s path]; [done|]. injection Hhead as ->.
    assert (Hs0perm : state s0 ≡ₚ goalGrid d) by (by rewrite Hs0).
    pose proof (legalPath_perm d path s0 Hv0 Hs0perm Hlegal) as Hall.
    eapply Forall_impl; [exact Hall|]. intros t Ht. apply Forall_forall.
    intros v Hv. rewrite Ht in Hv. apply goalGrid_elem in Hv; [lia|done].
Qed.

Lemma NPuzzle_init_nsz : nsz (NPuzzle_init grid) = d * d - 1.
Proof.
  cbn [nsz NPuzzle_init]. by rewrite (Permutation_length Hperm), goalGrid_length.
Qed.

(** X16. After [solve], [displaySolution] does not throw on any
    arrangement of the tiles, and what it prints is the banner, the line
    -- NO SOLUTION -- when the path is empty, then for each state of the
    path, numbered from 0, the line of its move tag, the grid as
    [displayState] prints it and an empty line, and the closing line. *)
Theorem displaySolution_after_solve (fuel : nat) (p' : NPuzzle)
        (path : list PuzzleState) (out : string) :
  solve fuel (NPuzzle_init grid) heuristic = Some (p', path) →
  displaySolution p' out
  = Some (out +:+ endl +:+ "*************** SOLUTION ****************" +:+ endl +:+ endl
              +:+ match path with
                  | [] => "-- NO SOLUTION --" +:+ endl +:+ endl
                  | _ => ""
                  end
              +:+ solutionText (String.length (to_string (d * d - 1))) d 0 path
              +:+ "*****************************************" +:+ endl +:+ endl).
Proof.
  intros Hrun.
  destruct (NPuzzle_init_perm d grid Hd Hperm) as (Hlen & Hdim & _ & _).
  assert (Hfacts : result p' = path ∧ nsz p' = d * d - 1 ∧ len p' = d * d ∧ dim p' = d ∧
            Forall (λ s, Forall (λ v, 0 <= v <= d * d - 1) (state s)) (result p')).
  { destruct (solvable (NPuzzle_init grid)) eqn:Hsolv.
    - destruct (fsearch_run Hsolv) as (fuel0 & p0 & Hrun0 & Hout).
      pose proof Hrun as Hrun1.
      apply (solve_mono _ (fuel `max` fuel0)) in Hrun1; [|lia].
      apply (solve_mono _ (fuel `max` fuel0)) in Hrun0; [|lia].
      rewrite Hrun0 in Hrun1. injection Hrun1 as -> <-.
      rewrite solve_unfold in Hrun by done.
      destruct (solve_loop fuel heuristic _ _) as [p2|] eqn:Hloop; [|done].
      injection Hrun as <-.
      destruct (solve_loop_sizes _ _ _ _ _ Hloop) as (Hn & Hl & Hdm).
      split; [done|]. split; [rewrite Hn; apply NPuzzle_init_nsz|].
      split; [by rewrite Hl|]. split; [by rewrite Hdm|]. by apply outcome_range.
    - unfold solve in Hrun. rewrite Hsolv in Hrun. cbn [negb] in Hrun.
      injection Hrun as <- <-. cbn [result set_result].
      split; [done|]. split; [apply NPuzzle_init_nsz|]. split; [done|]. split; [done|].
      constructor. }
  destruct Hfacts as (Hres & Hn & Hl & Hdm & Hrange).
  rewrite (displaySolution_text d p' Hd Hl Hdm Hn out Hrange), Hres, Hn. done.
Qed.

(** *** The number of expanded nodes *)

Let counted (p : NPuzzle) : Prop :=
  expanded p = Z.of_nat (size (exploredKeys (exploredStates p))).

Lemma counted_step (fuel : nat) (p : NPuzzle) (q q1 : Q) (x : PuzzleState) :
  finv p q → counted p → fq_pop q = Some (x, q1) →
  match solve_step fuel heuristic p x q1 with
  | Finished (Some p') | Continue p' _ => counted p'
  | Finished None => True
  end.
Proof.
  intros (Hlen & Hdim & Hq & _) Hcount Hpop.
  apply fq_pop_Some in Hpop. rewrite Hpop in Hq.
  apply Forall_cons in Hq as [(Hxperm & _) _].
  unfold solve_step. rewrite Hlen, Hdim.
  cbn [exploredStates set_frontierStates expanded].
  set (key := getKey (d * d) x).
  destruct (isGoal (d * d) x).
  { by destruct (retracePath fuel _ x). }
  destruct (vempty (state (mapAt (exploredStates p) key))) eqn:Hemp; [|done].
  assert (Hnew : key ∉ exploredKeys (exploredStates p)).
  { rewrite elem_of_exploredKeys. congruence. }
  assert (Hxne : state x ≠ []) by (by eapply perm_goalGrid_nonempty).
  set (m' := <[key := x]> (exploredStates p)).
  set (p2 := set_exploredStates _ _).
  assert (Hsz2 : size (exploredKeys m') = S (size (exploredKeys (exploredStates p)))).
  { unfold m'. rewrite exploredKeys_insert, size_union by
      (done || by apply disjoint_singleton_l).
    by rewrite size_singleton. }
  pose proof (admitChildren_inv (λ _, True) heuristic x key
                (generateChildren d x) p2 q1) as Hfold.
  destruct Hfold as (_ & He3 & _ & _ & _ & Hx3 & _).
  { by apply Forall_forall. }
  { done. }
  change (exploredStates p2) with m' in He3.
  change (expanded p2) with (expanded p + 1) in Hx3.
  destruct (foldl _ _ _) as [p3 q3]. cbn [fst snd] in *.
  unfold counted in *.
  destruct (maxQueue p3 <? fq_size q3); cbn [expanded exploredStates set_maxQueue];
    rewrite He3, Hx3, Hsz2; lia.
Qed.

Lemma counted_loop (fuel : nat) (p : NPuzzle) (q : Q) (p' : NPuzzle) :
  finv p q → counted p → solve_loop fuel heuristic p q = Some p' → counted p'.
Proof.
  revert p q. induction fuel as [|fuel IH]; intros p q Hinv Hcount; [done|].
  cbn [solve_loop]. destruct (fq_pop q) as [[x q1]|] eqn:Hpop; [|by intros [= <-]].
  pose proof (counted_step fuel p q q1 x Hinv Hcount Hpop) as Hstep.
  destruct (solve_step fuel heuristic p x q1) as [[p0|]|p0 q0] eqn:Hs.
  - by intros [= <-].
  - done.
  - apply IH; [|done]. by apply (solve_step_continue_inv fuel p q q1 x).
Qed.

(** X17. [nodesExpanded] counts the explored states: after [solve] on an
    arrangement of the tiles, with every heuristic selector, the counter
    [expanded] is the number of keys under which [exploredStates] holds a
    state, so that no state is expanded under a key twice. *)
Theorem solve_expanded_count (fuel : nat) (p' : NPuzzle) (path : list PuzzleState) :
  solve fuel (NPuzzle_init grid) heuristic = Some (p', path) →
  expanded p' = Z.of_nat (size (exploredKeys (exploredStates p'))).
Proof.
  intros Hrun. destruct (solvable (NPuzzle_init grid)) eqn:Hsolv.
  - rewrite solve_unfold in Hrun by done.
    destruct (solve_loop fuel heuristic _ _) as [p2|] eqn:Hloop; [|done].
    injection Hrun as <- _.
    apply (counted_loop fuel _ _ p2 fsearch_start); [|exact Hloop].
    unfold counted, solve_start.
    cbn [fst expanded exploredStates set_frontierStates set_start NPuzzle_init].
    done.
  - unfold solve in Hrun. rewrite Hsolv in Hrun. cbn [negb] in Hrun.
    injection Hrun as <- _. done.
Qed.

(** *** A second search on the same instance *)

(** The start is explored, or it is all that the queue holds. *)
Let started (p : NPuzzle) (q : Q) : Prop :=
  held (exploredStates p) startKey ∨ ∃ s, fq_items q = [s] ∧ state s = grid.

Lemma started_step (fuel : nat) (p : NPuzzle) (q q1 : Q) (x : PuzzleState) :
  finv p q → started p q → grid ≠ goalGrid d → fq_pop q = Some (x, q1) →
  match solve_step fuel heuristic p x q1 with
  | Finished (Some p') | Continue p' _ => held (exploredStates p') startKey
  | Finished None => True
  end.
Proof.
  intros (Hlen & Hdim & Hq & _) Hstarted Hne Hpop.
  apply fq_pop_Some in Hpop.
  assert (Hx : held (exploredStates p) startKey ∨ state x = grid).
  { destruct Hstarted as [He|(s & Hs & Hsg)]; [by left|right].
    rewrite Hs in Hpop. apply Permutation_singleton_l in Hpop.
    by injection Hpop as <- _. }
  rewrite Hpop in Hq.
  apply Forall_cons in Hq as [(Hxperm & _) _].
  assert (Hkey : state x = grid → getKey (d * d) x = startKey).
  { intros Hxg. by apply getKey_state. }
  unfold solve_step. rewrite Hlen, Hdim.
  cbn [exploredStates set_frontierStates expanded].
  set (key := getKey (d * d) x) in *.
  destruct (isGoal (d * d) x) eqn:Hgoal.
  { destruct Hx as [He|Hxg].
    - by destruct (retracePath fuel _ x).
    - destruct Hne. rewrite <- Hxg. by apply isGoal_perm_goalGrid. }
  destruct (vempty (state (mapAt (exploredStates p) key))) eqn:Hemp.
  - assert (Hxne : state x ≠ []) by (by eapply perm_goalGrid_nonempty).
    set (m' := <[key := x]> (exploredStates p)).
    set (p2 := set_exploredStates _ _).
    pose proof (admitChildren_inv (λ _, True) heuristic x key
                  (generateChildren d x) p2 q1) as Hfold.
    destruct Hfold as (_ & He3 & _).
    { by apply Forall_forall. }
    { done. }
    change (exploredStates p2) with m' in He3.
    destruct (foldl _ _ _) as [p3 q3]. cbn [fst snd] in *.
    assert (Hheld : held m' startKey).
    { destruct Hx as [He|Hxg]; [by apply held_insert|].
      rewrite <- (Hkey Hxg). unfold held, m'.
      by rewrite mapAt_insert_eq, vempty_false. }
    by destruct (maxQueue p3 <? fq_size q3); cbn [exploredStates set_maxQueue];
      rewrite He3.
  - cbn [exploredStates set_frontierStates].
    destruct Hx as [He|Hxg]; [done|]. by rewrite <- (Hkey Hxg).
Qed.

Lemma started_loop (fuel : nat) (p : NPuzzle) (q : Q) (p' : NPuzzle) :
  finv p q → started p q → grid ≠ goalGrid d →
  solve_loop fuel heuristic p q = Some p' → held (exploredStates p') startKey.
Proof.
  revert p q. induction fuel as [|fuel IH]; intros p q Hinv Hstarted Hne; [done|].
  cbn [solve_loop]. destruct (fq_pop q) as [[x q1]|] eqn:Hpop.
  - pose proof (started_step fuel p q q1 x Hinv Hstarted Hne Hpop) as Hstep.
    destruct (solve_step fuel heuristic p x q1) as [[p0|]|p0 q0] eqn:Hs.
    + by intros [= <-].
    + done.
    + apply IH; [|by left|done]. by apply (solve_step_continue_inv fuel p q q1 x).
  - intros [= <-]. destruct Hstarted as [He|(s & Hs & _)]; [done|].
    apply fq_pop_None in Hpop. congruence.
Qed.

(** X18. A second call of [solve] on the same instance does not search
    again: for a start grid other than the goal grid, after [solve] has
    returned a path, every further call, with whatever heuristic selector,
    returns that path and leaves the counters and the explored states as
    they were, since the registries of the first search are still in
    place and the start state counts as explored. *)
Theorem solve_again (fuel : nat) (p1 : NPuzzle) (path : list PuzzleState)
        (heuristic' : Z) (fuel' : nat) :
  grid ≠ goalGrid d → (2 <= fuel')%nat →
  solve fuel (NPuzzle_init grid) heuristic = Some (p1, path) →
  ∃ p2, solve fuel' p1 heuristic' = Some (p2, path) ∧
        expanded p2 = expanded p1 ∧ maxQueue p2 = maxQueue p1 ∧
        goalDepth p2 = goalDepth p1 ∧ exploredStates p2 = exploredStates p1.
Proof.
  intros Hne Hfuel Hrun.
  destruct (NPuzzle_init_perm d grid Hd Hperm) as (Hlen & Hdim & Hvalid & Hstate).
  destruct (solvable (NPuzzle_init grid)) eqn:Hsolv.
  - rewrite solve_unfold in Hrun by done.
    destruct (solve_loop fuel heuristic _ _) as [p0|] eqn:Hloop; [|done].
    injection Hrun as -> <-.
    destruct (solve_loop_sizes _ _ _ _ _ Hloop) as (_ & Hl & _).
    destruct (solve_loop_start _ _ _ _ _ Hloop) as (Hstart & Hsolvable).
    assert (Hheld : held (exploredStates p1) startKey).
    { apply (started_loop fuel _ _ p1 fsearch_start); [|done|exact Hloop].
      right. exists (solve_start (NPuzzle_init grid) heuristic).2.
      split; [|exact Hstate].
      apply Permutation_singleton_r. by rewrite fq_items_push, fq_items_empty. }
    change (len (solve_start (NPuzzle_init grid) heuristic).1)
      with (len (NPuzzle_init grid)) in Hl.
    change (solvable (solve_start (NPuzzle_init grid) heuristic).1)
      with (solvable (NPuzzle_init grid)) in Hsolvable.
    rewrite Hlen in Hl. rewrite Hsolv in Hsolvable.
    assert (Hst1 : state (start p1) = grid).
    { rewrite Hstart. exact Hstate. }
    unfold solve. rewrite Hsolvable, Hl. cbn [negb].
    set (start2 := mkPuzzleState _ _ _ _ _ _ _).
    assert (Hst2 : state start2 = grid) by exact Hst1.
    destruct fuel' as [|[|fuel']]; [lia|lia|].
    destruct (fq_pop_singleton start2) as (q1 & Hpop & Hnil).
    cbn [solve_loop]. rewrite Hpop.
    unfold solve_step. cbn [len set_frontierStates set_start exploredStates].
    rewrite Hl.
    assert (Hkey2 : getKey (d * d) start2 = startKey) by (by apply getKey_state).
    rewrite Hkey2.
    destruct (isGoal (d * d) start2) eqn:Hgoal.
    { destruct Hne. rewrite <- Hst2. apply isGoal_perm_goalGrid; [done| |done].
      by rewrite Hst2. }
    unfold held in Hheld. rewrite Hheld.
    apply fq_pop_None in Hnil. rewrite Hnil.
    eexists. split; [reflexivity|]. done.
  - unfold solve in Hrun. rewrite Hsolv in Hrun. cbn [negb] in Hrun.
    injection Hrun as <- <-.
    unfold solve. cbn [solvable set_result]. rewrite Hsolv. cbn [negb].
    eexists. split; [reflexivity|]. done.
Qed.

(** *** Uniform cost search *)

Context {FQM : FrontierQueueMin Q}.
Hypothesis Hucs : heuristic < 2 ∨ 5 < heuristic.
Hypothesis Hsmall : d <= 3.

Let Hinj : keysInjective (d * d) (goalGrid d) := keysInjective_small d (conj Hd Hsmall).

Lemma heuristic_zero (s : PuzzleState) : getHeuristicCost (d * d) d s heuristic = 0%Q.
Proof.
  unfold getHeuristicCost.
  destruct (Z.eqb_spec heuristic 2); [lia|]. destruct (Z.eqb_spec heuristic 3); [lia|].
  destruct (Z.eqb_spec heuristic 4); [lia|]. destruct (Z.eqb_spec heuristic 5); [lia|].
  done.
Qed.

(** The costs during a uniform cost search: the explored states cost at
    most the bound [b], the queued ones [b] or [b + 1], a child of an
    explored state is explored or queued at a cost of at most one more,
    and the start at cost 0. *)
Let ucost (p : NPuzzle) (q : Q) : Prop :=
  ∃ b : Z,
    (∀ k, held (exploredStates p) k → g (mapAt (exploredStates p) k) <= b) ∧
    (∀ y, y ∈ fq_items q → b <= g y <= b + 1 ∧ (f y == inject_Z (g y))%Q) ∧
    (∀ k, held (exploredStates p) k →
       ∀ c, c ∈ generateChildren d (mapAt (exploredStates p) k) →
         (held (exploredStates p) (getKey (d * d) c) ∧
          g (mapAt (exploredStates p) (getKey (d * d) c))
          <= g (mapAt (exploredStates p) k) + 1) ∨
         (∃ w, w ∈ fq_items q ∧ getKey (d * d) w = getKey (d * d) c ∧
               g w <= g (mapAt (exploredStates p) k) + 1)) ∧
    ((held (exploredStates p) startKey ∧ g (mapAt (exploredStates p) startKey) <= 0) ∨
     (∃ w, w ∈ fq_items q ∧ getKey (d * d) w = startKey ∧ g w <= 0)).

(** No goal is reached from the start by fewer moves than the path has. *)
Let shortest (p' : NPuzzle) : Prop :=
  ∀ (n : nat) (u : PuzzleState),
    reachableIn d n (start (NPuzzle_init grid)) u → state u = goalGrid d →
    (length (result p') <= n + 1)%nat.

Lemma stored_state (e f0 : gmap string PuzzleState) (s : PuzzleState) :
  closed e f0 → held e (getKey (d * d) s) → state s ≡ₚ goalGrid d → validState d s →
  state (mapAt e (getKey (d * d) s)) = state s ∧
  blankIdx (mapAt e (getKey (d * d) s)) = blankIdx s.
Proof.
  intros Hclosed Hheld Hsperm Hsvalid.
  destruct (Hclosed _ Hheld) as (Hyperm & Hyvalid & _ & Hykey & _).
  set (y := mapAt e (getKey (d * d) s)) in *.
  assert (Hys : state y = state s).
  { apply Hinj; [done..|].
    rewrite <- (getKey_state (d * d) y (PuzzleState_of (state y))) by done.
    rewrite <- (getKey_state (d * d) s (PuzzleState_of (state s))) by done.
    exact Hykey. }
  split; [done|].
  apply (validState_blankIdx_unique d); [done..| |done].
  rewrite Hyperm. apply goalGrid_NoDup.
Qed.

(** A state that [n] moves reach from a state explored at cost [i] is
    explored at a cost of at most [i + n], or a state of at most that cost
    is queued. *)
Lemma ucost_lower_bound (p : NPuzzle) (q : Q) (n : nat) (s u : PuzzleState) :
  finv p q → ucost p q → reachableIn d n s u →
  state s ≡ₚ goalGrid d → validState d s →
  ∀ i : Z,
    (held (exploredStates p) (getKey (d * d) s) ∧
     g (mapAt (exploredStates p) (getKey (d * d) s)) <= i) ∨
    (∃ w, w ∈ fq_items q ∧ g w <= i) →
    (held (exploredStates p) (getKey (d * d) u) ∧
     g (mapAt (exploredStates p) (getKey (d * d) u)) <= i + Z.of_nat n) ∨
    (∃ w, w ∈ fq_items q ∧ g w <= i + Z.of_nat n).
Proof.
  intros (_ & _ & _ & _ & _ & _ & Hclosed & _) (b & _ & _ & Hchild & _) Hreach.
  induction Hreach as [s t Hst Hb|n s t u (c & Hc & Hcs & Hcb) Hreach IH];
    intros Hsperm Hsvalid i Hs.
  - rewrite <- (getKey_state (d * d) s t Hst).
    destruct Hs as [[? ?]|(w & ? & ?)]; [left; split; [done|lia]|right].
    exists w. split; [done|lia].
  - destruct (generateChildren_valid d s c Hsvalid Hc) as [Hcvalid Hcperm].
    assert (Htperm : state t ≡ₚ goalGrid d) by (by rewrite <- Hcs, Hcperm).
    assert (Htvalid : validState d t) by (by apply (validState_ext d c t)).
    replace (i + Z.of_nat (S n)) with ((i + 1) + Z.of_nat n) by lia.
    apply IH; [done..|].
    destruct Hs as [[Hheld Hg]|(w & Hw & Hgw)].
    + destruct (stored_state _ _ s Hclosed Hheld Hsperm Hsvalid) as [Hys Hyb].
      destruct (generateChildren_ext d s _ c (eq_sym Hys) (eq_sym Hyb) Hc)
        as (c' & Hc' & Hcs' & Hcb').
      assert (Hkey : getKey (d * d) c' = getKey (d * d) t).
      { apply getKey_state. congruence. }
      destruct (Hchild _ Hheld c' Hc') as [[He Hge]|(w & Hw & Hkw & Hgw)].
      * left. rewrite <- Hkey. split; [done|lia].
      * right. exists w. split; [done|lia].
    + right. exists w. split; [done|lia].
Qed.

Lemma popped_least (q q1 : Q) (x y : PuzzleState) :
  fq_pop q = Some (x, q1) → y ∈ fq_items q →
  (f x == inject_Z (g x))%Q → (f y == inject_Z (g y))%Q → g x <= g y.
Proof.
  intros Hpop Hy Hfx Hfy.
  pose proof (fq_pop_min q x q1 Hpop) as Hmin.
  rewrite Forall_forall in Hmin. specialize (Hmin y Hy).
  unfold CompareCost in Hmin. apply negb_false_iff, Qle_bool_iff in Hmin.
  rewrite Hfx, Hfy in Hmin. by rewrite Zle_Qle.
Qed.

Lemma ucs_step (fuel : nat) (p : NPuzzle) (q q1 : Q) (x : PuzzleState) :
  finv p q → ucost p q → fq_pop q = Some (x, q1) →
  (∀ p', solve_step fuel heuristic p x q1 = Finished (Some p') → shortest p') ∧
  (∀ p' q', solve_step fuel heuristic p x q1 = Continue p' q' → ucost p' q').
Proof.
  intros Hfinv Hucost Hpop0.
  pose proof Hfinv as (Hlen & Hdim & Hq & Hsub & Hres & Hfront & Hclosed & Hstart).
  pose proof Hucost as (b & Hexp & Hque & Hchild & Hzero).
  pose proof (fq_pop_Some _ _ _ Hpop0) as Hpop.
  assert (Hin : ∀ y, y ∈ fq_items q → y = x ∨ y ∈ fq_items q1).
  { intros y Hy. rewrite Hpop in Hy. by apply elem_of_cons in Hy. }
  assert (Hxq : x ∈ fq_items q) by (rewrite Hpop; left).
  assert (Hq1q : ∀ y, y ∈ fq_items q1 → y ∈ fq_items q).
  { intros y Hy. rewrite Hpop. by right. }
  destruct (Hque x Hxq) as [Hgx Hfx].
  assert (Hleast : ∀ y, y ∈ fq_items q → g x <= g y).
  { intros y Hy. apply (popped_least q q1); [done..|]. by apply Hque. }
  rewrite Hpop in Hq.
  apply Forall_cons in Hq as [(Hxperm & Hxvalid & kx & Hxchain & Hkx) Hq1].
  unfold solve_step. rewrite Hlen, Hdim.
  cbn [exploredStates set_frontierStates expanded].
  set (key := getKey (d * d) x).
  destruct (isGoal (d * d) x) eqn:Hgoal.
  { (* the goal is popped *)
    split; [|by destruct (retracePath _ _ _)].
    intros p' Hp' n u Hreach Hu.
    unfold retracePath in Hp'. cbn [exploredStates set_frontierStates] in Hp'.
    destruct (retracePath_loop _ _ _ _) as [path|] eqn:Hpath; [|done].
    injection Hp' as <-. cbn [result set_goalDepth set_result].
    destruct (legalChain_retrace d grid _ x kx Hxchain (S kx) [] ltac:(lia) I)
      as (pre & s0 & Hrun & Hpre & _).
    apply (retracePath_loop_mono _ (S kx + fuel)) in Hrun; [|lia].
    apply (retracePath_loop_mono _ (S kx + fuel)) in Hpath; [|lia].
    rewrite Hrun in Hpath. injection Hpath as <-.
    rewrite length_app, Hpre. simpl.
    pose proof (legalChain_cost _ _ _ _ _ Hxchain) as Hcost.
    destruct (NPuzzle_init_perm d grid Hd Hperm) as (_ & _ & Hvalid & Hstate).
    destruct (ucost_lower_bound p q n _ u Hfinv Hucost Hreach) with (i := 0)
      as [[Hheld _]|(w & Hw & Hgw)].
    { by rewrite Hstate. }
    { done. }
    { rewrite (getKey_state (d * d) _ (PuzzleState_of grid)) by done.
      destruct Hzero as [?|(w & Hw & _ & Hgw)]; [by left|right]. by exists w. }
    - (* the goal is not among the explored states *)
      assert (Huperm : state u ≡ₚ goalGrid d) by (by rewrite Hu).
      destruct (Hclosed _ Hheld) as (Hyperm & _ & Hygoal & Hykey & _).
      set (y := mapAt (exploredStates p) (getKey (d * d) u)) in *.
      assert (Hys : state y = state u).
      { apply Hinj; [done..|].
        rewrite <- (getKey_state (d * d) y (PuzzleState_of (state y))) by done.
        rewrite <- (getKey_state (d * d) u (PuzzleState_of (state u))) by done.
        exact Hykey. }
      rewrite (goalGrid_isGoal d y Hd) in Hygoal; [done|congruence].
    - specialize (Hleast w Hw). lia. }
  split; [by destruct (vempty _); [destruct (foldl _ _ _)|]|].
  intros p' q' Hcont.
  destruct (vempty (state (mapAt (exploredStates p) key))) eqn:Hemp.
  - (* the state is expanded *)
    assert (Hxne : state x ≠ []) by (by eapply perm_goalGrid_nonempty).
    set (m' := <[key := x]> (exploredStates p)) in *.
    set (f1 := <[key := PuzzleState_default]> (frontierStates p)) in *.
    set (p2 := set_exploredStates _ _) in *.
    assert (Hat : mapAt m' key = x) by apply mapAt_insert_eq.
    assert (Hold : ∀ k, held (exploredStates p) k → mapAt m' k = mapAt (exploredStates p) k).
    { intros k Hk. unfold m'. apply mapAt_insert_ne. intros <-.
      unfold held in Hk. congruence. }
    assert (Hheld' : ∀ k, held m' k → k = key ∨ held (exploredStates p) k).
    { intros k Hk. destruct (decide (key = k)) as [<-|Hne]; [by left|right].
      unfold held, m' in Hk. by rewrite mapAt_insert_ne in Hk. }
    assert (Hexp' : ∀ k, held m' k → g (mapAt m' k) <= g x).
    { intros k [->|Hk]%Hheld'; [by rewrite Hat|].
      rewrite (Hold k Hk). specialize (Hexp k Hk). lia. }
    pose proof (admitChildren_inv (λ _, True) heuristic x key
                  (generateChildren d x) p2 q1) as Hfold.
    destruct Hfold as (_ & He3 & _).
    { by apply Forall_forall. }
    { done. }
    pose proof (admitChildren_cost
                  (λ y, g x <= g y <= g x + 1 ∧ (f y == inject_Z (g y))%Q)
                  heuristic x key (generateChildren d x) p2 q1) as Hq3.
    pose proof (admitChildren_frontier heuristic x key (generateChildren d x) p2 q1)
      as Hfr.
    destruct Hfr as (_ & Hall & Hfront3 & Hsub3).
    { intros c Hc. destruct (generateChildren_valid d x c Hxvalid Hc) as [_ Hcperm].
      eapply perm_goalGrid_nonempty; [done|]. by rewrite Hcperm. }
    { intros k [Hne Hk]%held_reset. change (len p2) with (len p). rewrite Hlen.
      destruct (Hfront k Hk) as (y & Hy & Hyk).
      destruct (Hin y Hy) as [->|Hy1]; [done|]. by exists y. }
    change (len p2) with (len p) in Hall, Hfront3, Hq3.
    change (dim p2) with (dim p) in Hq3.
    rewrite Hlen in Hall, Hfront3, Hq3. rewrite Hdim in Hq3.
    change (exploredStates p2) with m' in Hall, He3.
    lapply Hq3.
    2:{ apply Forall_forall. intros y Hy.
        destruct (Hque y (Hq1q y Hy)) as [Hgy Hfy].
        specialize (Hleast y (Hq1q y Hy)). split; [lia|done]. }
    clear Hq3. intros Hq3. lapply Hq3.
    2:{ intros c Hc. cbn [g f]. split; [lia|].
        rewrite heuristic_zero. by rewrite Qplus_0_r. }
    clear Hq3. intros Hq3. rewrite Forall_forall in Hq3.
    destruct (foldl _ _ _) as [p3 q3]. cbn [fst snd] in *.
    assert (He4 : exploredStates p' = m' ∧ q' = q3).
    { destruct (maxQueue p3 <? fq_size q3); injection Hcont as <- <-;
        cbn [exploredStates set_maxQueue]; by rewrite He3. }
    destruct He4 as [He4 ->].
    exists (g x). rewrite He4. split; [exact Hexp'|]. split; [exact Hq3|]. split.
    + intros k [->|Hk]%Hheld'.
      * rewrite Hat. intros c Hc.
        destruct (Hall c Hc) as [He|Hf].
        -- left. split; [done|]. specialize (Hexp' _ He). lia.
        -- right. destruct (Hfront3 _ Hf) as (w & Hw & Hkw).
           exists w. split; [done|]. split; [done|].
           destruct (Hq3 w Hw) as [? _]. lia.
      * rewrite (Hold k Hk). intros c Hc.
        destruct (Hchild k Hk c Hc) as [[He Hge]|(w & Hw & Hkw & Hgw)].
        -- left. rewrite (Hold _ He). split; [|done]. by apply held_insert.
        -- destruct (Hin w Hw) as [->|Hw1].
           ++ left. rewrite <- Hkw. fold key. rewrite Hat. split; [|done].
              unfold held. by rewrite Hat, vempty_false.
           ++ right. exists w. split; [by apply Hsub3|done].
    + destruct Hzero as [[He Hge]|(w & Hw & Hkw & Hgw)].
      * left. rewrite (Hold _ He). split; [|done]. by apply held_insert.
      * destruct (Hin w Hw) as [->|Hw1].
        -- left. rewrite <- Hkw. fold key. rewrite Hat. split; [|done].
           unfold held. by rewrite Hat, vempty_false.
        -- right. exists w. split; [by apply Hsub3|done].
  - (* the state was explored before *)
    injection Hcont as <- <-. unfold ucost. cbn [exploredStates set_frontierStates].
    assert (Hstored : g (mapAt (exploredStates p) key) <= g x).
    { specialize (Hexp key Hemp). lia. }
    exists (g x). split; [|split; [|split]].
    + intros k Hk. specialize (Hexp k Hk). lia.
    + intros y Hy. destruct (Hque y (Hq1q y Hy)) as [Hgy Hfy].
      specialize (Hleast y (Hq1q y Hy)). split; [lia|done].
    + intros k Hk c Hc.
      destruct (Hchild k Hk c Hc) as [[He Hge]|(w & Hw & Hkw & Hgw)]; [by left|].
      destruct (Hin w Hw) as [->|Hw1].
      * left. rewrite <- Hkw. fold key. split; [done|lia].
      * right. by exists w.
    + destruct Hzero as [[He Hge]|(w & Hw & Hkw & Hgw)]; [by left|].
      destruct (Hin w Hw) as [->|Hw1].
      * left. rewrite <- Hkw. fold key. split; [done|lia].
      * right. by exists w.
Qed.

Lemma ucs_loop (fuel : nat) (p : NPuzzle) (q : Q) :
  finv p q → ucost p q → (fpotential p q + size universe + 1 < fuel)%nat →
  ∃ p', solve_loop fuel heuristic p q = Some p' ∧
        (exhausted p' ∨ (found p' ∧ shortest p')).
Proof.
  revert p q. induction fuel as [|fuel IH]; intros p q Hinv Hcost Hpot; [lia|].
  destruct (fsearch_loop (S fuel) p q Hinv Hpot) as (p0 & Hloop0 & Hout0).
  destruct Hout0 as [Hex|Hfound0]; [exists p0; split; [done|by left]|].
  simpl in Hloop0 |- *. destruct (fq_pop q) as [[x q1]|] eqn:Hpop.
  - destruct (ucs_step fuel p q q1 x Hinv Hcost Hpop) as [Hfin Hcont].
    destruct (fsearch_step fuel p q q1 x Hinv Hpop ltac:(lia))
      as [(p' & Hstep & Hout)|(p' & q' & Hstep & Hinv' & Hlt)].
    + rewrite Hstep in Hloop0 |- *. exists p'. split; [done|]. right.
      split; [done|]. by apply Hfin.
    + rewrite Hstep. apply IH; [done|by apply Hcont|lia].
  - exists p0. split; [done|]. right. split; [done|].
    injection Hloop0 as <-. destruct Hfound0 as [(s0 & sg & Hhead & _) _].
    destruct Hinv as (_ & _ & _ & _ & Hres & _). by rewrite Hres in Hhead.
Qed.

Lemma ucs_start :
  let p := NPuzzle_init grid in
  ucost (solve_start p heuristic).1 (fq_push (solve_start p heuristic).2 fq_empty).
Proof.
  intros p.
  destruct (NPuzzle_init_perm d grid Hd Hperm) as (Hlen & Hdim & Hvalid & Hstate).
  fold p in Hlen, Hdim, Hvalid, Hstate.
  unfold ucost, solve_start. cbn [fst snd exploredStates set_frontierStates set_start].
  exists 0. split; [|split; [|split]].
  - intros k Hk. by vm_compute in Hk.
  - intros y Hy. rewrite fq_items_push, fq_items_empty in Hy.
    apply list_elem_of_singleton in Hy as ->. cbn [g f]. split; [lia|].
    rewrite Hlen, Hdim, heuristic_zero. done.
  - intros k Hk. by vm_compute in Hk.
  - right. eexists. split; [rewrite fq_items_push; left|]. cbn [g].
    split; [|lia]. unfold startKey. by apply getKey_state.
Qed.

Lemma ucs_run :
  solvable (NPuzzle_init grid) = true →
  ∃ fuel p', solve fuel (NPuzzle_init grid) heuristic = Some (p', result p') ∧
             (exhausted p' ∨ (found p' ∧ shortest p')).
Proof.
  intros Hsolv.
  set (fuel0 := S (fpotential (solve_start (NPuzzle_init grid) heuristic).1
                     (fq_push (solve_start (NPuzzle_init grid) heuristic).2 fq_empty)
                   + size universe + 1)).
  assert (Hfuel : (fpotential (solve_start (NPuzzle_init grid) heuristic).1
                     (fq_push (solve_start (NPuzzle_init grid) heuristic).2 fq_empty)
                   + size universe + 1 < fuel0)%nat) by (unfold fuel0; lia).
  destruct (ucs_loop fuel0 _ _ fsearch_start ucs_start Hfuel) as (p' & Hloop & Hout).
  exists fuel0, p'. split; [|exact Hout].
  rewrite solve_unfold by done. by rewrite Hloop.
Qed.

(** X19. Uniform cost search finds a shortest solution. For the puzzles of
    dimension up to 3, with a heuristic selector that gives the cost 0
    (any but 2 to 5; [main] passes 1) and a queue whose top is a state of
    least total cost: when [n] legal moves lead from the start state to
    the goal arrangement, the path that [solve] returns is not empty and
    has at most [n + 1] states, that is at most [n] moves. *)
Theorem solve_uniform_cost_shortest (n : nat) (u : PuzzleState)
        (fuel : nat) (p' : NPuzzle) (path : list PuzzleState) :
  reachableIn d n (start (NPuzzle_init grid)) u → state u = goalGrid d →
  solve fuel (NPuzzle_init grid) heuristic = Some (p', path) →
  path ≠ [] ∧ (length path <= n + 1)%nat.
Proof.
  intros Hreach Hu Hrun.
  pose proof (reachableIn_reachable d n _ u Hreach) as Hreach'.
  destruct (ucs_run (reachable_solvable u Hreach' Hu)) as (fuel0 & p0 & Hrun0 & Hout).
  apply (solve_mono _ (fuel `max` fuel0)) in Hrun; [|lia].
  apply (solve_mono _ (fuel `max` fuel0)) in Hrun0; [|lia].
  rewrite Hrun0 in Hrun. injection Hrun as -> <-.
  destruct Hout as [Hex|[Hfound Hshort]].
  - destruct (exhausted_no_goal p' u Hinj Hex Hreach' Hu).
  - split; [|by apply (Hshort n u)].
    destruct Hfound as [(s0 & sg & Hhead & _) _]. by destruct (result p').
Qed.

End FullSearch.

(** ** The key beyond the 8-puzzle *)

Lemma foldr_ext_in {A B} (s1 s2 : B → A → A) (l : list B) (a : A) :
  (∀ x acc, x ∈ l → s1 x acc = s2 x acc) → foldr s1 a l = foldr s2 a l.
Proof.
  induction l as [|x l IH]; intros Hs; simpl; [done|].
  rewrite IH by (intros; apply Hs; by right). apply Hs. left.
Qed.

(** X20. From the 15-puzzle on the key is ambiguous: every puzzle of side 4
    or more has two different arrangements of its tiles with the same key,
    since the key of the tiles 1, 11 is the key of the tiles 11, 1. *)
Theorem getKey_ambiguous_large (d : Z) :
  4 <= d →
  ∃ a b : list Z,
    a ≡ₚ goalGrid d ∧ b ≡ₚ goalGrid d ∧ a ≠ b ∧
    getKey (d * d) (PuzzleState_of a) = getKey (d * d) (PuzzleState_of b).
Proof.
  intros Hd.
  set (r := seqZ 2 9 ++ seqZ 12 (d * d - 12) ++ [0]).
  exists (1 :: 11 :: r), (11 :: 1 :: r).
  assert (Hgoal : goalGrid d = 1 :: seqZ 2 9 ++ 11 :: seqZ 12 (d * d - 12) ++ [0]).
  { unfold goalGrid.
    replace (d * d - 1) with (1 + (9 + (1 + (d * d - 12)))) by lia.
    rewrite (seqZ_app 1 1), (seqZ_app (1 + 1) 9), (seqZ_app (1 + 1 + 9) 1) by nia.
    change (seqZ 1 1) with [1]. change (seqZ (1 + 1 + 9) 1) with [11].
    change (1 + 1 + 9 + 1) with 12. change (1 + 1) with 2.
    by rewrite <- !app_assoc. }
  assert (Ha : 1 :: 11 :: r ≡ₚ goalGrid d).
  { rewrite Hgoal. unfold r. constructor. apply Permutation_middle. }
  split; [exact Ha|]. split; [by rewrite <- Ha; constructor|].
  split; [by intros [= ?]|].
  rewrite !getKey_foldr. cbn [state PuzzleState_of].
  rewrite (seqZ_cons 0 (d * d)), (seqZ_cons (Z.succ 0) (Z.pred (d * d))) by nia.
  cbn [foldr].
  assert (Htail : ∀ x y i, 2 <= i → vget (x :: y :: r) i = vget r (i - 2)).
  { intros x y i Hi. unfold vget.
    replace (Z.to_nat i) with (S (S (Z.to_nat (i - 2)))) by lia. done. }
  erewrite (foldr_ext_in _ (λ i acc, to_string (vget r (i - 2)) +:+ acc)).
  2:{ intros i acc Hi%elem_of_seqZ. rewrite Htail by lia. done. }
  symmetry.
  erewrite (foldr_ext_in _ (λ i acc, to_string (vget r (i - 2)) +:+ acc)).
  2:{ intros i acc Hi%elem_of_seqZ. rewrite Htail by lia. done. }
  reflexivity.
Qed.

(** ** The puzzle entered in [main] *)

Lemma readDigits_string_of_uint (u : Decimal.uint) (acc : positive) :
  readDigits (Z.pos acc) (NilEmpty.string_of_uint u) = Z.pos (Pos.of_uint_acc u acc).
Proof.
  revert acc. induction u as [|u IH|u IH|u IH|u IH|u IH|u IH|u IH|u IH|u IH|u IH];
    intros acc; [done|..];
    cbn [NilEmpty.string_of_uint readDigits Pos.of_uint_acc];
    match goal with |- context [digitValue ?c] =>
      let v := eval vm_compute in (digitValue c) in
      change (digitValue c) with v end;
    cbv iota; rewrite <- IH; f_equal; lia.
Qed.

Lemma noSpace_string_of_uint (u : Decimal.uint) :
  noSpace (NilEmpty.string_of_uint u) = true.
Proof. induction u; simpl; done. Qed.

Lemma to_string_noSpace (z : Z) : noSpace (to_string z) = true.
Proof.
  unfold to_string. destruct z as [|p|p]; [done|..];
    cbn [Z.to_int NilZero.string_of_int NilZero.string_of_uint];
    pose proof (noSpace_string_of_uint (Pos.to_uint p)) as Hns;
    by destruct (Pos.to_uint p).
Qed.

(** [stoi] reads back what [to_string] writes. *)
Lemma stoi_to_string (z : Z) : INT_MIN <= z <= INT_MAX → stoi (to_string z) = Some z.
Proof.
  intros Hz. unfold to_string. destruct z as [|p|p]; [done|..];
    cbn [Z.to_int NilZero.string_of_int];
    pose proof (DecimalPos.Unsigned.of_to p) as Hof;
    pose proof (to_uint_no_leading_zero p) as Hlead;
    pose proof (DecimalPos.Unsigned.to_uint_nonnil p) as Hnil;
    (destruct (Pos.to_uint p) as [|l|l|l|l|l|l|l|l|l|l] eqn:Hu;
       [done|by destruct (Hlead l)|..]);
    cbn [Pos.of_uint] in Hof; injection Hof as Hof;
    unfold stoi;
    cbn [NilZero.string_of_uint NilEmpty.string_of_uint skipSpaces];
    match goal with |- context [isspace ?c] =>
      let v := eval vm_compute in (isspace c) in change (isspace c) with v end;
    cbv iota; cbn [skipSpaces];
    repeat match goal with |- context [isspace ?c] =>
      let v := eval vm_compute in (isspace c) in change (isspace c) with v end;
    repeat match goal with |- context [Ascii.eqb ?a ?b] =>
      let v := eval vm_compute in (Ascii.eqb a b) in change (Ascii.eqb a b) with v end;
    cbv iota;
    match goal with |- context [digitValue ?c] =>
      let v := eval vm_compute in (digitValue c) in change (digitValue c) with v end;
    cbv iota; cbn [readDigits];
    match goal with |- context [digitValue ?c] =>
      let v := eval vm_compute in (digitValue c) in change (digitValue c) with v end;
    cbv iota;
    match goal with |- context [readDigits (0 * 10 + ?k) _] =>
      change (0 * 10 + k) with k end;
    rewrite readDigits_string_of_uint, Hof;
    (destruct (Z.leb_spec INT_MIN (Z.pos p)) as [_|?]; [|lia]) ||
    (destruct (Z.leb_spec INT_MIN (- Z.pos p)) as [_|?]; [|lia]);
    (destruct (Z.leb_spec (Z.pos p) INT_MAX) as [_|?]; [|lia]) ||
    (destruct (Z.leb_spec (- Z.pos p) INT_MAX) as [_|?]; [|lia]);
    done.
Qed.

(** The characters of a number go to the string of the current number. *)
Lemma parsePuzzle_loop_token (t rest : string) (puzzle : list Z) (intStr : string) :
  noSpace t = true →
  parsePuzzle_loop (t +:+ rest) puzzle intStr
  = parsePuzzle_loop rest puzzle (intStr +:+ t).
Proof.
  revert intStr. induction t as [|c t IH]; intros intStr Hns.
  - by rewrite string_app_nil_r.
  - cbn [noSpace] in Hns. apply andb_true_iff in Hns as [Hc Ht].
    apply negb_true_iff in Hc. rewrite string_app_cons. cbn [parsePuzzle_loop].
    rewrite Hc, IH by done. f_equal.
    rewrite <- string_app_assoc. reflexivity.
Qed.

Lemma parsePuzzle_loop_gridLine (grid : list Z) (puzzle : list Z) :
  grid ≠ [] → Forall (λ v, INT_MIN <= v <= INT_MAX) grid →
  parsePuzzle_loop (gridLine grid) puzzle "" = Some (puzzle ++ grid).
Proof.
  revert puzzle. induction grid as [|v grid IH]; intros puzzle Hne Hint; [done|].
  apply Forall_cons in Hint as [Hv Hint].
  destruct grid as [|v' grid].
  - cbn [gridLine].
    rewrite <- (string_app_nil_r (to_string v)), parsePuzzle_loop_token
      by apply to_string_noSpace.
    cbn [parsePuzzle_loop]. change ("" +:+ to_string v) with (to_string v).
    by rewrite stoi_to_string.
  - change (gridLine (v :: v' :: grid))
      with (to_string v +:+ String (Ascii.ascii_of_nat 32) (gridLine (v' :: grid))).
    rewrite parsePuzzle_loop_token by apply to_string_noSpace.
    cbn [parsePuzzle_loop]. change ("" +:+ to_string v) with (to_string v).
    change (Ascii.eqb (Ascii.ascii_of_nat 32) (Ascii.ascii_of_nat 32)) with true.
    cbv iota. rewrite stoi_to_string by done. cbn [mbind option_bind].
    rewrite IH by done. by rewrite <- app_assoc.
Qed.

(** X21. Reading a puzzle in [main] inverts writing it: for a grid that is
    not empty, the line of its numbers, written with [to_string] and one
    space between numbers, is read back as the grid. *)
Theorem parsePuzzle_gridLine (grid : list Z) :
  grid ≠ [] → Forall (λ v, INT_MIN <= v <= INT_MAX) grid →
  parsePuzzle (gridLine grid) = Some grid.
Proof. intros Hne Hint. by apply (parsePuzzle_loop_gridLine grid []). Qed.

Lemma parsePuzzle_loop_double_space (a b : string) (puzzle : list Z) (intStr : string) :
  parsePuzzle_loop (a +:+ String (Ascii.ascii_of_nat 32)
                            (String (Ascii.ascii_of_nat 32) b)) puzzle intStr = None.
Proof.
  revert puzzle intStr. induction a as [|c a IH]; intros puzzle intStr.
  - change ("" +:+ ?s) with s. cbn [parsePuzzle_loop].
    change (Ascii.eqb (Ascii.ascii_of_nat 32) (Ascii.ascii_of_nat 32)) with true.
    cbv iota. by destruct (stoi intStr).
  - rewrite string_app_cons. cbn [parsePuzzle_loop].
    destruct (Ascii.eqb c _); [|apply IH].
    destruct (stoi intStr); [|done]. apply IH.
Qed.

Lemma parsePuzzle_loop_trailing_space (a : string) (puzzle : list Z) (intStr : string) :
  parsePuzzle_loop (a +:+ String (Ascii.ascii_of_nat 32) "") puzzle intStr = None.
Proof.
  revert puzzle intStr. induction a as [|c a IH]; intros puzzle intStr.
  - change ("" +:+ ?s) with s. cbn [parsePuzzle_loop].
    change (Ascii.eqb (Ascii.ascii_of_nat 32) (Ascii.ascii_of_nat 32)) with true.
    cbv iota. by destruct (stoi intStr).
  - rewrite string_app_cons. cbn [parsePuzzle_loop].
    destruct (Ascii.eqb c _); [|apply IH].
    destruct (stoi intStr); [|done]. apply IH.
Qed.

(** X22. A missing number ends [main] with the exception of [stoi]: the
    empty line, a line that starts or ends with a space, and a line with
    two spaces in a row are not read as a puzzle, whatever else the line
    holds. *)
Theorem parsePuzzle_missing_number (a b : string) :
  parsePuzzle "" = None ∧
  parsePuzzle (String (Ascii.ascii_of_nat 32) b) = None ∧
  parsePuzzle (a +:+ String (Ascii.ascii_of_nat 32) "") = None ∧
  parsePuzzle (a +:+ String (Ascii.ascii_of_nat 32)
                      (String (Ascii.ascii_of_nat 32) b)) = None.
Proof.
  split; [done|]. split; [done|]. split.
  - apply parsePuzzle_loop_trailing_space.
  - apply parsePuzzle_loop_double_space.
Qed.

(** * The theorems at concrete puzzles *)

Lemma getHeuristicCost_total_witness :
  FloatLaws exactFloat ∧
  ∀ heuristic,
    (0 <= getHeuristicCost (F:=exactFloat) 9 3
            (PuzzleState_of DefaultPuzzle.easy) heuristic)%Q.
Proof.
  split; [exact exactFloat_laws|].
  apply (getHeuristicCost_total (FL:=exactFloat_laws) 9 3
           (PuzzleState_of DefaultPuzzle.easy)).
Defined.

Lemma solve_unsolvable_empty_witness :
  isSolvable 9 3 (start (NPuzzle_init DefaultPuzzle.impossible)) = false ∧
  ∃ p', solve (F:=exactFloat) (FQ:=listQueue) 5
              (NPuzzle_init DefaultPuzzle.impossible) 1 = Some (p', [])
        ∧ expanded p' = 0 ∧ result p' = [].
Proof.
  split; [reflexivity|].
  apply (proj1 (solve_unsolvable_empty (F:=exactFloat) (FQ:=listQueue))).
  reflexivity.
Defined.

Lemma solve_start_is_goal_witness :
  1 <= 4 ∧
  ∃ p' st, solve (F:=exactFloat) (FQ:=listQueue) 2
                 (NPuzzle_init (goalGrid 4)) 4 = Some (p', [st])
           ∧ state st = goalGrid 4
           ∧ state st = state (start (NPuzzle_init (goalGrid 4)))
           ∧ expanded p' = 0.
Proof.
  split; [lia|].
  apply (solve_start_is_goal (F:=exactFloat) (FQL:=listQueue_laws) 4 4 0). lia.
Defined.

Lemma generateChildren_reversible_witness :
  let s := start (NPuzzle_init DefaultPuzzle.easy) in
  let c := moveBlank s 3 2 in
  validState 3 s ∧ c ∈ generateChildren 3 s ∧
  ∃ c', c' ∈ generateChildren 3 c ∧ move c' = inverseMove (move c) ∧
        state c' = state s ∧ blankIdx c' = blankIdx s.
Proof.
  intros s c.
  assert (Hs : validState 3 s).
  { unfold validState. vm_compute. repeat split; congruence. }
  assert (Hc : c ∈ generateChildren 3 s).
  { apply list_elem_of_In. vm_compute. left. reflexivity. }
  split; [exact Hs|]. split; [exact Hc|].
  exact (generateChildren_reversible 3 s c Hs Hc).
Defined.

Lemma isSolvable_parity_policy_witness :
  let p := NPuzzle_init DefaultPuzzle.easy in
  1 <= dim p ∧ len p = dim p * dim p ∧
  (solvable p = true ↔ solvablePolicy (dim p) DefaultPuzzle.easy (blankIdx (start p))).
Proof.
  intros p.
  assert (H1 : 1 <= dim p) by (vm_compute; congruence).
  assert (H2 : len p = dim p * dim p) by reflexivity.
  split; [exact H1|]. split; [exact H2|].
  exact (isSolvable_parity_policy DefaultPuzzle.easy H1 H2).
Defined.

Lemma manhattanDistLinearConflict_dominates_witness :
  let s := PuzzleState_of [2; 1; 3; 4; 5; 6; 7; 8; 0] in
  1 <= 3 ∧ Forall (λ v, 0 <= v) (state s) ∧
  manhattanDist (3 * 3) 3 s <= manhattanDistLinearConflict (3 * 3) 3 s ∧
  (manhattanDistLinearConflict (3 * 3) 3 s = manhattanDist (3 * 3) 3 s
   ↔ noLinearConflict 3 (state s)).
Proof.
  intros s.
  assert (H1 : 1 <= 3) by lia.
  assert (H2 : Forall (λ v, 0 <= v) (state s)).
  { simpl. repeat constructor; lia. }
  split; [exact H1|]. split; [exact H2|].
  exact (manhattanDistLinearConflict_dominates 3 s H1 H2).
Defined.

Lemma solve_easy_three_states_witness :
  FrontierQueueMin (list PuzzleState) ∧
  ∃ p' path,
    solve (F:=exactFloat) (FQ:=listQueue) 12
          (NPuzzle_init DefaultPuzzle.easy) 4 = Some (p', path) ∧
    length path = 3%nat ∧ state <$> head path = Some DefaultPuzzle.easy ∧
    state <$> last path = Some DefaultPuzzle.trivial ∧ goalDepth p' = 3.
Proof.
  split; [exact listQueue_min|].
  exact (proj2 (proj2 (solve_easy_three_states
                         (F:=exactFloat) (FQM:=listQueue_min) 0))).
Defined.

Lemma solve_collidingGrid_empty_witness :
  solvable (NPuzzle_init collidingGrid) = true ∧
  ∃ fuel p',
    solve (F:=exactFloat) (FQ:=listQueue) fuel (NPuzzle_init collidingGrid) 1
    = Some (p', []).
Proof.
  split.
  - exact (proj1 (proj2 (solve_collidingGrid_empty
                           (F:=exactFloat) (FQL:=listQueue_laws) 1))).
  - exact (proj1 (proj2 (proj2 (solve_collidingGrid_empty
                                  (F:=exactFloat) (FQL:=listQueue_laws) 1)))).
Defined.

(** ** The further properties at concrete puzzles *)

Lemma easy_start_valid : validState 3 (start (NPuzzle_init DefaultPuzzle.easy)).
Proof. unfold validState. vm_compute. repeat split; congruence. Qed.

Lemma easy_perm : DefaultPuzzle.easy ≡ₚ goalGrid 3.
Proof. apply (bool_decide_unpack _). by vm_compute. Qed.

Lemma easy_down_child :
  moveBlank (start (NPuzzle_init DefaultPuzzle.easy)) 3 2
  ∈ generateChildren 3 (start (NPuzzle_init DefaultPuzzle.easy)).
Proof. apply list_elem_of_In. vm_compute. left. reflexivity. Qed.

Lemma easy_reachableIn :
  reachableIn 3 2 (start (NPuzzle_init DefaultPuzzle.easy))
    (moveBlank (moveBlank (start (NPuzzle_init DefaultPuzzle.easy)) 3 2) 3 2).
Proof.
  eapply reachableIn_step.
  { exists (moveBlank (start (NPuzzle_init DefaultPuzzle.easy)) 3 2).
    split; [exact easy_down_child|]. split; reflexivity. }
  eapply reachableIn_step.
  { exists (moveBlank (moveBlank (start (NPuzzle_init DefaultPuzzle.easy)) 3 2) 3 2).
    split; [|split; reflexivity].
    apply list_elem_of_In. vm_compute. right. left. reflexivity. }
  by apply reachableIn_refl.
Qed.

Lemma easy_reachable :
  reachable 3 (start (NPuzzle_init DefaultPuzzle.easy))
    (moveBlank (moveBlank (start (NPuzzle_init DefaultPuzzle.easy)) 3 2) 3 2).
Proof. exact (reachableIn_reachable 3 2 _ _ easy_reachableIn). Qed.

Lemma NPuzzle_init_blank_first_witness :
  let p := NPuzzle_init DefaultPuzzle.easy in
  0 ∈ DefaultPuzzle.easy ∧
  0 <= blankIdx (start p) < len p ∧
  vget DefaultPuzzle.easy (blankIdx (start p)) = 0 ∧
  ∀ j, 0 <= j < blankIdx (start p) → vget DefaultPuzzle.easy j ≠ 0.
Proof.
  intros p.
  assert (H0 : 0 ∈ DefaultPuzzle.easy).
  { apply list_elem_of_In. vm_compute. tauto. }
  split; [exact H0|].
  exact (proj1 (proj2 (proj2 (proj2 (proj2 (proj2
           (NPuzzle_init_blank_first DefaultPuzzle.easy)))))) H0).
Defined.

Lemma generateChildren_invariants_witness :
  let s := start (NPuzzle_init DefaultPuzzle.easy) in
  validState 3 s ∧
  (∀ c, c ∈ generateChildren 3 s →
        validState 3 c ∧ state c ≡ₚ state s ∧
        (NoDup (state s) → state c ≠ state s) ∧
        1 <= move c <= 4 ∧ g c = g s ∧ h c = h s ∧ f c = f s ∧
        parentKey c = parentKey s) ∧
  (2 <= 3 → (2 <= length (generateChildren 3 s) <= 4)%nat) ∧
  (3 = 1 → generateChildren 3 s = []).
Proof.
  intros s. split; [exact easy_start_valid|].
  exact (generateChildren_invariants 3 s easy_start_valid).
Defined.

Lemma isGoal_iff_goalGrid_witness :
  1 <= 3 ∧ state (PuzzleState_of DefaultPuzzle.easy) ≡ₚ goalGrid 3 ∧
  (isGoal (3 * 3) (PuzzleState_of DefaultPuzzle.easy) = true
   ↔ state (PuzzleState_of DefaultPuzzle.easy) = goalGrid 3).
Proof.
  assert (H1 : 1 <= 3) by lia.
  split; [exact H1|]. split; [exact easy_perm|].
  exact (isGoal_iff_goalGrid 3 (PuzzleState_of DefaultPuzzle.easy) H1 easy_perm).
Defined.

Lemma getKey_injective_small_witness :
  1 <= 3 <= 3 ∧
  state (PuzzleState_of DefaultPuzzle.easy) ≡ₚ goalGrid 3 ∧
  state (PuzzleState_of DefaultPuzzle.trivial) ≡ₚ goalGrid 3 ∧
  (getKey (3 * 3) (PuzzleState_of DefaultPuzzle.easy)
   = getKey (3 * 3) (PuzzleState_of DefaultPuzzle.trivial)
   ↔ state (PuzzleState_of DefaultPuzzle.easy)
     = state (PuzzleState_of DefaultPuzzle.trivial)).
Proof.
  assert (H1 : 1 <= 3 <= 3) by lia.
  assert (H2 : state (PuzzleState_of DefaultPuzzle.trivial) ≡ₚ goalGrid 3).
  { apply (bool_decide_unpack _). by vm_compute. }
  split; [exact H1|]. split; [exact easy_perm|]. split; [exact H2|].
  exact (getKey_injective_small 3 (PuzzleState_of DefaultPuzzle.easy)
           (PuzzleState_of DefaultPuzzle.trivial) H1 easy_perm H2).
Defined.

Lemma misplacedTile_le_manhattanDist_witness :
  let s := PuzzleState_of DefaultPuzzle.doable in
  1 <= 3 ∧ Forall (λ v, 0 <= v) (state s) ∧
  misplacedTile 9 s <= manhattanDist 9 3 s ∧
  (manhattanDist 9 3 s = 0 ↔ isGoal 9 s = true).
Proof.
  intros s.
  assert (H1 : 1 <= 3) by lia.
  assert (H2 : Forall (λ v, 0 <= v) (state s)).
  { simpl. repeat constructor; lia. }
  split; [exact H1|]. split; [exact H2|].
  exact (misplacedTile_le_manhattanDist 9 3 s H1 H2).
Defined.

Lemma getHeuristicCost_goal_witness :
  FloatZero exactFloat ∧ 1 <= 4 ∧
  state (PuzzleState_of DefaultPuzzle.Fifteen.trivial) = goalGrid 4 ∧
  ∀ heuristic,
    getHeuristicCost (F:=exactFloat) (4 * 4) 4
      (PuzzleState_of DefaultPuzzle.Fifteen.trivial) heuristic = 0%Q.
Proof.
  assert (H1 : 1 <= 4) by lia.
  assert (H2 : state (PuzzleState_of DefaultPuzzle.Fifteen.trivial) = goalGrid 4)
    by reflexivity.
  split; [exact exactFloat_zero|]. split; [exact H1|]. split; [exact H2|].
  exact (getHeuristicCost_goal (FZ:=exactFloat_zero) 4
           (PuzzleState_of DefaultPuzzle.Fifteen.trivial) H1 H2).
Defined.

Lemma manhattanDist_move_witness :
  let s := start (NPuzzle_init DefaultPuzzle.easy) in
  let c := moveBlank s 3 2 in
  validState 3 s ∧ state s ≡ₚ goalGrid 3 ∧ c ∈ generateChildren 3 s ∧
  (manhattanDist (3 * 3) 3 c = manhattanDist (3 * 3) 3 s + 1 ∨
   manhattanDist (3 * 3) 3 c = manhattanDist (3 * 3) 3 s - 1).
Proof.
  intros s c.
  split; [exact easy_start_valid|]. split; [exact easy_perm|].
  split; [exact easy_down_child|].
  exact (manhattanDist_move 3 s c easy_start_valid easy_perm easy_down_child).
Defined.

Lemma isSolvable_move_invariant_witness :
  let s := start (NPuzzle_init DefaultPuzzle.easy) in
  let c := moveBlank s 3 2 in
  validState 3 s ∧ NoDup (state s) ∧ c ∈ generateChildren 3 s ∧
  isSolvable (3 * 3) 3 c = isSolvable (3 * 3) 3 s.
Proof.
  intros s c.
  assert (H2 : NoDup (state s)).
  { change (state s) with DefaultPuzzle.easy. rewrite easy_perm. apply goalGrid_NoDup. }
  split; [exact easy_start_valid|]. split; [exact H2|].
  split; [exact easy_down_child|].
  exact (isSolvable_move_invariant 3 s c easy_start_valid H2 easy_down_child).
Defined.

Lemma reachable_goal_solvable_witness :
  let s := start (NPuzzle_init DefaultPuzzle.easy) in
  let u := moveBlank (moveBlank s 3 2) 3 2 in
  1 <= 3 ∧ DefaultPuzzle.easy ≡ₚ goalGrid 3 ∧ state u = goalGrid 3 ∧
  reachable 3 s u ∧ solvable (NPuzzle_init DefaultPuzzle.easy) = true.
Proof.
  intros s u.
  assert (H1 : 1 <= 3) by lia.
  assert (H3 : state u = goalGrid 3) by reflexivity.
  split; [exact H1|]. split; [exact easy_perm|]. split; [exact H3|].
  split; [exact easy_reachable|].
  exact (reachable_goal_solvable 3 DefaultPuzzle.easy u H1 easy_perm H3 easy_reachable).
Defined.

Lemma solve_legal_solution_witness :
  1 <= 3 ∧ DefaultPuzzle.easy ≡ₚ goalGrid 3 ∧
  ∃ fuel0, ∀ fuel, (fuel0 <= fuel)%nat →
    ∃ p' path,
      solve (F:=exactFloat) (FQ:=listQueue) fuel (NPuzzle_init DefaultPuzzle.easy) 4
      = Some (p', path) ∧
      result p' = path ∧
      (path = [] ∨
       (legalSolution 3 DefaultPuzzle.easy path ∧
        goalDepth p' = Z.of_nat (length path))).
Proof.
  assert (H1 : 1 <= 3) by lia.
  split; [exact H1|]. split; [exact easy_perm|].
  exact (solve_legal_solution (F:=exactFloat) (FQL:=listQueue_laws)
           3 DefaultPuzzle.easy 4 H1 easy_perm).
Defined.

Lemma solve_complete_small_witness :
  let s := start (NPuzzle_init DefaultPuzzle.easy) in
  1 <= 3 ∧ DefaultPuzzle.easy ≡ₚ goalGrid 3 ∧ 3 <= 3 ∧
  (∃ u, reachable 3 s u ∧ state u = goalGrid 3) ∧
  ∃ fuel p' path,
    solve (F:=exactFloat) (FQ:=listQueue) fuel (NPuzzle_init DefaultPuzzle.easy) 2
    = Some (p', path) ∧ path ≠ [].
Proof.
  intros s.
  assert (H1 : 1 <= 3) by lia.
  assert (H3 : 3 <= 3) by lia.
  assert (H4 : ∃ u, reachable 3 s u ∧ state u = goalGrid 3).
  { exists (moveBlank (moveBlank s 3 2) 3 2). split; [exact easy_reachable|reflexivity]. }
  split; [exact H1|]. split; [exact easy_perm|]. split; [exact H3|].
  split; [exact H4|].
  exact (proj1 (solve_complete_small (F:=exactFloat) (FQL:=listQueue_laws)
                  3 DefaultPuzzle.easy 2 H1 easy_perm H3) H4).
Defined.

Lemma solve_uniform_cost_shortest_witness :
  let s := start (NPuzzle_init DefaultPuzzle.easy) in
  let u := moveBlank (moveBlank s 3 2) 3 2 in
  1 <= 3 ∧ DefaultPuzzle.easy ≡ₚ goalGrid 3 ∧ FrontierQueueMin (list PuzzleState) ∧
  (1 < 2 ∨ 5 < 1) ∧ 3 <= 3 ∧ reachableIn 3 2 s u ∧ state u = goalGrid 3 ∧
  ∃ p' path,
    solve (F:=exactFloat) (FQ:=listQueue) 12 (NPuzzle_init DefaultPuzzle.easy) 1
    = Some (p', path) ∧ path ≠ [] ∧ (length path <= 2 + 1)%nat.
Proof.
  intros s u.
  assert (H1 : 1 <= 3) by lia.
  assert (H2 : 1 < 2 ∨ 5 < 1) by (left; lia).
  assert (H3 : 3 <= 3) by lia.
  assert (H4 : state u = goalGrid 3) by reflexivity.
  split; [exact H1|]. split; [exact easy_perm|]. split; [exact listQueue_min|].
  split; [exact H2|]. split; [exact H3|]. split; [exact easy_reachableIn|].
  split; [exact H4|].
  destruct (solve (F:=exactFloat) (FQ:=listQueue) 12
                  (NPuzzle_init DefaultPuzzle.easy) 1) as [[p' path]|] eqn:Hrun.
  - exists p', path. split; [reflexivity|].
    exact (solve_uniform_cost_shortest (F:=exactFloat) (FQL:=listQueue_laws)
             (FQM:=listQueue_min) 3 DefaultPuzzle.easy 1 H1 easy_perm H2 H3
             2 u 12 p' path easy_reachableIn H4 Hrun).
  - by vm_compute in Hrun.
Defined.

Lemma getKey_ambiguous_large_witness :
  4 <= 4 ∧
  ∃ a b : list Z,
    a ≡ₚ goalGrid 4 ∧ b ≡ₚ goalGrid 4 ∧ a ≠ b ∧
    getKey (4 * 4) (PuzzleState_of a) = getKey (4 * 4) (PuzzleState_of b).
Proof.
  assert (H1 : 4 <= 4) by lia.
  split; [exact H1|]. exact (getKey_ambiguous_large 4 H1).
Defined.

Lemma displayState_aligned_witness :
  let p := NPuzzle_init DefaultPuzzle.easy in
  1 <= 3 ∧ len p = 3 * 3 ∧ dim p = 3 ∧ nsz p = 3 * 3 - 1 ∧
  Forall (λ v, 0 <= v <= 3 * 3 - 1) (state (start p)) ∧
  displayState p (start p) ""
  = Some ("" +:+ gridText (String.length (to_string (nsz p))) 3 (start p)) ∧
  ∀ i, String.length
         (paddedCell (String.length (to_string (nsz p))) (vget (state (start p)) i))
       = S (String.length (to_string (nsz p))).
Proof.
  intros p.
  assert (H1 : 1 <= 3) by lia.
  assert (H2 : len p = 3 * 3) by reflexivity.
  assert (H3 : dim p = 3) by reflexivity.
  assert (H4 : nsz p = 3 * 3 - 1) by reflexivity.
  assert (H5 : Forall (λ v, 0 <= v <= 3 * 3 - 1) (state (start p))).
  { simpl. repeat constructor; lia. }
  split; [exact H1|]. split; [exact H2|]. split; [exact H3|]. split; [exact H4|].
  split; [exact H5|].
  exact (displayState_aligned 3 p (start p) H1 H2 H3 H4 H5 "").
Defined.

Lemma displayState_throws_witness :
  let p := NPuzzle_init [100; 2; 3; 0] in
  0 <= 0 < len p ∧
  (String.length (to_string (nsz p)) + 1
   < String.length (to_string (vget (state (start p)) 0)))%nat ∧
  displayState p (start p) "" = None.
Proof.
  intros p.
  assert (H1 : 0 <= 0 < len p) by (vm_compute; split; congruence).
  assert (H2 : (String.length (to_string (nsz p)) + 1
                < String.length (to_string (vget (state (start p)) 0)))%nat).
  { vm_compute. lia. }
  split; [exact H1|]. split; [exact H2|].
  exact (displayState_throws p (start p) "" 0 H1 H2).
Defined.

Lemma solveVerbose_agrees_witness :
  1 <= 3 ∧ DefaultPuzzle.easy ≡ₚ goalGrid 3 ∧
  match solve (F:=exactFloat) (FQ:=listQueue) 12 (NPuzzle_init DefaultPuzzle.easy) 2 with
  | Some (p', path) =>
      ∃ out', solveVerbose (F:=exactFloat) (T:={| float_to_text := λ _, "" |})
                (FQ:=listQueue) 12 (NPuzzle_init DefaultPuzzle.easy) 2 ""
              = Returns (p', path, out')
  | None =>
      solveVerbose (F:=exactFloat) (T:={| float_to_text := λ _, "" |})
        (FQ:=listQueue) 12 (NPuzzle_init DefaultPuzzle.easy) 2 "" = OutOfFuel
  end.
Proof.
  assert (H1 : 1 <= 3) by lia.
  split; [exact H1|]. split; [exact easy_perm|].
  exact (solveVerbose_agrees (F:=exactFloat) (FQL:=listQueue_laws)
           3 DefaultPuzzle.easy 2 H1 easy_perm
           (T:={| float_to_text := λ _, "" |}) 12 "").
Defined.

Lemma parsePuzzle_gridLine_witness :
  DefaultPuzzle.easy ≠ [] ∧
  Forall (λ v, INT_MIN <= v <= INT_MAX) DefaultPuzzle.easy ∧
  parsePuzzle (gridLine DefaultPuzzle.easy) = Some DefaultPuzzle.easy.
Proof.
  assert (H1 : DefaultPuzzle.easy ≠ []) by discriminate.
  assert (H2 : Forall (λ v, INT_MIN <= v <= INT_MAX) DefaultPuzzle.easy).
  { unfold INT_MIN, INT_MAX. repeat constructor; lia. }
  split; [exact H1|]. split; [exact H2|].
  exact (parsePuzzle_gridLine DefaultPuzzle.easy H1 H2).
Defined.

Lemma displaySolution_after_solve_witness :
  1 <= 3 ∧ DefaultPuzzle.easy ≡ₚ goalGrid 3 ∧
  ∃ p' path,
    solve (F:=exactFloat) (FQ:=listQueue) 12 (NPuzzle_init DefaultPuzzle.easy) 1
    = Some (p', path) ∧
    displaySolution p' ""
    = Some ("" +:+ endl +:+ "*************** SOLUTION ****************" +:+ endl +:+ endl
               +:+ match path with
                   | [] => "-- NO SOLUTION --" +:+ endl +:+ endl
                   | _ => ""
                   end
               +:+ solutionText (String.length (to_string (3 * 3 - 1))) 3 0 path
               +:+ "*****************************************" +:+ endl +:+ endl).
Proof.
  assert (H1 : 1 <= 3) by lia.
  split; [exact H1|]. split; [exact easy_perm|].
  destruct (solve (F:=exactFloat) (FQ:=listQueue) 12
                  (NPuzzle_init DefaultPuzzle.easy) 1) as [[p' path]|] eqn:Hrun.
  - exists p', path. split; [reflexivity|].
    exact (displaySolution_after_solve (F:=exactFloat) (FQL:=listQueue_laws)
             3 DefaultPuzzle.easy 1 H1 easy_perm 12 p' path "" Hrun).
  - by vm_compute in Hrun.
Defined.

Lemma heuristics_admissible_witness :
  let s := start (NPuzzle_init DefaultPuzzle.easy) in
  let u := moveBlank (moveBlank s 3 2) 3 2 in
  validState 3 s ∧ state s ≡ₚ goalGrid 3 ∧ reachableIn 3 2 s u ∧
  state u = goalGrid 3 ∧
  misplacedTile (3 * 3) s <= manhattanDist (3 * 3) 3 s ∧
  manhattanDist (3 * 3) 3 s <= Z.of_nat 2.
Proof.
  intros s u.
  assert (H4 : state u = goalGrid 3) by reflexivity.
  split; [exact easy_start_valid|]. split; [exact easy_perm|].
  split; [exact easy_reachableIn|]. split; [exact H4|].
  exact (heuristics_admissible 3 2 s u easy_start_valid easy_perm easy_reachableIn H4).
Defined.

Lemma solve_expanded_count_witness :
  1 <= 3 ∧ DefaultPuzzle.easy ≡ₚ goalGrid 3 ∧
  ∃ p' path,
    solve (F:=exactFloat) (FQ:=listQueue) 12 (NPuzzle_init DefaultPuzzle.easy) 4
    = Some (p', path) ∧
    expanded p' = Z.of_nat (size (exploredKeys (exploredStates p'))).
Proof.
  assert (H1 : 1 <= 3) by lia.
  split; [exact H1|]. split; [exact easy_perm|].
  destruct (solve (F:=exactFloat) (FQ:=listQueue) 12
                  (NPuzzle_init DefaultPuzzle.easy) 4) as [[p' path]|] eqn:Hrun.
  - exists p', path. split; [reflexivity|].
    exact (solve_expanded_count (F:=exactFloat) (FQL:=listQueue_laws)
             3 DefaultPuzzle.easy 4 H1 easy_perm 12 p' path Hrun).
  - by vm_compute in Hrun.
Defined.

Lemma solve_again_witness :
  1 <= 3 ∧ DefaultPuzzle.easy ≡ₚ goalGrid 3 ∧ DefaultPuzzle.easy ≠ goalGrid 3 ∧
  (2 <= 2)%nat ∧
  ∃ p1 path,
    solve (F:=exactFloat) (FQ:=listQueue) 12 (NPuzzle_init DefaultPuzzle.easy) 1
    = Some (p1, path) ∧
    ∃ p2, solve (F:=exactFloat) (FQ:=listQueue) 2 p1 4 = Some (p2, path) ∧
          expanded p2 = expanded p1 ∧ maxQueue p2 = maxQueue p1 ∧
          goalDepth p2 = goalDepth p1 ∧ exploredStates p2 = exploredStates p1.
Proof.
  assert (H1 : 1 <= 3) by lia.
  assert (H3 : DefaultPuzzle.easy ≠ goalGrid 3) by discriminate.
  assert (H4 : (2 <= 2)%nat) by lia.
  split; [exact H1|]. split; [exact easy_perm|]. split; [exact H3|]. split; [exact H4|].
  destruct (solve (F:=exactFloat) (FQ:=listQueue) 12
                  (NPuzzle_init DefaultPuzzle.easy) 1) as [[p1 path]|] eqn:Hrun.
  - exists p1, path. split; [reflexivity|].
    exact (solve_again (F:=exactFloat) (FQL:=listQueue_laws)
             3 DefaultPuzzle.easy 1 H1 easy_perm 12 p1 path 4 2 H3 H4 Hrun).
  - by vm_compute in Hrun.
Defined.
